(** * Budget-aware search routing: a shallow embedding of [BudgetRouter]

    The development follows the TypeScript sources:
    - [routing/budget_router.ts]   (class [BudgetRouter])
    - [storage/index.ts], [storage/file.ts]   (usage storage)
    - [providers/unified/web_search.ts]   (explicit provider selection)
    - [storage/redis.ts]   (the Redis backend of the usage storage)
    - [providers/search/quality_search/index.ts]   (search over several
      sources, deduplicated and reranked)
    - the budget report's [formatBudgetStats] and [getProgressBar]

    Conventions.  JavaScript numbers that hold integers (timestamps in
    milliseconds, usage counters, limits) are [Z]; the failure counter of the
    circuit breaker, which starts at 0 and is only ever incremented, is [nat].
    JavaScript objects and [Map]s used as dictionaries are [gmap]s.  Code that
    throws returns an [outcome]; code that reads the clock, talks to a provider
    or mutates the router threads an explicit state.

    The world outside the program is a [World]: the successive readings of the
    clock and what each provider call answers.  One [route] call is followed
    from start to end; [await] points are not interleaved with other calls.
    The router sees its usage storage through the [UsageStorage] interface,
    as a mapping from keys to counters; the file backend is modelled on its
    own in [FileStorage]. *)

From Stdlib Require Import ZArith QArith Qround Qabs Lqa Ascii String Lia.
From stdpp Require Import base option list gmap strings.

Local Open Scope Z_scope.

(** ** The JavaScript built-ins the router relies on *)

Module JS.

(** [Date.prototype.toISOString], from a time value in milliseconds since
    the epoch.  The calendar fields follow ECMAScript's [Day], [YearFromTime],
    [MonthFromTime] and [DateFromTime]; they are computed with the usual
    era-based civil calendar conversion. *)

Definition msPerDay : Z := 86400000.

Definition Day (t : Z) : Z := t / msPerDay.
Definition TimeWithinDay (t : Z) : Z := t mod msPerDay.

(** Days since the epoch of 1 January of year [y] (ECMAScript [DayFromYear]). *)
Definition DayFromYear (y : Z) : Z :=
  365 * (y - 1970) + (y - 1969) / 4 - (y - 1901) / 100 + (y - 1601) / 400.

Record civil := { civ_year : Z; civ_month : Z; civ_day : Z }.

Definition civil_from_days (days : Z) : civil :=
  let z := days + 719468 in
  let era := z / 146097 in
  let doe := z - era * 146097 in
  let yoe := (doe - doe / 1460 + doe / 36524 - doe / 146096) / 365 in
  let doy := doe - (365 * yoe + yoe / 4 - yoe / 100) in
  let mp := (5 * doy + 2) / 153 in
  let d := doy - (153 * mp + 2) / 5 + 1 in
  let m := if mp <? 10 then mp + 3 else mp - 9 in
  {| civ_year := yoe + era * 400 + (if m <=? 2 then 1 else 0);
     civ_month := m;
     civ_day := d |}.

(** ECMAScript's own definition of the month, by the day within the year;
    [civil_from_days] is checked against it below. *)
Definition DaysInYear (y : Z) : Z :=
  if negb (y mod 4 =? 0) then 365
  else if negb (y mod 100 =? 0) then 366
  else if negb (y mod 400 =? 0) then 365
  else 366.

Definition InLeapYear (y : Z) : Z := if DaysInYear y =? 365 then 0 else 1.

Definition MonthFromDay (d leap : Z) : Z :=
  if d <? 31 then 0
  else if d <? 59 + leap then 1
  else if d <? 90 + leap then 2
  else if d <? 120 + leap then 3
  else if d <? 151 + leap then 4
  else if d <? 181 + leap then 5
  else if d <? 212 + leap then 6
  else if d <? 243 + leap then 7
  else if d <? 273 + leap then 8
  else if d <? 304 + leap then 9
  else if d <? 334 + leap then 10
  else 11.

Definition YearFromTime (t : Z) : Z := civ_year (civil_from_days (Day t)).
(** 0 = January, as in ECMAScript. *)
Definition MonthFromTime (t : Z) : Z := civ_month (civil_from_days (Day t)) - 1.
Definition DateFromTime (t : Z) : Z := civ_day (civil_from_days (Day t)).
Definition HourFromTime (t : Z) : Z := TimeWithinDay t / 3600000.
Definition MinFromTime (t : Z) : Z := (TimeWithinDay t / 60000) mod 60.
Definition SecFromTime (t : Z) : Z := (TimeWithinDay t / 1000) mod 60.
Definition msFromTime (t : Z) : Z := TimeWithinDay t mod 1000.

Definition digit (n : Z) : ascii := ascii_of_nat (48 + Z.to_nat n).

(** The [w] low decimal digits of [n], most significant first. *)
Fixpoint zpad (w : nat) (n : Z) : string :=
  match w with
  | O => EmptyString
  | S k => String (digit ((n / 10 ^ Z.of_nat k) mod 10)) (zpad k n)
  end.

(** Years 0..9999 print as four digits, all others in the expanded form:
    a sign and six digits. *)
Definition year_string (y : Z) : string :=
  if (0 <=? y) && (y <=? 9999) then zpad 4 y
  else if y <? 0 then String "-" (zpad 6 (- y))
  else String "+" (zpad 6 y).

Definition toISOString (t : Z) : string :=
  year_string (YearFromTime t) +:+ "-" +:+ zpad 2 (MonthFromTime t + 1)
    +:+ "-" +:+ zpad 2 (DateFromTime t)
    +:+ "T" +:+ zpad 2 (HourFromTime t)
    +:+ ":" +:+ zpad 2 (MinFromTime t)
    +:+ ":" +:+ zpad 2 (SecFromTime t)
    +:+ "." +:+ zpad 3 (msFromTime t) +:+ "Z".

(** [s.slice(0, n)] for [0 <= n]. *)
Definition slice0 (n : nat) (s : string) : string := String.substring 0 n s.

End JS.


(** ** Exceptions, outcomes and the state-and-exception monad *)

(** [ErrorType] of [common/types.ts]. *)
Inductive ErrorType := API_ERROR | RATE_LIMIT | INVALID_INPUT | PROVIDER_ERROR.

(** What JavaScript code of this program can throw. *)
Inductive exn :=
| Error (message : string)
| ProviderError (kind : ErrorType) (message : string) (provider : string)
| TypeError (message : string)
| SyntaxError (message : string).

Inductive outcome (A : Type) :=
| Ok (a : A)
| Throw (e : exn).
Arguments Ok {A} a.
Arguments Throw {A} e.

(** A computation over a mutable state [S]: it returns or throws, and in both
    cases leaves a state behind (what was mutated before a [throw] stays
    mutated, as in JavaScript). *)
Definition M (S A : Type) : Type := S -> outcome A * S.

Definition ret {S A} (a : A) : M S A := fun s => (Ok a, s).
Definition throw {S A} (e : exn) : M S A := fun s => (Throw e, s).
Definition bind {S A B} (m : M S A) (k : A -> M S B) : M S B :=
  fun s => match m s with
           | (Ok a, s') => k a s'
           | (Throw e, s') => (Throw e, s')
           end.
(** [try { m } catch (error) { h error }] *)
Definition try_catch {S A} (m : M S A) (h : exn -> M S A) : M S A :=
  fun s => match m s with
           | (Ok a, s') => (Ok a, s')
           | (Throw e, s') => h e s'
           end.
(** An expression that returns or throws without touching the state. *)
Definition eval {S A} (x : outcome A) : M S A := fun s => (x, s).
Definition gets {S A} (f : S -> A) : M S A := fun s => (Ok (f s), s).
Definition modify {S} (f : S -> S) : M S unit := fun s => (Ok tt, f s).

Declare Scope js_scope.
Delimit Scope js_scope with js.
Notation "x <- c1 ;; c2" := (bind c1 (fun x => c2))
  (at level 100, c1 at next level, right associativity) : js_scope.
Notation "c1 ;; c2" := (bind c1 (fun _ => c2))
  (at level 100, right associativity) : js_scope.

(** ** Data model *)

Inductive ResetType := monthly | lifetime | paid.

#[global] Instance ResetType_eq_dec : EqDecision ResetType.
Proof. solve_decision. Defined.

(** One entry of [PROVIDER_LIMITS] ([config/env.ts]).  [cost_per_query] is
    only present on paid-only providers; it is a double, that is, a
    rational. *)
Record LimitConfig := {
  lc_limit : Z;
  lc_type : ResetType;
  cost_per_query : option Q;
}.

Record SearchResult := {
  title : string;
  url : string;
  snippet : string;
  source_provider : string;
}.

(** The parameter object handed to [SearchProvider.search]. *)
Record SearchParams := {
  sp_query : string;
  sp_limit : option Z;
  sp_include_content : bool;
}.

Record RouteOptions := {
  query : string;
  limit : option Z;
  preferGoogle : bool;      (* [undefined] behaves as [false] *)
  includeContent : bool;    (* [undefined] behaves as [false] *)
}.

Record RouteResult := {
  results : list SearchResult;
  provider : string;
  usedPaidTier : bool;
}.

Record CircuitState := {
  failures : nat;
  lastFailure : Z;
  cooldownUntil : Z;
}.

Module CIRCUIT_BREAKER.
Definition maxFailures : nat := 3.
Definition cooldownMs : Z := 5 * 60 * 1000.
End CIRCUIT_BREAKER.

(** Which statement of the program called [provider.search]. *)
Inductive Via := ViaContent | ViaStack | ViaPaidFallback | ViaExplicit.

(** One call of some provider's [search], with what the router's fields held
    at that moment. *)
Record Invocation := {
  inv_provider : string;
  inv_params : SearchParams;
  inv_via : Via;
  inv_storage : gmap string Z;
  inv_circuit : gmap string CircuitState;
  inv_ticks : nat;
  inv_requests : nat;
}.

(** The mutable part of a [BudgetRouter]: the usage counters behind
    [this.storage] (see [UsageStorage] in [storage/index.ts]: [get] is 0 for an
    absent key, [increment] returns the new value), [this.circuitState], and
    three pieces of bookkeeping: how often the clock was read, which provider
    calls were made, and how many [get] and [increment] requests were made of
    the usage store. *)
Record Router := {
  storage : gmap string Z;
  circuitState : gmap string CircuitState;
  ticks : nat;
  calls : list Invocation;
  requests : nat;
}.

(** Everything outside the program: the [i]-th reading of the clock, what the
    [n]-th provider call returns or throws, and the error, if any, with which
    the usage store rejects the [n]-th [get] or [increment] request made of it
    (the promise of [storage.get] or [storage.increment] is rejected: the
    usage file cannot be written, Redis cannot be reached).  A rejected
    request is taken to leave the counters as they were. *)
Record World := {
  clock : nat -> Z;
  search_outcome : string -> SearchParams -> nat -> outcome (list SearchResult);
  storage_error : nat -> option exn;
}.

Inductive HealthStatus := healthy | degraded | down.

Record Health := {
  h_status : HealthStatus;
  h_failures : nat;
  h_cooldownUntil : option string;
}.

Record UsageEntry := {
  ue_used : Z;
  ue_limit : Z;
  ue_remaining : Z;
}.

(** An entry of [paidApis].  Its third field, [estimatedCost], is the
    floating-point product of the two and is left out. *)
Record PaidApiEntry := {
  pa_used : Z;
  pa_costPerQuery : Q;
}.

Record BudgetStats := {
  st_monthly : gmap string UsageEntry;
  st_lifetime : gmap string UsageEntry;
  st_paidApis : gmap string PaidApiEntry;
  st_paid : gmap string Z;
  st_health : gmap string Health;
}.

(** Parameters of [UnifiedWebSearchProvider.search]. *)
Record UnifiedWebSearchParams := {
  u_query : string;
  u_limit : option Z;
  u_provider : option string;
  u_include_content : bool;
}.

(** ** Usage storage: the local-file backend ([storage/file.ts]) *)

Module FileStorage.

(** A value of the usage file: a number, taken to be an integer, or a text. *)
Inductive json := JNumber (n : Z) | JString (s : string).

#[global] Instance json_eq_dec : EqDecision json.
Proof. solve_decision. Defined.

#[global] Instance json_countable : Countable json.
Proof.
  refine (inj_countable'
            (fun value => match value with JNumber n => inl n | JString s => inr s end)
            (fun code => match code with inl n => JNumber n | inr s => JString s end) _).
  by intros [].
Defined.

(** What [JSON.parse] makes of the usage file: an object with such values,
    or [null].  The other JSON documents (arrays, nested objects, booleans,
    fractions, a number or a text on its own) are outside this model. *)
Inductive document := Object (properties : gmap string json) | Null.

(** What [data[key]] evaluates to on an object: a property of the object
    itself, the member that every object inherits from [Object.prototype]
    under that name, or [undefined]. *)
Inductive property := Own (value : json) | Inherited (name : string) | Undefined.

(** The names of the members of [Object.prototype] (as in Node.js). *)
Definition Object_prototype : list string :=
  [ "constructor"; "__defineGetter__"; "__defineSetter__"; "hasOwnProperty";
    "__lookupGetter__"; "__lookupSetter__"; "isPrototypeOf";
    "propertyIsEnumerable"; "toString"; "valueOf"; "__proto__";
    "toLocaleString" ].

(** The state: the file [~/.mcp-omnisearch/usage.json], which is absent (or
    cannot be read) or holds some text, and how often [save] was called. *)
Record Disk := {
  file : option string;
  saves : nat;
}.

Definition cannot_read_null (key : string) : exn :=
  TypeError ("Cannot read properties of null (reading '" +:+ key +:+ "')").

Definition cannot_set_null (key : string) : exn :=
  TypeError ("Cannot set properties of null (setting '" +:+ key +:+ "')").

(** [data[key]] *)
Definition read_property (data : document) (key : string) : outcome property :=
  match data with
  | Null => Throw (cannot_read_null key)
  | Object properties =>
      match properties !! key with
      | Some value => Ok (Own value)
      | None => Ok (if decide (key ∈ Object_prototype) then Inherited key
                    else Undefined)
      end
  end.

(** [value ?? 0] *)
Definition or_zero (value : property) : property :=
  match value with
  | Undefined => Own (JNumber 0)
  | defined => defined
  end.

(** [data[key] = value], for a [value] that is a number or a text.  On an
    object the name [__proto__], unless it is a property of the object
    itself, reaches the setter of [Object.prototype], which ignores such a
    value. *)
Definition write_property (data : document) (key : string) (value : json)
    : outcome document :=
  match data with
  | Null => Throw (cannot_set_null key)
  | Object properties =>
      if (String.eqb key "__proto__" && bool_decide (properties !! key = None))%bool
      then Ok (Object properties)
      else Ok (Object (<[key := value]> properties))
  end.

Section WithJSON.
(** [JSON.parse] (throws a [SyntaxError] on text that is not JSON) and
    [JSON.stringify] on the documents above; the error, if any, with which
    [fs.mkdir] or [fs.writeFile] rejects the [n]-th [save], which is taken to
    leave the file as it was; and the text [String(f)] of the built-in
    function of [Object.prototype] under a name, which the engine chooses. *)
Variable JSON_parse : string -> outcome document.
Variable JSON_stringify : document -> string.
Variable save_error : nat -> option exn.
Variable Function_toString : string -> string.

(** [(value ?? 0) + 1].  The sum of a number is the exact one: the rounding
    of JavaScript's doubles, which sets in beyond 2^53, is not modelled. *)
Definition or_zero_plus_one (value : property) : json :=
  match value with
  | Undefined => JNumber (0 + 1)
  | Own (JNumber n) => JNumber (n + 1)
  | Own (JString s) => JString (s +:+ "1")
  | Inherited name =>
      JString ((if String.eqb name "__proto__" then "[object Object]"
                else Function_toString name) +:+ "1")
  end.

(** [fs.readFile(this.filePath, 'utf-8')] *)
Definition readFile : M Disk string :=
  fun disk => match file disk with
              | Some content => (Ok content, disk)
              | None => (Throw (Error "ENOENT: no such file or directory"), disk)
              end.

Definition load : M Disk document :=
  try_catch
    (content <- readFile ;;
     fun disk => (JSON_parse content, disk))%js
    (fun _ => ret (Object ∅)).

(** [fs.mkdir] and [fs.writeFile] *)
Definition save (data : document) : M Disk unit :=
  fun disk =>
    match save_error (saves disk) with
    | Some error => (Throw error, {| file := file disk; saves := S (saves disk) |})
    | None =>
        (Ok tt, {| file := Some (JSON_stringify data); saves := S (saves disk) |})
    end.

Definition get (key : string) : M Disk property :=
  (data <- load ;;
   value <- eval (read_property data key) ;;
   ret (or_zero value))%js.

Definition increment (key : string) : M Disk property :=
  (data <- load ;;
   value <- eval (read_property data key) ;;
   data <- eval (write_property data key (or_zero_plus_one value)) ;;
   save data ;;
   eval (read_property data key))%js.

Definition getAll : M Disk document := load.
End WithJSON.

End FileStorage.

(** [n] calls of [increment(key)], one after the other, and what they return. *)
Section FileRuns.
Variable JSON_parse : string -> outcome FileStorage.document.
Variable JSON_stringify : FileStorage.document -> string.
Variable save_error : nat -> option exn.
Variable Function_toString : string -> string.

Fixpoint increment_times (n : nat) (key : string)
    : M FileStorage.Disk (list FileStorage.property) :=
  match n with
  | O => ret []
  | S n =>
      (v <- FileStorage.increment JSON_parse JSON_stringify save_error
              Function_toString key ;;
       vs <- increment_times n key ;;
       ret (v :: vs))%js
  end.
End FileRuns.

(** ** The router ([routing/budget_router.ts]) *)

Definition defaultStack : list string :=
  ["brave"; "tavily"; "exa"; "jina_search"; "serper"; "youcom"].

Definition googleStack : list string :=
  ["serper"; "brave"; "tavily"; "exa"; "jina_search"; "youcom"].

(** The constructor registers exactly the stack members whose API key is
    valid ([is_api_key_valid], [common/utils.ts]). *)
Definition registered (is_api_key_valid : string -> bool) : gset string :=
  list_to_set (filter (fun p => is_api_key_valid p = true) defaultStack).

Definition jina_key_required : exn :=
  Error "Jina Search API key required for include_content option".

Definition no_providers_available : exn :=
  Error "No search providers available. Please configure at least one API key.".

Definition set_storage (f : gmap string Z -> gmap string Z) (r : Router) : Router :=
  {| storage := f (storage r); circuitState := circuitState r;
     ticks := ticks r; calls := calls r; requests := requests r |}.

Definition set_circuitState
    (f : gmap string CircuitState -> gmap string CircuitState) (r : Router) : Router :=
  {| storage := storage r; circuitState := f (circuitState r);
     ticks := ticks r; calls := calls r; requests := requests r |}.

Definition tick (r : Router) : Router :=
  {| storage := storage r; circuitState := circuitState r;
     ticks := S (ticks r); calls := calls r; requests := requests r |}.

(** One more request was made of the usage store. *)
Definition asked (r : Router) : Router :=
  {| storage := storage r; circuitState := circuitState r;
     ticks := ticks r; calls := calls r; requests := S (requests r) |}.

Definition log_call (p : string) (params : SearchParams) (via : Via) (r : Router)
    : Router :=
  {| storage := storage r; circuitState := circuitState r; ticks := ticks r;
     calls := calls r ++
       [ {| inv_provider := p; inv_params := params; inv_via := via;
            inv_storage := storage r; inv_circuit := circuitState r;
            inv_ticks := ticks r; inv_requests := requests r |} ];
     requests := requests r |}.

(** [PROVIDER_LIMITS[provider]] and [provider in PROVIDER_LIMITS] on a table
    given in source order (the keys of an object literal are distinct, so the
    first entry found is the entry).  Provider names are taken not to be
    names of members of [Object.prototype], which both JavaScript operations
    would find as well; none of the names of [ProviderName], of the stacks
    and of [WebSearchProvider] is. *)
Fixpoint table_lookup (table : list (string * LimitConfig)) (p : string)
    : option LimitConfig :=
  match table with
  | [] => None
  | (k, c) :: rest => if String.eqb k p then Some c else table_lookup rest p
  end.

(** The ASCII part of [String.prototype.toLowerCase]: the letters A to Z are
    lowered and every other character is left as it is.  This is all that
    the test [query.toLowerCase().includes('google')] depends on: no
    character outside ASCII lower-cases to one of the letters of that word. *)
Definition lower_ascii (c : ascii) : ascii :=
  let n := nat_of_ascii c in
  if (Nat.leb 65 n && Nat.leb n 90)%bool then ascii_of_nat (n + 32) else c.

Fixpoint toLowerCase (s : string) : string :=
  match s with
  | EmptyString => EmptyString
  | String c rest => String (lower_ascii c) (toLowerCase rest)
  end.

(** [hay.includes(needle)] *)
Fixpoint includes (needle hay : string) : bool :=
  String.prefix needle hay ||
  match hay with
  | EmptyString => false
  | String _ rest => includes needle rest
  end.

Definition empty_stats : BudgetStats :=
  {| st_monthly := ∅; st_lifetime := ∅; st_paidApis := ∅; st_paid := ∅;
     st_health := ∅ |}.

(** The explicit providers [UnifiedWebSearchProvider] constructs. *)
Definition legacy_providers : list string := ["tavily"; "brave"; "kagi"; "exa"].

Section BudgetRouter.

(** The outside world, the providers registered by the constructor, and the
    table [PROVIDER_LIMITS] of [config/env.ts] in source order. *)
Variable w : World.
Variable providers : gset string.
Variable PROVIDER_LIMITS : list (string * LimitConfig).

Local Open Scope js_scope.

(** [Date.now()], and the time value of [new Date()]. *)
Definition Date_now : M Router Z :=
  fun r => (Ok (clock w (ticks r)), tick r).

(** [await this.storage.get(key)] and [await this.storage.increment(key)]:
    the store answers, or rejects the request. *)
Definition storage_get (key : string) : M Router Z :=
  fun r =>
    match storage_error w (requests r) with
    | Some error => (Throw error, asked r)
    | None => (Ok (default 0 (storage r !! key)), asked r)
    end.

Definition storage_increment (key : string) : M Router Z :=
  fun r =>
    match storage_error w (requests r) with
    | Some error => (Throw error, asked r)
    | None =>
        let v := default 0 (storage r !! key) + 1 in
        (Ok v, set_storage <[key := v]> (asked r))
    end.

(** [await this.storage.getAll()], on a store that answers: a rejection of
    this request (which [getUsageStats] would pass on to its caller) is not
    part of the model. *)
Definition storage_getAll : M Router (gmap string Z) := gets storage.

(** [PROVIDER_LIMITS[provider]]; reading a field of [undefined] throws. *)
Definition limit_config (p : string) : M Router LimitConfig :=
  match table_lookup PROVIDER_LIMITS p with
  | Some limitConfig => ret limitConfig
  | None => throw (TypeError "Cannot read properties of undefined")
  end.

Definition getStorageKey (p : string) : M Router string :=
  limitConfig <- limit_config p ;;
  match lc_type limitConfig with
  | monthly =>
      now <- Date_now ;;
      let month := JS.slice0 7 (JS.toISOString now) in
      ret (p +:+ ":" +:+ month)
  | paid => ret (p +:+ ":paid")
  | lifetime => ret (p +:+ ":lifetime")
  end.

Definition hasQuota (p : string) : M Router bool :=
  key <- getStorageKey p ;;
  used <- storage_get key ;;
  limitConfig <- limit_config p ;;
  ret (used <? lc_limit limitConfig)%Z.

Definition isCircuitOpen (p : string) : M Router bool :=
  state <- gets (fun r => circuitState r !! p) ;;
  match state with
  | None => ret false
  | Some state =>
      now <- Date_now ;;
      if (now <? cooldownUntil state)%Z then ret true
      else
        (if (CIRCUIT_BREAKER.maxFailures <=? failures state)%nat
         then modify (set_circuitState (delete p))
         else ret tt) ;;
        ret false
  end.

Definition recordFailure (p : string) : M Router unit :=
  found <- gets (fun r => circuitState r !! p) ;;
  let state :=
    default {| failures := 0; lastFailure := 0; cooldownUntil := 0 |} found in
  let n := S (failures state) in
  now <- Date_now ;;
  state <-
    (if (CIRCUIT_BREAKER.maxFailures <=? n)%nat then
       now' <- Date_now ;;
       ret {| failures := n; lastFailure := now;
              cooldownUntil := now' + CIRCUIT_BREAKER.cooldownMs |}
     else
       ret {| failures := n; lastFailure := now;
              cooldownUntil := cooldownUntil state |}) ;;
  modify (set_circuitState <[p := state]>).

Definition recordSuccess (p : string) : M Router unit :=
  modify (set_circuitState (delete p)).

Definition getHealthStatus (p : string) : M Router Health :=
  state <- gets (fun r => circuitState r !! p) ;;
  match state with
  | None => ret {| h_status := healthy; h_failures := 0; h_cooldownUntil := None |}
  | Some state =>
      now <- Date_now ;;
      if (now <? cooldownUntil state)%Z then
        ret {| h_status := down; h_failures := failures state;
               h_cooldownUntil := Some (JS.toISOString (cooldownUntil state)) |}
      else if (0 <? failures state)%nat then
        ret {| h_status := degraded; h_failures := failures state;
               h_cooldownUntil := None |}
      else ret {| h_status := healthy; h_failures := 0; h_cooldownUntil := None |}
  end.

Definition recordUsage (p : string) (is_paid : bool) : M Router unit :=
  key <- getStorageKey p ;;
  storage_increment key ;;
  if is_paid then storage_increment (p +:+ ":paid") ;; ret tt
  else ret tt.

Definition recordExplicitUsage (p : string) (isPaidProvider : bool)
    : M Router unit :=
  match table_lookup PROVIDER_LIMITS p with
  | Some limitConfig =>
      match lc_type limitConfig, isPaidProvider with
      | paid, _ | _, true => storage_increment (p +:+ ":paid") ;; ret tt
      | _, false => recordUsage p false
      end
  | None => ret tt
  end.

(** [provider.search(params)] on the adapter registered under [p]. *)
Definition provider_search (via : Via) (p : string) (params : SearchParams)
    : M Router (list SearchResult) :=
  fun r => (search_outcome w p params (length (calls r)), log_call p params via r).

Definition stack_params (options : RouteOptions) : SearchParams :=
  {| sp_query := query options; sp_limit := limit options;
     sp_include_content := false |}.

(** The body of [for (const providerName of stack)]: [Some] is a [return]
    out of the loop, [None] is falling out of it. *)
Fixpoint route_loop (options : RouteOptions) (stack : list string)
    : M Router (option RouteResult) :=
  match stack with
  | [] => ret None
  | providerName :: rest =>
      if decide (providerName ∈ providers) then
        open <- isCircuitOpen providerName ;;
        if (open : bool) then route_loop options rest
        else
          quota <- hasQuota providerName ;;
          if (quota : bool) then
            attempt <-
              try_catch
                (results <- provider_search ViaStack providerName
                              (stack_params options) ;;
                 recordUsage providerName false ;;
                 recordSuccess providerName ;;
                 ret (Some {| results := results; provider := providerName;
                              usedPaidTier := false |}))
                (fun error => recordFailure providerName ;; ret None) ;;
            match attempt with
            | Some result => ret (Some result)
            | None => route_loop options rest
            end
          else route_loop options rest
      else route_loop options rest
  end.

Definition paidProvider (options : RouteOptions) : string :=
  if preferGoogle options then "serper" else "jina_search".

Definition route (options : RouteOptions) : M Router RouteResult :=
  let stack := if preferGoogle options then googleStack else defaultStack in
  if includeContent options then
    if decide ("jina_search" ∈ providers) then
      results <- provider_search ViaContent "jina_search"
                   {| sp_query := query options; sp_limit := limit options;
                      sp_include_content := true |} ;;
      recordUsage "jina_search" false ;;
      ret {| results := results; provider := "jina_search";
             usedPaidTier := false |}
    else throw jina_key_required
  else
    found <- route_loop options stack ;;
    match found with
    | Some result => ret result
    | None =>
        if decide (paidProvider options ∈ providers) then
          results <- provider_search ViaPaidFallback (paidProvider options)
                       (stack_params options) ;;
          recordUsage (paidProvider options) true ;;
          ret {| results := results; provider := paidProvider options;
                 usedPaidTier := true |}
        else throw no_providers_available
    end.

(** One turn of [for (const [provider, limitConfig] of
    Object.entries(PROVIDER_LIMITS))] in [getUsageStats]. *)
Definition stats_step (allUsage : gmap string Z) (currentMonth : string)
    (stats : BudgetStats) (entry : string * LimitConfig) : M Router BudgetStats :=
  let '(p, limitConfig) := entry in
  let stats :=
    match lc_type limitConfig with
    | monthly =>
        let used := default 0 (allUsage !! (p +:+ ":" +:+ currentMonth)) in
        {| st_monthly :=
             <[p := {| ue_used := used; ue_limit := lc_limit limitConfig;
                       ue_remaining := Z.max 0 (lc_limit limitConfig - used) |}]>
               (st_monthly stats);
           st_lifetime := st_lifetime stats; st_paidApis := st_paidApis stats;
           st_paid := st_paid stats; st_health := st_health stats |}
    | lifetime =>
        let used := default 0 (allUsage !! (p +:+ ":lifetime")) in
        {| st_monthly := st_monthly stats;
           st_lifetime :=
             <[p := {| ue_used := used; ue_limit := lc_limit limitConfig;
                       ue_remaining := Z.max 0 (lc_limit limitConfig - used) |}]>
               (st_lifetime stats);
           st_paidApis := st_paidApis stats;
           st_paid := st_paid stats; st_health := st_health stats |}
    | paid =>
        let used := default 0 (allUsage !! (p +:+ ":paid")) in
        let costPerQuery := default 0%Q (cost_per_query limitConfig) in
        {| st_monthly := st_monthly stats; st_lifetime := st_lifetime stats;
           st_paidApis :=
             <[p := {| pa_used := used; pa_costPerQuery := costPerQuery |}]>
               (st_paidApis stats);
           st_paid := st_paid stats; st_health := st_health stats |}
    end in
  match lc_type limitConfig with
  | paid => ret stats
  | _ =>
      let stats :=
        {| st_monthly := st_monthly stats; st_lifetime := st_lifetime stats;
           st_paidApis := st_paidApis stats;
           st_paid := <[p := default 0 (allUsage !! (p +:+ ":paid"))]> (st_paid stats);
           st_health := st_health stats |} in
      health <- getHealthStatus p ;;
      ret {| st_monthly := st_monthly stats; st_lifetime := st_lifetime stats;
             st_paidApis := st_paidApis stats; st_paid := st_paid stats;
             st_health := <[p := health]> (st_health stats) |}
  end.

Fixpoint stats_loop (allUsage : gmap string Z) (currentMonth : string)
    (entries : list (string * LimitConfig)) (stats : BudgetStats)
    : M Router BudgetStats :=
  match entries with
  | [] => ret stats
  | entry :: rest =>
      stats <- stats_step allUsage currentMonth stats entry ;;
      stats_loop allUsage currentMonth rest stats
  end.

Definition getUsageStats : M Router BudgetStats :=
  allUsage <- storage_getAll ;;
  now <- Date_now ;;
  let currentMonth := JS.slice0 7 (JS.toISOString now) in
  stats_loop allUsage currentMonth PROVIDER_LIMITS empty_stats.

(** [UnifiedWebSearchProvider.search] ([providers/unified/web_search.ts]);
    its [budgetRouter] is the router above.  An absent or empty [provider]
    is falsy. *)
Definition invalid_provider (p : string) : exn :=
  ProviderError INVALID_INPUT
    ("Invalid provider: " +:+ p +:+ ". Valid options: tavily, brave, kagi, exa")
    "web_search".

Definition explicit_choice (params : UnifiedWebSearchParams) : option string :=
  match u_provider params with
  | Some EmptyString | None => None
  | Some p => Some p
  end.

Definition unified_search (params : UnifiedWebSearchParams)
    : M Router (list SearchResult) :=
  match explicit_choice params with
  | Some p =>
      if decide (p ∈ legacy_providers) then
        results <- provider_search ViaExplicit p
                     {| sp_query := u_query params; sp_limit := u_limit params;
                        sp_include_content := false |} ;;
        recordExplicitUsage p false ;;
        ret results
      else throw (invalid_provider p)
  | None =>
      let prefer := includes "google" (toLowerCase (u_query params)) in
      routed <- route {| query := u_query params; limit := u_limit params;
                         preferGoogle := prefer;
                         includeContent := u_include_content params |} ;;
      ret (results routed)
  end.

End BudgetRouter.

(** [getAvailableProviders]: the keys of [this.providers] in the order in
    which the constructor inserted them. *)
Definition getAvailableProviders (is_api_key_valid : string -> bool) : list string :=
  filter (fun p => is_api_key_valid p = true)
         ["brave"; "tavily"; "exa"; "jina_search"; "serper"; "youcom"].

(** The names of the type [WebSearchProvider]. *)
Definition WebSearchProvider : list string :=
  ["tavily"; "brave"; "kagi"; "exa"; "jina_search"; "serper"; "youcom"].

(** ** Quality search ([providers/search/quality_search/index.ts]) *)

(** What [QualitySearchProvider.search] returns: a result passed through as
    the source provider gave it, or one rebuilt from the reranker's answer
    ([position], [relevance_score], [source_provider] rewritten). *)
Inductive QualityResult :=
| Unranked (result : SearchResult)
| Reranked (result : SearchResult) (position : Z) (relevance_score : Q).

(** [JinaRerankerRequest], with the bearer token of the request. *)
Record RerankRequest := {
  rq_api_key : string;
  rq_model : string;
  rq_query : string;
  rq_documents : list string;
  rq_top_n : Z;
}.

(** One entry of [JinaRerankerResponse.results]. *)
Record RerankItem := {
  ri_index : Z;
  ri_relevance_score : Q;
}.

(** A [QualitySearchProvider] at work: its budget router and the requests it
    has sent to the reranker. *)
Record QualityState := {
  qs_router : Router;
  qs_reranks : list RerankRequest;
}.

Definition on_router {A} (m : M Router A) : M QualityState A :=
  fun s => let '(out, r) := m (qs_router s) in
           (out, {| qs_router := r; qs_reranks := qs_reranks s |}).

Definition newline : string := String (ascii_of_nat 10) EmptyString.

(** [s.replace(/\/$/, '')] *)
Fixpoint strip_trailing_slash (s : string) : string :=
  match s with
  | EmptyString => EmptyString
  | String c EmptyString => if Ascii.eqb c "/" then EmptyString else s
  | String c rest => String c (strip_trailing_slash rest)
  end.

Section Deduplication.

(** [String.prototype.toLowerCase] is the lower-casing of the Unicode
    standard, whose tables are not spelled out here: it is a parameter.  (On
    a text of ASCII characters it is [toLowerCase] above.) *)
Variable String_toLowerCase : string -> string.

Definition normalizedUrl (result : SearchResult) : string :=
  strip_trailing_slash (String_toLowerCase (url result)).

(** The loop of [deduplicateByUrl] over [seen] and [unique]. *)
Fixpoint dedup_loop (results : list SearchResult) (seen : gset string)
    (unique : list SearchResult) : list SearchResult :=
  match results with
  | [] => unique
  | result :: rest =>
      if decide (normalizedUrl result ∈ seen)
      then dedup_loop rest seen unique
      else dedup_loop rest ({[ normalizedUrl result ]} ∪ seen) (unique ++ [result])
  end.

Definition deduplicateByUrl (results : list SearchResult) : list SearchResult :=
  dedup_loop results ∅ [].

End Deduplication.

(** [array.slice(0, end)] for an integer [end]: a negative [end] counts from
    the end of the array. *)
Definition Array_slice0 {A} (end_ : Z) (l : list A) : list A :=
  let len := Z.of_nat (length l) in
  take (Z.to_nat (if end_ <? 0 then Z.max (len + end_) 0 else Z.min end_ len)) l.

(** [array[i]] for an integer [i]: [undefined] out of range. *)
Definition Array_at {A} (l : list A) (i : Z) : option A :=
  if i <? 0 then None else l !! Z.to_nat i.

Definition undefined_source_provider : exn :=
  TypeError "Cannot read properties of undefined (reading 'source_provider')".

(** [response.results.map((r, position) => ...)] from position [position] on. *)
Fixpoint rerank_map (results : list SearchResult) (items : list RerankItem)
    (position : Z) : outcome (list QualityResult) :=
  match items with
  | [] => Ok []
  | r :: rest =>
      match Array_at results (ri_index r) with
      | None => Throw undefined_source_provider
      | Some picked =>
          match rerank_map results rest (position + 1) with
          | Ok more =>
              Ok (Reranked {| title := title picked; url := url picked;
                              snippet := snippet picked;
                              source_provider :=
                                source_provider picked +:+ "+reranked" |}
                           (position + 1) (ri_relevance_score r) :: more)
          | Throw e => Throw e
          end
      end
  end.

Definition invalid_reranker_response : exn :=
  ProviderError API_ERROR "Invalid response format from Jina Reranker" "quality_search".

Definition all_sources_failed : exn :=
  ProviderError API_ERROR "All source providers failed to return results"
    "quality_search".

(** [Promise.allSettled]: the outcome of [m] as a value. *)
Definition settled {S A} (m : M S A) : M S (outcome A) :=
  fun s => let '(out, s') := m s in (Ok out, s').

(** The loop that fills [allResults] and [successfulProviders]. *)
Fixpoint collect (names : list string)
    (providerResults : list (outcome (list SearchResult)))
    : list SearchResult * list string :=
  match names, providerResults with
  | name :: names, result :: providerResults =>
      let '(allResults, successfulProviders) := collect names providerResults in
      match result with
      | Ok (first :: more) =>
          ((first :: more) ++ allResults, name :: successfulProviders)
      | _ => (allResults, successfulProviders)
      end
  | _, _ => ([], [])
  end.

Section QualitySearchProvider.

(** The outside world and [PROVIDER_LIMITS] as for the router; the names of
    the [sourceProviders] in order; what [validate_api_key] returns or throws
    for the Jina key and what [handle_provider_error] throws (both in
    [common/utils.ts]); and the reranker's answer to the [n]-th request: the
    [results] array of the body, [None] when it is missing or not an array.
    The entries of the array are taken to have an integer [index] and a
    [relevance_score]; an [index] may well point outside the results.
    [String_toLowerCase] is the lower-casing [deduplicateByUrl] applies. *)
Variable w : World.
Variable PROVIDER_LIMITS : list (string * LimitConfig).
Variable sourceProviders : list string.
Variable validate_api_key : outcome string.
Variable handle_provider_error : exn -> string -> string -> exn.
Variable http_rerank : RerankRequest -> nat -> outcome (option (list RerankItem)).
Variable String_toLowerCase : string -> string.

Local Open Scope js_scope.

Definition post_rerank (request : RerankRequest)
    : M QualityState (option (list RerankItem)) :=
  fun s => (http_rerank request (length (qs_reranks s)),
            {| qs_router := qs_router s;
               qs_reranks := qs_reranks s ++ [request] |}).

Definition rerank (api_key query : string) (results : list SearchResult) (topN : Z)
    : M QualityState (list QualityResult) :=
  let documents := map (fun r => title r +:+ newline +:+ snippet r) results in
  let requestBody :=
    {| rq_api_key := api_key; rq_model := "jina-reranker-v3"; rq_query := query;
       rq_documents := documents;
       rq_top_n := Z.min topN (Z.of_nat (length results)) |} in
  try_catch
    (response <- post_rerank requestBody ;;
     match response with
     | None => throw invalid_reranker_response
     | Some items =>
         match rerank_map results items 0 with
         | Ok rerankedResults => ret rerankedResults
         | Throw e => throw e
         end
     end)
    (fun _ => ret (map Unranked (Array_slice0 topN results))).

(** [sourceProviders.map(provider => provider.search(...))] under
    [Promise.allSettled]: every source is called, in order. *)
Fixpoint search_all (names : list string) (params : SearchParams)
    : M Router (list (outcome (list SearchResult))) :=
  match names with
  | [] => ret []
  | name :: names =>
      first <- settled (provider_search w ViaExplicit name params) ;;
      more <- search_all names params ;;
      ret (first :: more)
  end.

Fixpoint record_all (successfulProviders : list string) : M Router unit :=
  match successfulProviders with
  | [] => ret tt
  | providerName :: rest =>
      recordExplicitUsage w PROVIDER_LIMITS providerName false ;;
      record_all rest
  end.

Definition quality_limit (params : SearchParams) : Z :=
  match sp_limit params with
  | Some 0 | None => 10
  | Some n => n
  end.

Definition perProviderLimit (params : SearchParams) : Z :=
  Qceiling (inject_Z (quality_limit params) * (3 # 2)).

Definition quality_search (params : SearchParams)
    : M QualityState (list QualityResult) :=
  fun s0 =>
  match validate_api_key with
  | Throw e => (Throw e, s0)
  | Ok api_key =>
    try_catch
      (providerResults <-
         on_router (search_all sourceProviders
                      {| sp_query := sp_query params;
                         sp_limit := Some (perProviderLimit params);
                         sp_include_content := false |}) ;;
       let '(allResults, successfulProviders) :=
         collect sourceProviders providerResults in
       on_router (record_all successfulProviders) ;;
       match allResults with
       | [] => throw all_sources_failed
       | _ =>
           let uniqueResults := deduplicateByUrl String_toLowerCase allResults in
           if (length uniqueResults <=? 3)%nat
           then ret (map Unranked uniqueResults)
           else rerank api_key (sp_query params) uniqueResults (quality_limit params)
       end)
      (fun error =>
         match error with
         | ProviderError _ _ _ => throw error
         | _ => throw (handle_provider_error error "quality_search" "search")
         end) s0
  end.

End QualitySearchProvider.

(** ** The progress bars of the budget report ([formatBudgetStats]) *)

(** A JavaScript number: a rational, or one of the three special values.
    Doubles are rationals; what an operation returns is its exact result
    rounded by [fl] below.  Overflow, underflow and the sign of zero are not
    modelled. *)
Inductive number := Num (q : Q) | PosInfinity | NegInfinity | NaN.

(** [ToIntegerOrInfinity] of a finite number: truncation towards zero. *)
Definition Number_trunc (q : Q) : Z :=
  if Qle_bool 0 q then Qfloor q else Qceiling q.

Fixpoint repeat_string (s : string) (n : nat) : string :=
  match n with
  | O => EmptyString
  | S n => s +:+ repeat_string s n
  end.

(** [s.repeat(count)]; [None] is the [RangeError] thrown for a negative or
    infinite count. *)
Definition String_repeat (s : string) (count : number) : option string :=
  match count with
  | NaN => Some EmptyString
  | PosInfinity | NegInfinity => None
  | Num q =>
      let n := Number_trunc q in
      if n <? 0 then None else Some (repeat_string s (Z.to_nat n))
  end.

Definition Math_round (x : number) : number :=
  match x with
  | Num q => Num (inject_Z (Qfloor (q + (1 # 2))))
  | other => other
  end.

Section Doubles.

(** Rounding to the nearest double. *)
Variable fl : Q -> Q.

(** [a / b] for two integers. *)
Definition Number_div (a b : Z) : number :=
  if b =? 0
  then (if a =? 0 then NaN else if 0 <? a then PosInfinity else NegInfinity)
  else Num (fl (inject_Z a / inject_Z b)).

(** [x * c] and [x / c] for a positive integer constant [c]. *)
Definition Number_times (x : number) (c : Z) : number :=
  match x with
  | Num q => Num (fl (q * inject_Z c))
  | other => other
  end.

Definition Number_over (x : number) (c : Z) : number :=
  match x with
  | Num q => Num (fl (q / inject_Z c))
  | other => other
  end.

(** [c - x] for an integer constant [c]. *)
Definition Number_from (c : Z) (x : number) : number :=
  match x with
  | Num q => Num (fl (inject_Z c - q))
  | PosInfinity => NegInfinity
  | NegInfinity => PosInfinity
  | NaN => NaN
  end.

Definition getProgressBar (pct : number) : option string :=
  let filled := Math_round (Number_over pct 10) in
  let empty := Number_from 10 filled in
  match String_repeat "█" filled with
  | None => None
  | Some full =>
      match String_repeat "░" empty with
      | None => None
      | Some rest => Some ("[" +:+ full +:+ rest +:+ "]")
      end
  end.

(** [const pct = Math.round((data.used / data.limit) * 100);
     const bar = getProgressBar(pct)] of [formatBudgetStats]. *)
Definition entry_bar (data : UsageEntry) : option string :=
  getProgressBar
    (Math_round (Number_times (Number_div (ue_used data) (ue_limit data)) 100)).

End Doubles.

(** ** Usage storage: the Redis backend ([storage/redis.ts]) *)

Module RedisStorage.

(** *** Decimal numerals *)

Definition digit_of (c : ascii) : option Z :=
  let n := nat_of_ascii c in
  if (Nat.leb 48 n && Nat.leb n 57)%bool then Some (Z.of_nat n - 48) else None.

(** The value of the digits [s] starts with, read after [acc]. *)
Fixpoint read_more (acc : Z) (s : string) : Z :=
  match s with
  | EmptyString => acc
  | String c rest =>
      match digit_of c with
      | Some d => read_more (10 * acc + d) rest
      | None => acc
      end
  end.

Definition read_digits (s : string) : option Z :=
  match s with
  | EmptyString => None
  | String c _ =>
      match digit_of c with
      | Some _ => Some (read_more 0 s)
      | None => None
      end
  end.

Definition read_signed (s : string) : option Z :=
  match s with
  | String c rest =>
      if Ascii.eqb c "-" then Z.opp <$> read_digits rest
      else if Ascii.eqb c "+" then read_digits rest
      else read_digits s
  | EmptyString => None
  end.

(** White space as [parseInt] skips it (its ASCII part). *)
Definition is_white (c : ascii) : bool :=
  let n := nat_of_ascii c in
  (Nat.eqb n 32 || (Nat.leb 9 n && Nat.leb n 13))%bool.

Fixpoint skip_white (s : string) : string :=
  match s with
  | String c rest => if is_white c then skip_white rest else s
  | EmptyString => EmptyString
  end.

(** [parseInt(s, 10)], exact for integers of magnitude up to 2^53 (beyond,
    JavaScript returns the nearest double). *)
Definition parseInt10 (s : string) : number :=
  match read_signed (skip_white s) with
  | Some n => Num (inject_Z n)
  | None => NaN
  end.

Fixpoint decimal_digits (fuel : nat) (n : Z) (acc : string) : string :=
  match fuel with
  | O => acc
  | S fuel =>
      let acc' := String (JS.digit (n mod 10)) acc in
      if n <? 10 then acc' else decimal_digits fuel (n / 10) acc'
  end.

(** The decimal numeral of an integer. *)
Definition decimal (n : Z) : string :=
  if n <? 0
  then String "-" (decimal_digits (S (Z.to_nat (Z.log2 (- n)))) (- n) EmptyString)
  else decimal_digits (S (Z.to_nat (Z.log2 n))) n EmptyString.

(** *** The server *)

(** What Redis takes for an integer: the decimal numeral of a signed 64-bit
    value, in the form Redis itself writes. *)
Definition redis_integer (s : string) : option Z :=
  match match s with
        | String c rest =>
            if Ascii.eqb c "-" then Z.opp <$> read_digits rest else read_digits s
        | EmptyString => None
        end with
  | Some n =>
      if (String.eqb (decimal n) s && (- 2 ^ 63 <=? n) && (n <? 2 ^ 63))%bool
      then Some n else None
  | None => None
  end.

Definition not_an_integer : exn := Error "ERR value is not an integer or out of range".

(** [KEYS prefix*] *)
Definition keys_with_prefix (prefix : string) (db : gmap string string) : list string :=
  filter (fun key => String.prefix prefix key = true) (fst <$> map_to_list db).

Fixpoint drop_string (n : nat) (s : string) : string :=
  match n, s with
  | S n, String _ rest => drop_string n rest
  | _, _ => s
  end.

(** [s.replace(pattern, '')]: the first occurrence of [pattern] is removed. *)
Fixpoint replace_first (pattern s : string) : string :=
  if String.prefix pattern s then drop_string (String.length pattern) s
  else match s with
       | EmptyString => EmptyString
       | String c rest => String c (replace_first pattern rest)
       end.

(** *** The storage object *)

(** The fields of a [RedisStorage], the database behind its client, and how
    often [client.connect()] was called. *)
Record State := {
  connected : bool;
  connectionPromise : option (outcome unit);
  server : gmap string string;
  connects : nat;
}.

Definition set_server (f : gmap string string -> gmap string string) (c : State)
    : State :=
  {| connected := connected c; connectionPromise := connectionPromise c;
     server := f (server c); connects := connects c |}.

Definition prefixed (key : string) : string := "omnisearch:" +:+ key.

Section Client.

(** What the [n]-th call of [client.connect()] and a call of [client.quit()]
    answer.  Commands sent over an established connection are answered by
    the server. *)
Variable connect_reply : nat -> outcome unit.
Variable quit_reply : outcome unit.

Local Open Scope js_scope.

Definition client_get (key : string) : M State (option string) :=
  gets (fun c => server c !! key).

Definition client_incr (key : string) : M State Z :=
  fun c =>
    match server c !! key with
    | None => (Ok 1, set_server <[key := decimal 1]> c)
    | Some value =>
        match redis_integer value with
        | Some n =>
            if n <? 2 ^ 63 - 1
            then (Ok (n + 1), set_server <[key := decimal (n + 1)]> c)
            else (Throw not_an_integer, c)
        | None => (Throw not_an_integer, c)
        end
    end.

Definition client_keys (prefix : string) : M State (list string) :=
  gets (fun c => keys_with_prefix prefix (server c)).

Definition ensureConnected : M State unit :=
  fun c =>
    if connected c then (Ok tt, c)
    else
      let c1 :=
        match connectionPromise c with
        | Some _ => c
        | None =>
            let reply := connect_reply (connects c) in
            {| connected := match reply with Ok _ => true | Throw _ => false end;
               connectionPromise := Some reply;
               server := server c; connects := S (connects c) |}
        end in
      match connectionPromise c1 with
      | Some (Throw e) => (Throw e, c1)
      | _ => (Ok tt, c1)
      end.

(** [value ? parseInt(value, 10) : 0] *)
Definition counter_of (value : option string) : number :=
  match value with
  | None | Some EmptyString => Num 0
  | Some s => parseInt10 s
  end.

Definition get (key : string) : M State number :=
  ensureConnected ;;
  value <- client_get (prefixed key) ;;
  ret (counter_of value).

Definition increment (key : string) : M State Z :=
  ensureConnected ;;
  client_incr (prefixed key).

Fixpoint getAll_loop (keys : list string) (result : gmap string number)
    : M State (gmap string number) :=
  match keys with
  | [] => ret result
  | key :: keys =>
      value <- client_get key ;;
      let shortKey := replace_first "omnisearch:" key in
      getAll_loop keys (<[shortKey := counter_of value]> result)
  end.

Definition getAll : M State (gmap string number) :=
  ensureConnected ;;
  keys <- client_keys "omnisearch:" ;;
  getAll_loop keys ∅.

Definition close : M State unit :=
  fun c =>
    if connected c then
      match quit_reply with
      | Ok _ =>
          (Ok tt, {| connected := false; connectionPromise := None;
                     server := server c; connects := connects c |})
      | Throw e => (Throw e, c)
      end
    else (Ok tt, c).

End Client.

(** A storage object whose only connection attempt failed with [e]. *)
Definition broken (e : exn) (c : State) : State :=
  {| connected := false; connectionPromise := Some (Throw e);
     server := server c; connects := connects c |}.

(** The database holds the counters [counters] under prefixed keys, as the
    numerals Redis writes, and nothing else in the name space. *)
Definition represents (db : gmap string string) (counters : gmap string Z) : Prop :=
  forall key, db !! prefixed key = decimal <$> counters !! key.

(** Counters that JavaScript numbers hold exactly. *)
Definition safe (counters : gmap string Z) : Prop :=
  forall key n, counters !! key = Some n -> 0 <= n < 2 ^ 53.

(** [s] starts with a decimal digit. *)
Definition digit_first (s : string) : Prop :=
  match s with
  | String c _ => is_Some (digit_of c)
  | EmptyString => False
  end.

End RedisStorage.

(** ** Vocabulary of the properties *)

(** The counter a call of [provider] is booked on when the clock reads [now]. *)
Definition storage_key_at (limitConfig : LimitConfig) (p : string) (now : Z)
    : string :=
  match lc_type limitConfig with
  | monthly => p +:+ ":" +:+ JS.slice0 7 (JS.toISOString now)
  | paid => p +:+ ":paid"
  | lifetime => p +:+ ":lifetime"
  end.

(** [storage.increment(key)] on the counters. *)
Definition incremented (key : string) (counters : gmap string Z) : gmap string Z :=
  <[key := default 0 (counters !! key) + 1]> counters.

(** The circuit of [p] is open at time [now]: it has a record whose cooldown
    has not elapsed. *)
Definition circuit_open_at (circuit : gmap string CircuitState) (p : string)
    (now : Z) : bool :=
  match circuit !! p with
  | Some state => now <? cooldownUntil state
  | None => false
  end.

(** [p] has free quota left at time [now]. *)
Definition has_quota_at (table : list (string * LimitConfig))
    (counters : gmap string Z) (p : string) (now : Z) : bool :=
  match table_lookup table p with
  | Some limitConfig =>
      default 0 (counters !! storage_key_at limitConfig p now) <? lc_limit limitConfig
  | None => false
  end.

(** The last reading of the clock before a provider call. *)
Definition inv_time (w : World) (e : Invocation) : Z :=
  clock w (Nat.pred (inv_ticks e)).

(** The condition of the specification under which a provider may be called:
    registered, circuit not open, and quota left or called as paid fallback. *)
Definition eligible (w : World) (providers : gset string)
    (table : list (string * LimitConfig)) (e : Invocation) : Prop :=
  inv_provider e ∈ providers /\
  circuit_open_at (inv_circuit e) (inv_provider e) (inv_time w e) = false /\
  (has_quota_at table (inv_storage e) (inv_provider e) (inv_time w e) = true \/
   inv_via e = ViaPaidFallback).

(** Every provider call made by [route(options)] from router state [r] is
    [eligible]. *)
Definition attempted_only_if_eligible (w : World) (providers : gset string)
    (table : list (string * LimitConfig)) (options : RouteOptions) (r : Router)
    : Prop :=
  forall e, e ∈ drop (length (calls r)) (calls (snd (route w providers table options r))) ->
            eligible w providers table e.

(** [route(options)] from [r] ends with a failing call of the registered paid
    fallback. *)
Definition paid_fallback_failed (w : World) (providers : gset string)
    (table : list (string * LimitConfig)) (options : RouteOptions) (r : Router)
    : Prop :=
  paidProvider options ∈ providers /\
  exists earlier e err,
    calls (snd (route w providers table options r)) = calls r ++ earlier ++ [e] /\
    inv_via e = ViaPaidFallback /\
    search_outcome w (inv_provider e) (inv_params e) (length (calls r ++ earlier))
    = Throw err.

(** The reading of the specification: when the paid fallback fails as well,
    the call fails with the exhaustion error. *)
Definition paid_failure_is_exhaustion (w : World) (providers : gset string)
    (table : list (string * LimitConfig)) (options : RouteOptions) (r : Router)
    : Prop :=
  paid_fallback_failed w providers table options r ->
  fst (route w providers table options r) = Throw no_providers_available.

(** Successive readings of the clock do not go back. *)
Definition clock_monotone (w : World) : Prop :=
  forall i, clock w i <= clock w (S i).

(** The attempt [e], made as provider call number [n], failed: the provider
    threw, or it answered and the usage store rejected the booking. *)
Definition attempt_failed (w : World) (e : Invocation) (n : nat) : Prop :=
  match search_outcome w (inv_provider e) (inv_params e) n with
  | Throw _ => True
  | Ok _ => is_Some (storage_error w (inv_requests e))
  end.

(** The usage store serves every request made of it from router state [r]
    on. *)
Definition store_serves (w : World) (r : Router) : Prop :=
  forall n, (requests r <= n)%nat -> storage_error w n = None.

(** A provider call made by the loop over the stack: the provider is a
    registered stack member that had quota left, and a closed circuit, at the
    last reading of the clock before the call. *)
Definition stack_call (w : World) (providers : gset string)
    (table : list (string * LimitConfig)) (stack : list string) (e : Invocation)
    : Prop :=
  inv_via e = ViaStack /\
  inv_provider e ∈ providers /\
  inv_provider e ∈ stack /\
  has_quota_at table (inv_storage e) (inv_provider e) (inv_time w e) = true /\
  (clock_monotone w ->
   circuit_open_at (inv_circuit e) (inv_provider e) (inv_time w e) = false).

(** The router once [getStorageKey] has run for a provider with the entry
    [cfg]: the clock was read for a monthly provider. *)
Definition keyed (cfg : LimitConfig) (r : Router) : Router :=
  match lc_type cfg with monthly => tick r | _ => r end.

(** What one run of the loop over [stack] does: from [r] it ends in [r'] with
    outcome [out], having made the provider calls [new].  It throws only what
    the lookup in the table throws for a provider without an entry, and what
    the usage store throws when it is asked for a counter. *)
Definition loop_post (w : World) (providers : gset string)
    (table : list (string * LimitConfig)) (options : RouteOptions)
    (stack : list string) (r : Router) (out : outcome (option RouteResult))
    (r' : Router) (new : list Invocation) : Prop :=
  calls r' = calls r ++ new /\
  (ticks r <= ticks r')%nat /\
  (requests r <= requests r')%nat /\
  Forall (stack_call w providers table stack) new /\
  match out with
  | Ok (Some res) =>
      usedPaidTier res = false /\
      provider res ∈ providers /\
      provider res ∈ stack /\
      circuitState r' !! provider res = None /\
      (exists cfg,
          table_lookup table (provider res) = Some cfg /\
          storage r' =
            incremented
              (storage_key_at cfg (provider res) (clock w (Nat.pred (ticks r'))))
              (storage r)) /\
      (exists earlier e,
          new = earlier ++ [e] /\ inv_provider e = provider res /\
          search_outcome w (provider res) (stack_params options)
            (length (calls r ++ earlier)) = Ok (results res))
  | Ok None => storage r' = storage r
  | Throw err =>
      storage r' = storage r /\
      ((exists p, p ∈ stack /\ p ∈ providers /\ table_lookup table p = None) \/
       (requests r < requests r')%nat /\
       storage_error w (Nat.pred (requests r')) = Some err)
  end.

(** The stack [route] walks. *)
Definition stack_of (options : RouteOptions) : list string :=
  if preferGoogle options then googleStack else defaultStack.

(** Every registered member of [stack] has an entry in the table (what the
    type [ProviderName] promises). *)
Definition table_covers (providers : gset string)
    (table : list (string * LimitConfig)) (stack : list string) : Prop :=
  forall p, p ∈ stack -> p ∈ providers -> is_Some (table_lookup table p).

(** The report entry of a provider with limit [lc_limit cfg] and [used] calls. *)
Definition usage_entry (cfg : LimitConfig) (used : Z) : UsageEntry :=
  {| ue_used := used; ue_limit := lc_limit cfg;
     ue_remaining := Z.max 0 (lc_limit cfg - used) |}.

(** An entry of the report is what the table and the counters say. *)
Definition entry_of (table : list (string * LimitConfig)) (counters : gmap string Z)
    (now : Z) (kind : ResetType) (p : string) (e : UsageEntry) : Prop :=
  exists cfg,
    (p, cfg) ∈ table /\ lc_type cfg = kind /\
    ue_limit e = lc_limit cfg /\
    ue_used e = default 0 (counters !! storage_key_at cfg p now) /\
    ue_remaining e = Z.max 0 (ue_limit e - ue_used e).

Definition stats_ok (table : list (string * LimitConfig)) (counters : gmap string Z)
    (now : Z) (stats : BudgetStats) : Prop :=
  (forall p e, st_monthly stats !! p = Some e ->
               entry_of table counters now monthly p e) /\
  (forall p e, st_lifetime stats !! p = Some e ->
               entry_of table counters now lifetime p e).

(** The report has an entry for [p] in the section of its reset type. *)
Definition reported (stats : BudgetStats) (p : string) (cfg : LimitConfig) : Prop :=
  match lc_type cfg with
  | monthly => is_Some (st_monthly stats !! p)
  | lifetime => is_Some (st_lifetime stats !! p)
  | paid => True
  end.

(** The paid side of the report: entries of paid-only providers, overage
    counts and health of the others. *)
Definition paid_entry (cfg : LimitConfig) (used : Z) : PaidApiEntry :=
  {| pa_used := used; pa_costPerQuery := default 0%Q (cost_per_query cfg) |}.

Definition paid_side_ok (table : list (string * LimitConfig))
    (counters : gmap string Z) (stats : BudgetStats) : Prop :=
  (forall p e, st_paidApis stats !! p = Some e ->
     exists cfg, (p, cfg) ∈ table /\ lc_type cfg = paid /\
                 e = paid_entry cfg (default 0 (counters !! (p +:+ ":paid")))) /\
  (forall p n, st_paid stats !! p = Some n ->
     exists cfg, (p, cfg) ∈ table /\ lc_type cfg <> paid /\
                 n = default 0 (counters !! (p +:+ ":paid"))) /\
  (forall p h, st_health stats !! p = Some h ->
     exists cfg, (p, cfg) ∈ table /\ lc_type cfg <> paid).

Definition paid_side_reported (stats : BudgetStats) (p : string) (cfg : LimitConfig)
    : Prop :=
  match lc_type cfg with
  | paid => is_Some (st_paidApis stats !! p)
  | _ => is_Some (st_paid stats !! p) /\ is_Some (st_health stats !! p)
  end.

(** The result the reranker's entry [r] at (0-based) place [i] stands for. *)
Definition reranked (picked : SearchResult) (i : nat) (r : RerankItem) : QualityResult :=
  Reranked {| title := title picked; url := url picked; snippet := snippet picked;
              source_provider := source_provider picked +:+ "+reranked" |}
           (Z.of_nat i + 1) (ri_relevance_score r).

Definition index_in_range {A} (l : list A) (r : RerankItem) : Prop :=
  0 <= ri_index r < Z.of_nat (length l).

(** [q] is the source result [x], possibly relabelled by the reranker. *)
Definition drawn_from (q : QualityResult) (x : SearchResult) : Prop :=
  match q with
  | Unranked r => r = x
  | Reranked r _ _ =>
      r = {| title := title x; url := url x; snippet := snippet x;
             source_provider := source_provider x +:+ "+reranked" |}
  end.

(** What the sources answer when they are called one after the other, the
    first of them as provider call number [n0]. *)
Definition answers (w : World) (names : list string) (params : SearchParams)
    (n0 : nat) : list (outcome (list SearchResult)) :=
  imap (fun i name => search_outcome w name params (n0 + i)) names.

Definition has_results (answer : outcome (list SearchResult)) : Prop :=
  exists first more, answer = Ok (first :: more).

(** The call of source [name] as [quality_search] makes it from router [r]. *)
Definition source_call (r : Router) (params : SearchParams) (name : string)
    : Invocation :=
  {| inv_provider := name; inv_params := params; inv_via := ViaExplicit;
     inv_storage := storage r; inv_circuit := circuitState r;
     inv_ticks := ticks r; inv_requests := requests r |}.

#[global] Instance has_results_dec answer : Decision (has_results answer).
Proof.
  destruct answer as [[|first more]|e].
  - right. by intros (? & ? & ?).
  - left. by exists first, more.
  - right. by intros (? & ? & ?).
Defined.


(** [fl] rounds like IEEE double arithmetic does in the normal range: to
    within a relative error of 2^-53, and exactly on the half-integers up to
    2^52. *)
Definition rounds_like_double (fl : Q -> Q) : Prop :=
  (forall q, Qabs (fl q - q) <= Qabs q * (1 # 9007199254740992))%Q /\
  (forall m, Z.abs m <= 2 ^ 53 -> (fl (m # 2) == m # 2)%Q) /\
  (forall a b, a == b -> fl a == fl b)%Q.

(** A bar of ten cells, [filled] of them full. *)
Definition bar (filled : nat) : string :=
  "[" +:+ repeat_string "█" filled +:+ repeat_string "░" (10 - filled) +:+ "]".

(** ** Concrete configurations *)

Module Scenario.

(** A table to run the examples on: the one that
    docs/BUDGET_ROUTING_IMPLEMENTATION_PLAN.md proposes.  The table of the
    program itself ([config/env.ts]) may hold other entries; it is a
    parameter of the definitions and of every statement above. *)
Definition documented_limits : list (string * LimitConfig) :=
  [ ("brave", {| lc_limit := 2000; lc_type := monthly; cost_per_query := None |});
    ("tavily", {| lc_limit := 1000; lc_type := monthly; cost_per_query := None |});
    ("exa", {| lc_limit := 2000; lc_type := lifetime; cost_per_query := None |});
    ("jina_search", {| lc_limit := 1000; lc_type := lifetime; cost_per_query := None |});
    ("serper", {| lc_limit := 2500; lc_type := lifetime; cost_per_query := None |});
    ("youcom", {| lc_limit := 16000; lc_type := lifetime; cost_per_query := None |}) ].

(** 2 February 2026, 02:40:00 UTC. *)
Definition feb_2026 : Z := 1770000000000.

Definition hit (p : string) : SearchResult :=
  {| title := "A result"; url := "https://example.org/"; snippet := "...";
     source_provider := p |}.

Definition timeout_of (p : string) : exn :=
  ProviderError API_ERROR "The operation was aborted due to timeout" p.

(** The clock stands still and every provider answers. *)
Definition all_up : World :=
  {| clock := fun _ => feb_2026;
     search_outcome := fun p _ _ => Ok [hit p];
     storage_error := fun _ => None |}.

(** The clock stands still and every provider call times out. *)
Definition all_down : World :=
  {| clock := fun _ => feb_2026;
     search_outcome := fun p _ _ => Throw (timeout_of p);
     storage_error := fun _ => None |}.

(** The clock advances by one second per reading. *)
Definition ticking : World :=
  {| clock := fun i => feb_2026 + 1000 * Z.of_nat i;
     search_outcome := fun p _ _ => Ok [hit p];
     storage_error := fun _ => None |}.

Definition fresh : Router :=
  {| storage := ∅; circuitState := ∅; ticks := 0; calls := []; requests := 0 |}.

(** [jina_search] failed three times a second ago. *)
Definition jina_tripped : Router :=
  {| storage := ∅;
     circuitState :=
       {[ "jina_search" :=
            {| failures := 3; lastFailure := feb_2026 - 1000;
               cooldownUntil := feb_2026 - 1000 + CIRCUIT_BREAKER.cooldownMs |} ]};
     ticks := 0; calls := []; requests := 0 |}.

Definition plain_query : RouteOptions :=
  {| query := "rocq prover"; limit := None; preferGoogle := false;
     includeContent := false |}.

Definition content_query : RouteOptions :=
  {| query := "rocq prover"; limit := Some 5; preferGoogle := false;
     includeContent := true |}.


Definition quote : ascii := ascii_of_nat 34.

(** A reader for the documents [save] writes: one flat object whose values
    are non-negative integers.  Anything else is a [SyntaxError]. *)
Definition is_space (c : ascii) : bool :=
  match nat_of_ascii c with
  | 32%nat | 10%nat | 13%nat | 9%nat => true
  | _ => false
  end.

Fixpoint skip_space (s : string) : string :=
  match s with
  | String c rest => if is_space c then skip_space rest else s
  | EmptyString => s
  end.

(** The characters up to the closing quote, and what follows it. *)
Fixpoint read_key (s : string) : option (string * string) :=
  match s with
  | EmptyString => None
  | String c rest =>
      if Ascii.eqb c quote then Some (EmptyString, rest)
      else match read_key rest with
           | Some (k, rest') => Some (String c k, rest')
           | None => None
           end
  end.

Definition digit_value (c : ascii) : option Z :=
  let n := nat_of_ascii c in
  if (Nat.leb 48 n && Nat.leb n 57)%bool then Some (Z.of_nat n - 48) else None.

Fixpoint read_digits (acc : Z) (s : string) : Z * string :=
  match s with
  | String c rest =>
      match digit_value c with
      | Some d => read_digits (10 * acc + d) rest
      | None => (acc, s)
      end
  | EmptyString => (acc, s)
  end.

Definition unexpected : outcome (gmap string Z) :=
  Throw (SyntaxError "Unexpected token in JSON").

Fixpoint read_members (fuel : nat) (acc : gmap string Z) (s : string)
    : outcome (gmap string Z) :=
  match fuel with
  | O => unexpected
  | S fuel =>
      match skip_space s with
      | String q rest =>
          if Ascii.eqb q quote then
            match read_key rest with
            | Some (k, rest) =>
                match skip_space rest with
                | String colon rest =>
                    if Ascii.eqb colon ":" then
                      match skip_space rest with
                      | String d rest' =>
                          match digit_value d with
                          | Some _ =>
                              let '(v, rest) := read_digits 0 (String d rest') in
                              let acc := <[k := v]> acc in
                              match skip_space rest with
                              | String sep rest =>
                                  if Ascii.eqb sep "," then read_members fuel acc rest
                                  else if Ascii.eqb sep "}" then
                                    match skip_space rest with
                                    | EmptyString => Ok acc
                                    | _ => unexpected
                                    end
                                  else unexpected
                              | EmptyString => unexpected
                              end
                          | None => unexpected
                          end
                      | EmptyString => unexpected
                      end
                    else unexpected
                | EmptyString => unexpected
                end
            | None => unexpected
            end
          else unexpected
      | EmptyString => unexpected
      end
  end.

Definition parse_counters (s : string) : outcome (gmap string Z) :=
  match skip_space s with
  | String open rest =>
      if Ascii.eqb open "{" then
        match skip_space rest with
        | String close rest' =>
            if Ascii.eqb close "}" then
              match skip_space rest' with
              | EmptyString => Ok ∅
              | _ => unexpected
              end
            else read_members (String.length s) ∅ rest
        | EmptyString => unexpected
        end
      else unexpected
  | EmptyString => unexpected
  end.

(** A reader for the usage files of the examples: [null], or what
    [parse_counters] reads. *)
Definition parse_usage (s : string) : outcome FileStorage.document :=
  if String.eqb (skip_space s) "null" then Ok FileStorage.Null
  else match parse_counters s with
       | Ok data => Ok (FileStorage.Object (FileStorage.JNumber <$> data))
       | Throw e => Throw e
       end.

(** Only the key of [jina_search] is configured; all six keys are. *)
Definition only_jina : gset string := registered (String.eqb "jina_search").
Definition all_six : gset string := registered (fun _ => true).

(** A usage file cut off in the middle of a write, after the year of the
    first key. *)
Definition torn_file : string := "{" +:+ String quote "brave:2026".

Definition torn : FileStorage.Disk :=
  {| FileStorage.file := Some torn_file; FileStorage.saves := 0 |}.

(** A usage file that holds [null]. *)
Definition nulled : FileStorage.Disk :=
  {| FileStorage.file := Some "null"; FileStorage.saves := 0 |}.

(** [brave] has used up its 2000 calls of February 2026. *)
Definition brave_spent : Router :=
  {| storage := {[ "brave:2026-02" := 2000 ]}; circuitState := ∅;
     ticks := 0; calls := []; requests := 0 |}.

Definition brave_wins : RouteResult :=
  {| results := [hit "brave"]; provider := "brave"; usedPaidTier := false |}.

Definition ask (p : option string) : UnifiedWebSearchParams :=
  {| u_query := "rocq prover"; u_limit := None; u_provider := p;
     u_include_content := false |}.
End Scenario.

(** ** Further configurations *)

Module Cases.
Import Scenario.

(** The cooldown of [jina_search] ran out 100 seconds ago. *)
Definition jina_cooled : Router :=
  {| storage := ∅;
     circuitState :=
       {[ "jina_search" :=
            {| failures := 3; lastFailure := feb_2026 - 400000;
               cooldownUntil := feb_2026 - 100000 |} ]};
     ticks := 0; calls := []; requests := 0 |}.

(** The call of the head of the default stack from a fresh router. *)
Definition brave_first : Invocation :=
  {| inv_provider := "brave"; inv_params := stack_params plain_query;
     inv_via := ViaStack; inv_storage := ∅; inv_circuit := ∅; inv_ticks := 1;
     inv_requests := 1 |}.

(** The paid fallback called while its circuit is open. *)
Definition jina_fallback : Invocation :=
  {| inv_provider := "jina_search"; inv_params := stack_params plain_query;
     inv_via := ViaPaidFallback; inv_storage := ∅;
     inv_circuit := circuitState jina_tripped; inv_ticks := 1; inv_requests := 0 |}.

Definition google_query : UnifiedWebSearchParams :=
  {| u_query := "Google Scholar rocq"; u_limit := None; u_provider := None;
     u_include_content := false |}.

(** The documented table with one paid-only provider added. *)
Definition with_perplexity : list (string * LimitConfig) :=
  documented_limits ++
  [ ("perplexity",
     {| lc_limit := 0; lc_type := paid; cost_per_query := Some (5 # 1000) |}) ].

(** Four paid calls of [perplexity], two paid fallbacks of [jina_search]. *)
Definition paid_calls : Router :=
  {| storage := {[ "perplexity:paid" := 4; "jina_search:paid" := 2 ]};
     circuitState := ∅; ticks := 0; calls := []; requests := 0 |}.

(** [jina_search] has served 50 calls beyond its 1000 free ones. *)
Definition jina_overdrawn : Router :=
  {| storage := {[ "jina_search:lifetime" := 1050; "jina_search:paid" := 50 ]};
     circuitState := ∅; ticks := 0; calls := []; requests := 0 |}.

(** A serialization of the counters that reads back: a mark, then the
    counters' code in binary. *)
Fixpoint bits (p : positive) : string :=
  match p with
  | xH => EmptyString
  | xO p => String "0" (bits p)
  | xI p => String "1" (bits p)
  end.

Fixpoint unbits (s : string) : positive :=
  match s with
  | EmptyString => xH
  | String c rest => if Ascii.eqb c "1" then xI (unbits rest) else xO (unbits rest)
  end.

Definition write_counters (data : FileStorage.document) : string :=
  match data with
  | FileStorage.Null => "null"
  | FileStorage.Object properties => String "#" (bits (encode properties))
  end.

Definition read_counters (content : string) : outcome FileStorage.document :=
  match content with
  | String c rest =>
      if Ascii.eqb c "#" then
        match decode (unbits rest) with
        | Some properties => Ok (FileStorage.Object properties)
        | None => Throw (SyntaxError "Unexpected token")
        end
      else if String.eqb content "null" then Ok FileStorage.Null
      else Throw (SyntaxError "Unexpected token")
  | EmptyString => Throw (SyntaxError "Unexpected end of JSON input")
  end.

(** The disk takes every write; the disk is full from the second write on. *)
Definition writable (n : nat) : option exn := None.

Definition disk_full : exn := Error "ENOSPC: no space left on device, write".

Definition full_after_one (n : nat) : option exn :=
  if (n <? 1)%nat then None else Some disk_full.

(** The text V8 prints for a built-in function. *)
Definition native_code (name : string) : string :=
  "function " +:+ name +:+ "() { [native code] }".

(** The usage store is down; it is down for the second request only. *)
Definition store_down : exn := Error "The client is closed".

Definition unreachable_store : World :=
  {| clock := fun _ => feb_2026;
     search_outcome := fun p _ _ => Ok [hit p];
     storage_error := fun _ => Some store_down |}.

Definition second_request_fails : World :=
  {| clock := fun _ => feb_2026;
     search_outcome := fun p _ _ => Ok [hit p];
     storage_error := fun n => if (n =? 1)%nat then Some store_down else None |}.

(** Every provider finds two pages of its own. *)
Definition page (p name : string) : SearchResult :=
  {| title := name; url := "https://" +:+ p +:+ ".example/" +:+ name;
     snippet := "About " +:+ name; source_provider := p |}.

Definition library : World :=
  {| clock := fun _ => feb_2026;
     search_outcome := fun p _ _ => Ok [page p "Rocq"; page p "Stdpp"];
     storage_error := fun _ => None |}.

Definition quality_query : SearchParams :=
  {| sp_query := "rocq prover"; sp_limit := None; sp_include_content := false |}.

Definition quality_sources : list string := ["brave"; "exa"; "tavily"].

Definition idle : QualityState := {| qs_router := fresh; qs_reranks := [] |}.

(** The reranker prefers the fifth document to the first. *)
Definition prefers_tavily (request : RerankRequest) (n : nat)
    : outcome (option (list RerankItem)) :=
  Ok (Some [ {| ri_index := 4; ri_relevance_score := 9 # 10 |};
             {| ri_index := 0; ri_relevance_score := 1 # 2 |} ]).

Definition rethrown (error : exn) (provider operation : string) : exn :=
  ProviderError PROVIDER_ERROR ("Failed to " +:+ operation) provider.

(** A Redis server that refuses the connection, and a fresh storage object. *)
Definition refused : exn := Error "connect ECONNREFUSED 127.0.0.1:6379".

Definition never_up (attempt : nat) : outcome unit := Throw refused.

Definition unconnected : RedisStorage.State :=
  {| RedisStorage.connected := false; RedisStorage.connectionPromise := None;
     RedisStorage.server := ∅; RedisStorage.connects := 0 |}.

(** A connected storage object on a database that holds one counter of the
    router and a key of another application. *)
Definition shared_database : RedisStorage.State :=
  {| RedisStorage.connected := true;
     RedisStorage.connectionPromise := Some (Ok tt);
     RedisStorage.server := {[ "omnisearch:brave:2026-02" := "41"; "sessions" := "7" ]};
     RedisStorage.connects := 1 |}.

Definition exact (q : Q) : Q := q.

End Cases.

(** * Properties *)

(** ** The calendar and the ISO format *)

Example toISOString_epoch : JS.toISOString 0 = "1970-01-01T00:00:00.000Z".
Proof. vm_compute. reflexivity. Qed.

Example toISOString_2026 :
  JS.toISOString 1770000000123 = "2026-02-02T02:40:00.123Z".
Proof. vm_compute. reflexivity. Qed.

Example toISOString_leap_day :
  JS.toISOString 951782400000 = "2000-02-29T00:00:00.000Z".
Proof. vm_compute. reflexivity. Qed.

Example toISOString_before_epoch :
  JS.toISOString (-1) = "1969-12-31T23:59:59.999Z".
Proof. vm_compute. reflexivity. Qed.

Example toISOString_expanded_year :
  JS.toISOString 253402300800000 = "+010000-01-01T00:00:00.000Z".
Proof. vm_compute. reflexivity. Qed.

Ltac div_lia := Z.to_euclidean_division_equations; lia.

Lemma day_of_era days :
  let z := days + 719468 in
  0 <= z - z / 146097 * 146097 <= 146096.
Proof. cbv zeta. div_lia. Qed.

Lemma civil_month_range days :
  1 <= JS.civ_month (JS.civil_from_days days) <= 12.
Proof.
  unfold JS.civil_from_days. cbn [JS.civ_month].
  pose proof (day_of_era days) as Hdoe. cbv zeta in Hdoe.
  set (doe := days + 719468 - _) in *. clearbody doe.
  set (yoe := (doe - doe / 1460 + doe / 36524 - doe / 146096) / 365).
  set (doy := doe - (365 * yoe + yoe / 4 - yoe / 100)).
  assert (Hdoy : 0 <= doy <= 365) by (subst doy yoe; div_lia).
  clearbody doy.
  set (mp := (5 * doy + 2) / 153).
  assert (0 <= mp <= 11) by (subst mp; div_lia).
  destruct (Z.ltb_spec mp 10); lia.
Qed.

(** The year computed is the one ECMAScript defines: the year whose first day
    is the latest not after the given day. *)
Lemma civil_year_is_YearFromTime days :
  let y := JS.civ_year (JS.civil_from_days days) in
  JS.DayFromYear y <= days < JS.DayFromYear (y + 1).
Proof.
  unfold JS.civil_from_days, JS.DayFromYear. cbn [JS.civ_year JS.civ_month].
  pose proof (day_of_era days) as Hdoe. cbv zeta in Hdoe. cbv zeta.
  set (era := (days + 719468) / 146097) in *.
  set (doe := days + 719468 - _) in *.
  assert (Hz : days = era * 146097 + doe - 719468) by (subst doe; lia).
  clearbody doe era. subst days.
  set (yoe := (doe - doe / 1460 + doe / 36524 - doe / 146096) / 365).
  assert (Hyoe : 0 <= yoe <= 399) by (subst yoe; div_lia).
  set (doy := doe - (365 * yoe + yoe / 4 - yoe / 100)).
  assert (Hdoy : 0 <= doy <= 365) by (subst doy yoe; div_lia).
  assert (Hnext : yoe < 399 ->
                  doe < 365 * (yoe + 1) + (yoe + 1) / 4 - (yoe + 1) / 100)
    by (subst yoe; div_lia).
  assert (Hdoe' : doe = 365 * yoe + yoe / 4 - yoe / 100 + doy) by (subst doy; lia).
  clearbody doy. clearbody yoe. subst doe.
  set (mp := (5 * doy + 2) / 153).
  assert (Hmp : mp < 10 <-> doy < 306) by (subst mp; div_lia).
  assert (Hmp0 : 0 <= mp <= 11) by (subst mp; div_lia).
  clearbody mp.
  destruct (Z.ltb_spec mp 10).
  - replace (mp + 3 <=? 2) with false by (symmetry; apply Z.leb_gt; lia).
    assert (doy < 306) by lia. clear Hmp H Hmp0 mp. div_lia.
  - replace (mp - 9 <=? 2) with true by (symmetry; apply Z.leb_le; lia).
    assert (306 <= doy) by lia. clear Hmp H Hmp0 mp. div_lia.
Qed.

Lemma DayFromYear_step y :
  JS.DayFromYear (y + 1) = JS.DayFromYear y + 365 + JS.InLeapYear y.
Proof.
  unfold JS.DayFromYear, JS.InLeapYear, JS.DaysInYear.
  destruct (Z.eqb_spec (y mod 4) 0); cbn [negb];
  [destruct (Z.eqb_spec (y mod 100) 0); cbn [negb];
   [destruct (Z.eqb_spec (y mod 400) 0); cbn [negb]|]|]; cbn [Z.eqb Pos.eqb];
  Z.to_euclidean_division_equations; lia.
Qed.

(** The month computed is the one ECMAScript's table gives for the day within
    the year. *)
Lemma civil_month_is_MonthFromTime days :
  let c := JS.civil_from_days days in
  JS.civ_month c - 1 =
  JS.MonthFromDay (days - JS.DayFromYear (JS.civ_year c)) (JS.InLeapYear (JS.civ_year c)).
Proof.
  cbv zeta.
  unfold JS.civil_from_days. cbn [JS.civ_year JS.civ_month].
  pose proof (day_of_era days) as Hdoe. cbv zeta in Hdoe.
  set (era := (days + 719468) / 146097) in *.
  set (doe := days + 719468 - _) in *.
  assert (Hz : days = era * 146097 + doe - 719468) by (subst doe; lia).
  clearbody doe era. subst days.
  set (yoe := (doe - doe / 1460 + doe / 36524 - doe / 146096) / 365).
  assert (Hyoe : 0 <= yoe <= 399) by (subst yoe; div_lia).
  set (doy := doe - (365 * yoe + yoe / 4 - yoe / 100)).
  assert (Hdoy : 0 <= doy <= 365) by (subst doy yoe; div_lia).
  assert (Hnext : yoe < 399 ->
                  doe < 365 * (yoe + 1) + (yoe + 1) / 4 - (yoe + 1) / 100)
    by (subst yoe; div_lia).
  assert (Hdoe' : doe = 365 * yoe + yoe / 4 - yoe / 100 + doy) by (subst doy; lia).
  clearbody doy. clearbody yoe. subst doe.
  set (mp := (5 * doy + 2) / 153).
  assert (Hmp : 153 * mp <= 5 * doy + 2 < 153 * mp + 153) by (subst mp; div_lia).
  assert (Hmp0 : 0 <= mp <= 11) by lia.
  clearbody mp.
  set (y := yoe + era * 400) in *.
  set (march1 := era * 146097 + (365 * yoe + yoe / 4 - yoe / 100) - 719468).
  replace (era * 146097 + (365 * yoe + yoe / 4 - yoe / 100 + doy) - 719468)
    with (march1 + doy) by (subst march1; lia).
  assert (Hjan_next : JS.DayFromYear (y + 1) = march1 + 306).
  { subst march1 y. unfold JS.DayFromYear. div_lia. }
  destruct (Z.ltb_spec mp 10).
  - replace (mp + 3 <=? 2) with false by (symmetry; apply Z.leb_gt; lia).
    replace (y + 0) with y by lia.
    pose proof (DayFromYear_step y) as Hstep. rewrite Hjan_next in Hstep.
    set (leap := JS.InLeapYear y) in *.
    assert (Hleap : 0 <= leap <= 1).
    { subst leap. unfold JS.InLeapYear. destruct (Z.eqb _ _); lia. }
    clearbody leap.
    replace (march1 + doy - JS.DayFromYear y) with (doy + 59 + leap) by lia.
    unfold JS.MonthFromDay.
    repeat (match goal with |- context [?a <? ?b] => destruct (Z.ltb_spec a b) end);
      lia.
  - replace (mp - 9 <=? 2) with true by (symmetry; apply Z.leb_le; lia).
    rewrite Hjan_next.
    replace (march1 + doy - (march1 + 306)) with (doy - 306) by lia.
    assert (Hlen : doy <= 364 + JS.InLeapYear (y + 1)).
    { subst y. unfold JS.InLeapYear, JS.DaysInYear.
      destruct (Z.eqb_spec ((yoe + era * 400 + 1) mod 4) 0); cbn [negb];
      [destruct (Z.eqb_spec ((yoe + era * 400 + 1) mod 100) 0); cbn [negb];
       [destruct (Z.eqb_spec ((yoe + era * 400 + 1) mod 400) 0); cbn [negb]|]|];
      cbn [Z.eqb Pos.eqb]; clear Hjan_next march1; div_lia. }
    set (leap := JS.InLeapYear (y + 1)) in *. clearbody leap.
    unfold JS.MonthFromDay.
    repeat (match goal with |- context [?a <? ?b] => destruct (Z.ltb_spec a b) end);
      lia.
Qed.

Lemma MonthFromTime_range t : 0 <= JS.MonthFromTime t <= 11.
Proof.
  unfold JS.MonthFromTime. pose proof (civil_month_range (JS.Day t)). lia.
Qed.

Lemma digit_inj a b :
  0 <= a < 10 -> 0 <= b < 10 -> JS.digit a = JS.digit b -> a = b.
Proof.
  intros Ha Hb H. unfold JS.digit in H.
  apply (f_equal nat_of_ascii) in H.
  rewrite !nat_ascii_embedding in H by lia. lia.
Qed.

Lemma zpad4_inj a b :
  0 <= a <= 9999 -> 0 <= b <= 9999 -> JS.zpad 4 a = JS.zpad 4 b -> a = b.
Proof.
  intros Ha Hb H. cbn [JS.zpad] in H.
  change (10 ^ Z.of_nat 3) with 1000 in H. change (10 ^ Z.of_nat 2) with 100 in H.
  change (10 ^ Z.of_nat 1) with 10 in H. change (10 ^ Z.of_nat 0) with 1 in H.
  injection H as H3 H2 H1 H0.
  apply digit_inj in H3, H2, H1, H0; try (apply Z.mod_pos_bound; lia).
  div_lia.
Qed.

Lemma zpad2_inj a b :
  0 <= a <= 99 -> 0 <= b <= 99 -> JS.zpad 2 a = JS.zpad 2 b -> a = b.
Proof.
  intros Ha Hb H. cbn [JS.zpad] in H.
  change (10 ^ Z.of_nat 1) with 10 in H. change (10 ^ Z.of_nat 0) with 1 in H.
  injection H as H1 H0.
  apply digit_inj in H1, H0; try (apply Z.mod_pos_bound; lia).
  div_lia.
Qed.

Lemma string_app_inv_head (p a b : string) : p +:+ a = p +:+ b -> a = b.
Proof. induction p as [|c p IH]; cbn; [done|]. intros [= H]. auto. Qed.

Lemma string_app_inj_length (s1 s2 t1 t2 : string) :
  String.length s1 = String.length s2 ->
  s1 +:+ t1 = s2 +:+ t2 -> s1 = s2 /\ t1 = t2.
Proof.
  revert s2. induction s1 as [|c s1 IH]; intros [|c' s2] Hlen; cbn in *;
    try discriminate; [done|].
  intros [= -> H]. destruct (IH s2) as [-> ->]; [lia|done|done].
Qed.

Lemma zpad_length width n : String.length (JS.zpad width n) = width.
Proof. induction width as [|k IH]; cbn [JS.zpad String.length]; congruence. Qed.

(** With a four-digit year, the first seven characters are [YYYY-MM]. *)
Lemma iso_month_four_digit t :
  0 <= JS.YearFromTime t <= 9999 ->
  JS.slice0 7 (JS.toISOString t) =
    JS.zpad 4 (JS.YearFromTime t) +:+ "-" +:+ JS.zpad 2 (JS.MonthFromTime t + 1).
Proof.
  intros Hy. unfold JS.slice0, JS.toISOString, JS.year_string.
  replace ((0 <=? JS.YearFromTime t) && (JS.YearFromTime t <=? 9999)) with true
    by (symmetry; apply andb_true_intro; split; apply Z.leb_le; lia).
  cbn [JS.zpad String.append String.substring]. reflexivity.
Qed.

Lemma iso_month_inj t t' :
  0 <= JS.YearFromTime t <= 9999 -> 0 <= JS.YearFromTime t' <= 9999 ->
  JS.slice0 7 (JS.toISOString t) = JS.slice0 7 (JS.toISOString t') ->
  JS.YearFromTime t = JS.YearFromTime t' /\ JS.MonthFromTime t = JS.MonthFromTime t'.
Proof.
  intros Hy Hy' H. rewrite !iso_month_four_digit in H by done.
  pose proof (MonthFromTime_range t). pose proof (MonthFromTime_range t').
  assert (JS.zpad 4 (JS.YearFromTime t) = JS.zpad 4 (JS.YearFromTime t') /\
          JS.zpad 2 (JS.MonthFromTime t + 1) = JS.zpad 2 (JS.MonthFromTime t' + 1))
    as [H4 H2].
  { apply string_app_inj_length in H as [H4 H2]; [|by rewrite !zpad_length].
    split; [done|]. by apply (string_app_inv_head "-"). }
  apply zpad4_inj in H4; [|lia..]. apply zpad2_inj in H2; [|lia..]. lia.
Qed.

(** ** The circuit breaker *)

Lemma bind_run {S A B} (m : M S A) (k : A -> M S B) (s : S) :
  bind m k s = match m s with
               | (Ok a, s') => k a s'
               | (Throw e, s') => (Throw e, s')
               end.
Proof. reflexivity. Qed.

Section CircuitBreaker.
Variable w : World.

Lemma isCircuitOpen_no_record p r :
  circuitState r !! p = None -> isCircuitOpen w p r = (Ok false, r).
Proof. intros H. unfold isCircuitOpen, bind, gets, ret. by rewrite H. Qed.

Lemma isCircuitOpen_run p r state :
  circuitState r !! p = Some state ->
  isCircuitOpen w p r =
    if clock w (ticks r) <? cooldownUntil state then (Ok true, tick r)
    else (Ok false,
          if (CIRCUIT_BREAKER.maxFailures <=? failures state)%nat
          then set_circuitState (delete p) (tick r) else tick r).
Proof.
  intros H. unfold isCircuitOpen, bind, gets, ret, Date_now, modify.
  rewrite H. destruct (Z.ltb _ _); [done|].
  by destruct (Nat.leb _ _).
Qed.

(** What the check says is [circuit_open_at] the time it reads. *)
Lemma isCircuitOpen_result p r :
  fst (isCircuitOpen w p r) =
  Ok (circuit_open_at (circuitState r) p (clock w (ticks r))).
Proof.
  unfold circuit_open_at.
  destruct (circuitState r !! p) as [state|] eqn:H.
  - rewrite (isCircuitOpen_run _ _ _ H). by destruct (Z.ltb _ _).
  - by rewrite (isCircuitOpen_no_record _ _ H).
Qed.

(** C5: for a provider with a circuit record, [isCircuitOpen] answers true
    exactly while [cooldownUntil] lies after the clock reading; once the
    cooldown has elapsed and the failure count is at least 3 the record is
    deleted from the map and the answer is false.  (A record below the
    threshold is kept.) *)
Theorem isCircuitOpen_cooldown p r state :
  circuitState r !! p = Some state ->
  let now := clock w (ticks r) in
  (fst (isCircuitOpen w p r) = Ok true <-> now < cooldownUntil state) /\
  (fst (isCircuitOpen w p r) = Ok false <-> cooldownUntil state <= now) /\
  (now < cooldownUntil state ->
     circuitState (snd (isCircuitOpen w p r)) = circuitState r) /\
  (cooldownUntil state <= now -> (3 <= failures state)%nat ->
     circuitState (snd (isCircuitOpen w p r)) = delete p (circuitState r) /\
     circuitState (snd (isCircuitOpen w p r)) !! p = None) /\
  (cooldownUntil state <= now -> (failures state < 3)%nat ->
     circuitState (snd (isCircuitOpen w p r)) = circuitState r).
Proof.
  intros H now. rewrite (isCircuitOpen_run _ _ _ H). fold now.
  unfold CIRCUIT_BREAKER.maxFailures.
  destruct (Z.ltb_spec now (cooldownUntil state)) as [Hlt|Hge];
    destruct (Nat.leb_spec 3 (failures state)) as [Hf|Hf]; cbn [fst snd];
    repeat split; intros; try done; try lia.
  cbn. apply lookup_delete_eq.
Qed.

Lemma recordFailure_run p r :
  let state := default {| failures := 0; lastFailure := 0; cooldownUntil := 0 |}
                       (circuitState r !! p) in
  recordFailure w p r =
    if (CIRCUIT_BREAKER.maxFailures <=? S (failures state))%nat then
      (Ok tt, set_circuitState
                <[p := {| failures := S (failures state);
                          lastFailure := clock w (ticks r);
                          cooldownUntil := clock w (S (ticks r))
                                           + CIRCUIT_BREAKER.cooldownMs |}]>
                (tick (tick r)))
    else
      (Ok tt, set_circuitState
                <[p := {| failures := S (failures state);
                          lastFailure := clock w (ticks r);
                          cooldownUntil := cooldownUntil state |}]>
                (tick r)).
Proof.
  intros state. unfold recordFailure, bind, gets, ret, Date_now, modify.
  fold state. by destruct (Nat.leb _ _).
Qed.

Lemma recordFailure_ok p r : fst (recordFailure w p r) = Ok tt.
Proof. rewrite recordFailure_run. cbv zeta. by destruct (Nat.leb _ _). Qed.

(** One more failure: the count goes up by one, and from the threshold on
    the cooldown runs from the last clock reading. *)
Lemma recordFailure_counts p r :
  exists state,
    circuitState (snd (recordFailure w p r)) !! p = Some state /\
    failures state = S (from_option failures 0%nat (circuitState r !! p)) /\
    ((3 <= failures state)%nat ->
       cooldownUntil state =
         clock w (Nat.pred (ticks (snd (recordFailure w p r))))
         + CIRCUIT_BREAKER.cooldownMs).
Proof.
  rewrite recordFailure_run. cbv zeta.
  set (state := default _ _).
  assert (Hf : failures state = from_option failures 0%nat (circuitState r !! p)).
  { subst state. by destruct (circuitState r !! p). }
  unfold CIRCUIT_BREAKER.maxFailures.
  destruct (Nat.leb_spec 3 (S (failures state))); cbn;
    rewrite lookup_insert_eq; eexists; (split; [done|]); cbn; split;
    try lia; done.
Qed.

Lemma recordFailure_frame p r :
  storage (snd (recordFailure w p r)) = storage r /\
  calls (snd (recordFailure w p r)) = calls r /\
  (ticks r <= ticks (snd (recordFailure w p r)))%nat.
Proof.
  rewrite recordFailure_run. cbv zeta.
  destruct (Nat.leb _ _); cbn; repeat split; lia.
Qed.

(** Below the threshold the circuit stays closed: after two failures of a
    provider without a record, a check at a time after the epoch is false. *)
Lemma two_failures_stay_closed p r :
  circuitState r !! p = None ->
  let r2 := snd ((recordFailure w p ;; recordFailure w p)%js r) in
  0 <= clock w (ticks r2) ->
  fst (isCircuitOpen w p r2) = Ok false.
Proof.
  intros Hnone. unfold bind.
  rewrite (recordFailure_run p r). cbv zeta. rewrite Hnone.
  cbn [default failures cooldownUntil Nat.leb CIRCUIT_BREAKER.maxFailures].
  set (r1 := set_circuitState _ (tick r)).
  assert (H1 : circuitState r1 !! p =
               Some {| failures := 1; lastFailure := clock w (ticks r);
                       cooldownUntil := 0 |})
    by (subst r1; cbn; apply lookup_insert_eq).
  rewrite (recordFailure_run p r1). cbv zeta. rewrite H1.
  cbn [default from_option id failures cooldownUntil Nat.leb
       CIRCUIT_BREAKER.maxFailures snd].
  intros Hnow. rewrite isCircuitOpen_result. f_equal.
  unfold circuit_open_at. cbn [circuitState set_circuitState].
  rewrite lookup_insert_eq. cbn [cooldownUntil]. apply Z.ltb_ge. done.
Qed.

(** C4: after three recorded failures in a row, [isCircuitOpen] is true for
    a check made within the cooldown of five minutes that the third failure
    started; and one [recordSuccess], from any state and whatever the clock
    reads, deletes the provider's record: no failures are left and
    [isCircuitOpen] is false. *)
Theorem three_failures_open_one_success_resets p r :
  let r3 :=
    snd ((recordFailure w p ;; recordFailure w p ;; recordFailure w p)%js r) in
  (exists state,
      circuitState r3 !! p = Some state /\
      failures state = (from_option failures 0 (circuitState r !! p) + 3)%nat /\
      cooldownUntil state =
        clock w (Nat.pred (ticks r3)) + CIRCUIT_BREAKER.cooldownMs) /\
  (clock w (ticks r3) < clock w (Nat.pred (ticks r3)) + 5 * 60 * 1000 ->
     fst (isCircuitOpen w p r3) = Ok true) /\
  (forall r0,
      let r' := snd (recordSuccess p r0) in
      circuitState r' !! p = None /\
      fst (isCircuitOpen w p r') = Ok false /\
      fst (getHealthStatus w p r') =
        Ok {| h_status := healthy; h_failures := 0; h_cooldownUntil := None |}).
Proof.
  intros r3.
  assert (Hst : exists state,
      circuitState r3 !! p = Some state /\
      failures state = (from_option failures 0 (circuitState r !! p) + 3)%nat /\
      cooldownUntil state =
        clock w (Nat.pred (ticks r3)) + CIRCUIT_BREAKER.cooldownMs).
  { subst r3. unfold bind.
    pose proof (recordFailure_ok p r) as Hok1.
    destruct (recordFailure_counts p r) as (s1 & Hs1 & Hf1 & _).
    destruct (recordFailure w p r) as [[[]|e] r1]; [|done]. cbn [snd] in *.
    pose proof (recordFailure_ok p r1) as Hok2.
    destruct (recordFailure_counts p r1) as (s2 & Hs2 & Hf2 & _).
    rewrite Hs1 in Hf2. cbn [from_option] in Hf2.
    destruct (recordFailure w p r1) as [[[]|e] r2]; [|done]. cbn [snd] in *.
    destruct (recordFailure_counts p r2) as (s3 & Hs3 & Hf3 & Hc3).
    rewrite Hs2 in Hf3. cbn [from_option] in Hf3.
    exists s3. split; [done|]. split; [lia|]. apply Hc3. lia. }
  split; [done|]. split.
  - intros Hnow. destruct Hst as (state & Hs & _ & Hc).
    rewrite isCircuitOpen_result. unfold circuit_open_at. rewrite Hs.
    f_equal. apply Z.ltb_lt. rewrite Hc. unfold CIRCUIT_BREAKER.cooldownMs. lia.
  - intros r0 r'. subst r'. unfold recordSuccess, modify. cbn [snd].
    assert (Hnone : circuitState (set_circuitState (delete p) r0) !! p = None)
      by apply lookup_delete_eq.
    split; [done|]. split.
    + by rewrite (isCircuitOpen_no_record _ _ Hnone).
    + unfold getHealthStatus, bind, gets, ret. by rewrite Hnone.
Qed.

End CircuitBreaker.

(** ** Running the router *)

Section Route.
Variable w : World.
Variable providers : gset string.
Variable PROVIDER_LIMITS : list (string * LimitConfig).

Local Abbreviation stack_call := (stack_call w providers PROVIDER_LIMITS).
Local Abbreviation loop_post := (loop_post w providers PROVIDER_LIMITS).

Lemma getStorageKey_run p cfg r :
  table_lookup PROVIDER_LIMITS p = Some cfg ->
  getStorageKey w PROVIDER_LIMITS p r =
    (Ok (storage_key_at cfg p (clock w (ticks r))),
     match lc_type cfg with monthly => tick r | _ => r end).
Proof.
  intros H. unfold getStorageKey, limit_config, storage_key_at, bind, ret, Date_now.
  rewrite H. by destruct (lc_type cfg).
Qed.

Lemma getStorageKey_unknown p r :
  table_lookup PROVIDER_LIMITS p = None ->
  exists e, getStorageKey w PROVIDER_LIMITS p r = (Throw e, r).
Proof.
  intros H. unfold getStorageKey, limit_config, bind, throw. rewrite H. eauto.
Qed.

Lemma storage_key_at_timeless cfg p t t' :
  lc_type cfg <> monthly -> storage_key_at cfg p t = storage_key_at cfg p t'.
Proof. unfold storage_key_at. by destruct (lc_type cfg). Qed.

Lemma has_quota_at_timeless cfg counters p t t' :
  table_lookup PROVIDER_LIMITS p = Some cfg -> lc_type cfg <> monthly ->
  has_quota_at PROVIDER_LIMITS counters p t = has_quota_at PROVIDER_LIMITS counters p t'.
Proof.
  intros H Hm. unfold has_quota_at. rewrite H.
  by rewrite (storage_key_at_timeless cfg p t t').
Qed.

Lemma keyed_frame cfg r :
  storage (keyed cfg r) = storage r /\ calls (keyed cfg r) = calls r /\
  circuitState (keyed cfg r) = circuitState r /\
  requests (keyed cfg r) = requests r /\
  (ticks r <= ticks (keyed cfg r) <= S (ticks r))%nat /\
  (lc_type cfg = monthly -> ticks (keyed cfg r) = S (ticks r)).
Proof. unfold keyed. destruct (lc_type cfg); cbn; repeat split; try lia; done. Qed.

(** [hasQuota] asks the store once: it answers with the counter, or rejects
    the request. *)
Lemma hasQuota_run p cfg r :
  table_lookup PROVIDER_LIMITS p = Some cfg ->
  hasQuota w PROVIDER_LIMITS p r =
    match storage_error w (requests r) with
    | Some error => (Throw error, asked (keyed cfg r))
    | None =>
        (Ok (has_quota_at PROVIDER_LIMITS (storage r) p (clock w (ticks r))),
         asked (keyed cfg r))
    end.
Proof.
  intros H. unfold hasQuota. rewrite bind_run, (getStorageKey_run _ _ _ H).
  fold (keyed cfg r). rewrite bind_run. unfold storage_get.
  destruct (keyed_frame cfg r) as (Hs & _ & _ & Hq & _). rewrite Hq, Hs.
  destruct (storage_error w (requests r)); [done|].
  rewrite bind_run. unfold limit_config, has_quota_at, ret. by rewrite H.
Qed.

Lemma hasQuota_unknown p r :
  table_lookup PROVIDER_LIMITS p = None ->
  exists e, hasQuota w PROVIDER_LIMITS p r = (Throw e, r).
Proof.
  intros H. unfold hasQuota, bind.
  destruct (getStorageKey_unknown p r H) as [e ->]. eauto.
Qed.

(** [recordUsage] asks the store once, or twice for a paid call; a request
    that is rejected ends it, with what was booked before left booked. *)
Lemma recordUsage_run p cfg is_paid r :
  table_lookup PROVIDER_LIMITS p = Some cfg ->
  recordUsage w PROVIDER_LIMITS p is_paid r =
    let key := storage_key_at cfg p (clock w (ticks r)) in
    match storage_error w (requests r) with
    | Some error => (Throw error, asked (keyed cfg r))
    | None =>
        let r1 := set_storage (incremented key) (asked (keyed cfg r)) in
        if is_paid then
          match storage_error w (S (requests r)) with
          | Some error => (Throw error, asked r1)
          | None => (Ok tt, set_storage (incremented (p +:+ ":paid")) (asked r1))
          end
        else (Ok tt, r1)
    end.
Proof.
  intros H. unfold recordUsage. rewrite bind_run, (getStorageKey_run _ _ _ H).
  fold (keyed cfg r). rewrite bind_run. unfold storage_increment at 1.
  destruct (keyed_frame cfg r) as (Hs & _ & _ & Hq & _). rewrite Hq.
  destruct (storage_error w (requests r)); [done|]. cbv zeta.
  destruct is_paid; [|done].
  rewrite bind_run. unfold storage_increment.
  cbn [requests set_storage asked]. rewrite Hq.
  by destruct (storage_error w (S (requests r))).
Qed.

(** One turn of the loop, case by case. *)

Lemma route_loop_unregistered options p rest r :
  p ∉ providers ->
  route_loop w providers PROVIDER_LIMITS options (p :: rest) r =
  route_loop w providers PROVIDER_LIMITS options rest r.
Proof. intros H. cbn [route_loop]. by rewrite decide_False. Qed.

Lemma route_loop_open options p rest r r1 :
  p ∈ providers ->
  isCircuitOpen w p r = (Ok true, r1) ->
  route_loop w providers PROVIDER_LIMITS options (p :: rest) r =
  route_loop w providers PROVIDER_LIMITS options rest r1.
Proof.
  intros H Ho. cbn [route_loop]. rewrite decide_True by done.
  unfold bind at 1. by rewrite Ho.
Qed.

Lemma route_loop_no_quota options p rest r r1 r2 :
  p ∈ providers ->
  isCircuitOpen w p r = (Ok false, r1) ->
  hasQuota w PROVIDER_LIMITS p r1 = (Ok false, r2) ->
  route_loop w providers PROVIDER_LIMITS options (p :: rest) r =
  route_loop w providers PROVIDER_LIMITS options rest r2.
Proof.
  intros H Ho Hq. cbn [route_loop]. rewrite decide_True by done.
  unfold bind at 1. rewrite Ho. unfold bind at 1. by rewrite Hq.
Qed.

Lemma route_loop_quota_throws options p rest r r1 r2 e :
  p ∈ providers ->
  isCircuitOpen w p r = (Ok false, r1) ->
  hasQuota w PROVIDER_LIMITS p r1 = (Throw e, r2) ->
  route_loop w providers PROVIDER_LIMITS options (p :: rest) r = (Throw e, r2).
Proof.
  intros H Ho Hq. cbn [route_loop]. rewrite decide_True by done.
  unfold bind at 1. rewrite Ho. unfold bind at 1. by rewrite Hq.
Qed.

(** The turn of a registered provider with a closed circuit and quota left:
    its call is made; when the call returns and is booked, the loop ends,
    and when the call or its booking throws, the failure is recorded and the
    loop goes on. *)
Lemma route_loop_turn options p rest r r1 r2 :
  p ∈ providers ->
  isCircuitOpen w p r = (Ok false, r1) ->
  hasQuota w PROVIDER_LIMITS p r1 = (Ok true, r2) ->
  route_loop w providers PROVIDER_LIMITS options (p :: rest) r =
    let r3 := log_call p (stack_params options) ViaStack r2 in
    match search_outcome w p (stack_params options) (length (calls r2)) with
    | Ok found =>
        match recordUsage w PROVIDER_LIMITS p false r3 with
        | (Ok _, r4) =>
            (Ok (Some {| results := found; provider := p; usedPaidTier := false |}),
             set_circuitState (delete p) r4)
        | (Throw _, r4) =>
            route_loop w providers PROVIDER_LIMITS options rest
              (snd (recordFailure w p r4))
        end
    | Throw _ =>
        route_loop w providers PROVIDER_LIMITS options rest
          (snd (recordFailure w p r3))
    end.
Proof.
  intros H Ho Hq. cbn [route_loop]. rewrite decide_True by done.
  rewrite bind_run, Ho. rewrite bind_run, Hq. cbv zeta.
  rewrite bind_run. unfold try_catch. rewrite bind_run.
  unfold provider_search.
  destruct (search_outcome w p (stack_params options) (length (calls r2)))
    as [found|err].
  - rewrite bind_run.
    destruct (recordUsage w PROVIDER_LIMITS p false _) as [[[]|err] r4].
    + reflexivity.
    + rewrite bind_run.
      pose proof (recordFailure_ok w p r4) as Hok.
      destruct (recordFailure w p r4) as [[[]|e'] r5]; cbn [snd fst] in *; done.
  - rewrite bind_run.
    pose proof (recordFailure_ok w p (log_call p (stack_params options) ViaStack r2))
      as Hok.
    destruct (recordFailure w p _) as [[[]|e'] r5]; cbn [snd fst] in *; done.
Qed.

Lemma isCircuitOpen_frame p r :
  exists b r1,
    isCircuitOpen w p r = (Ok b, r1) /\
    storage r1 = storage r /\ calls r1 = calls r /\
    (ticks r <= ticks r1 <= S (ticks r))%nat /\
    (b = false -> forall state, circuitState r1 !! p = Some state ->
       cooldownUntil state <= clock w (ticks r) /\ ticks r1 = S (ticks r)).
Proof.
  destruct (circuitState r !! p) as [state|] eqn:H.
  - rewrite (isCircuitOpen_run _ _ _ _ H).
    destruct (Z.ltb_spec (clock w (ticks r)) (cooldownUntil state)).
    + eexists _, _. split; [done|]. cbn. repeat split; try lia; done.
    + eexists _, _. split; [done|].
      destruct (Nat.leb _ _); cbn; repeat split; try lia.
      all: match goal with
           | Hd : delete _ _ !! _ = Some _ |- _ =>
               rewrite lookup_delete_eq in Hd; done
           | Hs : circuitState _ !! _ = Some ?s |- cooldownUntil ?s <= _ =>
               rewrite H in Hs; injection Hs as <-; lia
           end.
  - rewrite (isCircuitOpen_no_record _ _ _ H).
    eexists _, _. split; [done|]. repeat split; try lia.
    all: intros; congruence.
Qed.

(** What a booking leaves behind, both when the store takes it and when the
    store rejects it. *)
Lemma recordUsage_post p cfg is_paid r :
  table_lookup PROVIDER_LIMITS p = Some cfg ->
  let r' := snd (recordUsage w PROVIDER_LIMITS p is_paid r) in
  let key := storage_key_at cfg p (clock w (Nat.pred (ticks r'))) in
  calls r' = calls r /\ circuitState r' = circuitState r /\
  (ticks r <= ticks r')%nat /\ (requests r < requests r')%nat /\
  match fst (recordUsage w PROVIDER_LIMITS p is_paid r) with
  | Ok _ =>
      storage r' =
        (if is_paid then incremented (p +:+ ":paid") (incremented key (storage r))
         else incremented key (storage r)) /\
      storage_error w (requests r) = None /\
      (is_paid = true -> storage_error w (S (requests r)) = None)
  | Throw error =>
      storage_error w (Nat.pred (requests r')) = Some error /\
      (storage r' = storage r /\ storage_error w (requests r) = Some error \/
       is_paid = true /\ storage r' = incremented key (storage r) /\
       storage_error w (requests r) = None /\
       storage_error w (S (requests r)) = Some error)
  end.
Proof.
  intros Hcfg. rewrite (recordUsage_run _ _ _ _ Hcfg). cbv zeta.
  assert (Hkey : forall r0, ticks r0 = ticks (keyed cfg r) ->
            storage_key_at cfg p (clock w (Nat.pred (ticks r0)))
            = storage_key_at cfg p (clock w (ticks r))).
  { intros r0 ->. destruct (keyed_frame cfg r) as (_ & _ & _ & _ & _ & Hm).
    destruct (decide (lc_type cfg = monthly)) as [Hty|Hty].
    - by rewrite (Hm Hty).
    - by apply storage_key_at_timeless. }
  destruct (keyed_frame cfg r) as (Hs & Hc & Hcs & Hq & Ht & _).
  destruct (storage_error w (requests r)) as [error|] eqn:H1.
  { cbn [fst snd calls circuitState ticks requests storage asked].
    rewrite Hs, Hc, Hcs, Hq. cbn [Nat.pred]. repeat split; try lia; auto. }
  destruct is_paid.
  - destruct (storage_error w (S (requests r))) as [error|] eqn:H2;
      cbn [fst snd calls circuitState ticks requests storage asked set_storage];
      rewrite ?Hs, ?Hc, ?Hcs, ?Hq, Hkey by done; cbn [Nat.pred];
      repeat split; try lia; auto.
  - cbn [fst snd calls circuitState ticks requests storage asked set_storage].
    rewrite ?Hs, ?Hc, ?Hcs, ?Hq, Hkey by done. repeat split; try lia; auto.
Qed.

Lemma isCircuitOpen_requests p r : requests (snd (isCircuitOpen w p r)) = requests r.
Proof.
  destruct (circuitState r !! p) as [state|] eqn:H.
  - rewrite (isCircuitOpen_run _ _ _ _ H).
    destruct (Z.ltb _ _); [done|]. by destruct (Nat.leb _ _).
  - by rewrite (isCircuitOpen_no_record _ _ _ H).
Qed.

Lemma recordFailure_requests p r : requests (snd (recordFailure w p r)) = requests r.
Proof. rewrite recordFailure_run. cbv zeta. by destruct (Nat.leb _ _). Qed.

Lemma route_loop_spec options stack r :
  exists out r' new,
    route_loop w providers PROVIDER_LIMITS options stack r = (out, r') /\
    loop_post options stack r out r' new.
Proof.
  revert r. induction stack as [|p rest IH]; intros r.
  { exists (Ok None), r, []. split; [done|]. unfold loop_post.
    rewrite app_nil_r. repeat split; auto. }
  assert (Hweaken : forall r0 out r' new,
            loop_post options rest r0 out r' new ->
            storage r0 = storage r -> (ticks r <= ticks r0)%nat ->
            (requests r <= requests r0)%nat ->
            forall before, calls r0 = calls r ++ before ->
            Forall (stack_call (p :: rest)) before ->
            loop_post options (p :: rest) r out r' (before ++ new)).
  { intros r0 out r' new (Hc & Ht & Hrq & Hall & Hres) Hst Htk Hrq0 before Hb Hbef.
    unfold loop_post. rewrite Hc, Hb, <- app_assoc. split; [done|].
    split; [lia|]. split; [lia|]. split.
    { apply Forall_app. split; [done|].
      eapply Forall_impl; [exact Hall|].
      intros e (?&?&?&?&?). repeat split; auto. by right. }
    destruct out as [[res|]|err].
    - destruct Hres as (Hp & Hreg & Hin & Hcirc & (cfg & Hcfg & Hsto)
                        & (earlier & e & -> & He & Hs)).
      repeat split; auto.
      + by right.
      + exists cfg. split; [done|]. by rewrite <- Hst.
      + exists (before ++ earlier), e. rewrite <- !app_assoc. split; [done|].
        split; [done|]. rewrite Hb, <- app_assoc in Hs. by rewrite !app_assoc in *.
    - congruence.
    - destruct Hres as (Hsto & Hwhy). split; [congruence|].
      destruct Hwhy as [(q & Hq & Hqreg & Hqnone)|[Hlt Herr]].
      + left. exists q. split; [by right|done].
      + right. split; [lia|done]. }
  destruct (decide (p ∈ providers)) as [Hreg|Hreg].
  2: { rewrite route_loop_unregistered by done.
       destruct (IH r) as (out & r' & new & Hrun & Hpost).
       exists out, r', new. split; [done|].
       apply (Hweaken r out r' new Hpost eq_refl (le_n _) (le_n _) []);
         [by rewrite app_nil_r | constructor]. }
  destruct (isCircuitOpen_frame p r) as (b & r1 & Hopen & Hs1 & Hc1 & Ht1 & Hb1).
  pose proof (isCircuitOpen_requests p r) as Hq1. rewrite Hopen in Hq1.
  cbn [snd] in Hq1.
  destruct b.
  { rewrite (route_loop_open _ _ _ _ _ Hreg Hopen).
    destruct (IH r1) as (out & r' & new & Hrun & Hpost).
    exists out, r', new. split; [done|].
    apply (Hweaken r1 out r' new Hpost Hs1 ltac:(lia) ltac:(lia) []);
      [by rewrite app_nil_r | constructor]. }
  specialize (Hb1 eq_refl).
  destruct (table_lookup PROVIDER_LIMITS p) as [cfg|] eqn:Hcfg.
  2: { destruct (hasQuota_unknown p r1 Hcfg) as [err Hthrow].
       rewrite (route_loop_quota_throws _ _ _ _ _ _ _ Hreg Hopen Hthrow).
       exists (Throw err), r1, []. split; [done|]. unfold loop_post.
       rewrite app_nil_r. split; [done|]. split; [lia|]. split; [lia|].
       split; [constructor|].
       split; [done|]. left. exists p. split; [by left|done]. }
  pose proof (hasQuota_run p cfg r1 Hcfg) as Hquota.
  set (r2 := asked (keyed cfg r1)) in *.
  assert (Hr2 : storage r2 = storage r1 /\ calls r2 = calls r1 /\
                circuitState r2 = circuitState r1 /\
                (ticks r1 <= ticks r2 <= S (ticks r1))%nat /\
                (lc_type cfg = monthly -> ticks r2 = S (ticks r1)) /\
                requests r2 = S (requests r1)).
  { subst r2. destruct (keyed_frame cfg r1) as (? & ? & ? & ? & ? & ?).
    cbn [storage calls circuitState ticks requests asked].
    repeat split; auto; try lia. }
  destruct Hr2 as (Hs2 & Hc2 & Hcs2 & Ht2 & Hm2 & Hq2). clearbody r2.
  destruct (storage_error w (requests r1)) as [error|] eqn:Hstore.
  { rewrite (route_loop_quota_throws _ _ _ _ _ _ _ Hreg Hopen Hquota).
    exists (Throw error), r2, []. split; [done|]. unfold loop_post.
    rewrite app_nil_r. split; [congruence|]. split; [lia|]. split; [lia|].
    split; [constructor|]. split; [congruence|]. right.
    split; [lia|]. rewrite Hq2. done. }
  destruct (has_quota_at PROVIDER_LIMITS (storage r1) p (clock w (ticks r1))) eqn:Hq.
  2: { rewrite (route_loop_no_quota _ _ _ _ _ _ Hreg Hopen Hquota).
       destruct (IH r2) as (out & r' & new & Hrun & Hpost).
       exists out, r', new. split; [done|].
       apply (Hweaken r2 out r' new Hpost ltac:(congruence) ltac:(lia)
                ltac:(lia) []);
         [rewrite app_nil_r; congruence | constructor]. }
  set (e := {| inv_provider := p; inv_params := stack_params options;
               inv_via := ViaStack; inv_storage := storage r2;
               inv_circuit := circuitState r2; inv_ticks := ticks r2;
               inv_requests := requests r2 |}).
  assert (He : stack_call (p :: rest) e).
  { unfold stack_call, inv_time. cbn. split; [done|]. split; [done|].
    split; [by left|]. split.
    - rewrite Hs2. destruct (decide (lc_type cfg = monthly)) as [Hm|Hm].
      + rewrite (Hm2 Hm). done.
      + by rewrite (has_quota_at_timeless cfg _ _ _ (clock w (ticks r1))).
    - intros Hmono. unfold circuit_open_at. rewrite Hcs2.
      destruct (circuitState r1 !! p) as [state|] eqn:Hst; [|done].
      destruct (Hb1 state eq_refl) as [Hcool Htick].
      apply Z.ltb_ge.
      assert (Nat.pred (ticks r2) = ticks r \/ Nat.pred (ticks r2) = S (ticks r))
        as [->| ->] by lia; [done|]. specialize (Hmono (ticks r)). lia. }
  rewrite (route_loop_turn _ _ _ _ _ _ Hreg Hopen Hquota). cbv zeta.
  set (r3 := log_call p (stack_params options) ViaStack r2).
  assert (Hr3 : storage r3 = storage r /\ calls r3 = calls r ++ [e] /\
                (ticks r <= ticks r3)%nat /\ (requests r <= requests r3)%nat).
  { subst r3 e. cbn. repeat split; try congruence; lia. }
  destruct Hr3 as (Hs3 & Hc3 & Ht3 & Hq3).
  assert (Hgoes_on : forall r4,
            storage r4 = storage r -> calls r4 = calls r ++ [e] ->
            (ticks r <= ticks r4)%nat -> (requests r <= requests r4)%nat ->
            exists out r' new,
              route_loop w providers PROVIDER_LIMITS options rest
                (snd (recordFailure w p r4)) = (out, r') /\
              loop_post options (p :: rest) r out r' new).
  { intros r4 Hs4 Hc4 Ht4 Hq4.
    destruct (recordFailure_frame w p r4) as (Hs5 & Hc5 & Ht5).
    pose proof (recordFailure_requests p r4) as Hq5.
    destruct (IH (snd (recordFailure w p r4))) as (out & r' & new & Hrun & Hpost).
    exists out, r', ([e] ++ new). split; [done|].
    apply (Hweaken _ out r' new Hpost); [congruence|lia|lia|congruence|].
    by constructor. }
  destruct (search_outcome w p (stack_params options) (length (calls r2)))
    as [found|err] eqn:Hsearch.
  2: { by apply Hgoes_on. }
  destruct (recordUsage_post p cfg false r3 Hcfg) as (Hc4 & Hcs4 & Ht4 & Hq4 & Hbooked).
  destruct (recordUsage w PROVIDER_LIMITS p false r3) as [[[]|err] r4];
    cbn [fst snd] in *.
  - destruct Hbooked as (Hsto & _ & _).
    eexists _, _, [e]. split; [done|]. unfold loop_post.
    cbn [provider usedPaidTier results calls ticks requests storage circuitState
         set_circuitState].
    split; [congruence|]. split; [lia|]. split; [lia|].
    split. { by constructor. }
    split; [done|]. split; [done|]. split; [by left|].
    split. { apply lookup_delete_eq. }
    split.
    + exists cfg. split; [done|]. by rewrite Hsto, Hs3.
    + exists [], e. split; [done|]. split; [done|].
      rewrite app_nil_r. cbn. congruence.
  - destruct Hbooked as (_ & [[Hsto _]|([=] & _)]).
    apply Hgoes_on; [congruence|congruence|lia|lia].
Qed.
End Route.

(** ** Counters, keys and the monad laws used below *)

Lemma string_app_length (a b : string) :
  String.length (a +:+ b) = (String.length a + String.length b)%nat.
Proof.
  induction a as [|c a IH]; [reflexivity|]. simpl. congruence.
Qed.

Lemma substring0_length n s :
  (n <= String.length s)%nat -> String.length (String.substring 0 n s) = n.
Proof.
  revert s. induction n as [|n IH]; intros [|c s] H; simpl in *; try lia; try done.
  rewrite IH; lia.
Qed.

Lemma year_string_length y : (4 <= String.length (JS.year_string y))%nat.
Proof.
  unfold JS.year_string.
  destruct (_ && _); [by rewrite zpad_length|].
  destruct (Z.ltb _ _); cbn [String.length]; rewrite zpad_length; lia.
Qed.

Lemma iso_month_length t : String.length (JS.slice0 7 (JS.toISOString t)) = 7%nat.
Proof.
  unfold JS.slice0. apply substring0_length. unfold JS.toISOString.
  rewrite !string_app_length, !zpad_length.
  pose proof (year_string_length (JS.YearFromTime t)). cbn [String.length]. lia.
Qed.

Lemma monthly_key_not_paid cfg p t :
  lc_type cfg <> paid -> storage_key_at cfg p t <> p +:+ ":paid".
Proof.
  intros Hty H. unfold storage_key_at in H.
  destruct (lc_type cfg); [| |done].
  - apply string_app_inv_head in H. apply (string_app_inv_head ":") in H.
    apply (f_equal String.length) in H. rewrite iso_month_length in H. done.
  - apply string_app_inv_head in H. discriminate H.
Qed.

Lemma lookup_incremented key counters :
  incremented key counters !! key = Some (default 0 (counters !! key) + 1).
Proof. apply lookup_insert_eq. Qed.

Lemma lookup_incremented_ne key k counters :
  key <> k -> incremented key counters !! k = counters !! k.
Proof. apply lookup_insert_ne. Qed.



(** ** [route] *)

Section RouteProperties.
Variable w : World.
Variable providers : gset string.
Variable PROVIDER_LIMITS : list (string * LimitConfig).

Local Abbreviation loop_post := (loop_post w providers PROVIDER_LIMITS).

Lemma paidProvider_in_stack options : paidProvider options ∈ stack_of options.
Proof.
  unfold paidProvider, stack_of, googleStack, defaultStack.
  destruct (preferGoogle options); set_solver.
Qed.

Lemma recordUsage_unknown p is_paid r :
  table_lookup PROVIDER_LIMITS p = None ->
  exists e, recordUsage w PROVIDER_LIMITS p is_paid r = (Throw e, r).
Proof.
  intros H. unfold recordUsage, bind.
  destruct (getStorageKey_unknown w PROVIDER_LIMITS p r H) as [e ->]. eauto.
Qed.

(** A booking touches neither the call log nor the circuit records, whether
    it goes through or not. *)
Lemma recordUsage_frame p is_paid r :
  calls (snd (recordUsage w PROVIDER_LIMITS p is_paid r)) = calls r /\
  circuitState (snd (recordUsage w PROVIDER_LIMITS p is_paid r)) = circuitState r.
Proof.
  destruct (table_lookup PROVIDER_LIMITS p) as [cfg|] eqn:Hcfg.
  - by destruct (recordUsage_post w PROVIDER_LIMITS p cfg is_paid r Hcfg)
      as (? & ? & _).
  - by destruct (recordUsage_unknown p is_paid r Hcfg) as [e ->].
Qed.

Lemma route_stack_cases options r :
  includeContent options = false ->
  exists out r1 new,
    loop_post options (stack_of options) r out r1 new /\
    match out with
    | Ok (Some res) => route w providers PROVIDER_LIMITS options r = (Ok res, r1)
    | Throw err => route w providers PROVIDER_LIMITS options r = (Throw err, r1)
    | Ok None =>
        let p := paidProvider options in
        let r2 := log_call p (stack_params options) ViaPaidFallback r1 in
        if decide (p ∈ providers) then
          match search_outcome w p (stack_params options) (length (calls r1)) with
          | Throw err => route w providers PROVIDER_LIMITS options r = (Throw err, r2)
          | Ok found =>
              route w providers PROVIDER_LIMITS options r =
                match recordUsage w PROVIDER_LIMITS p true r2 with
                | (Ok _, r3) =>
                    (Ok {| results := found; provider := p; usedPaidTier := true |}, r3)
                | (Throw err, r3) => (Throw err, r3)
                end
          end
        else route w providers PROVIDER_LIMITS options r = (Throw no_providers_available, r1)
    end.
Proof.
  intros Hc. unfold route. rewrite Hc. fold (stack_of options).
  destruct (route_loop_spec w providers PROVIDER_LIMITS options (stack_of options) r)
    as (out & r1 & new & Hrun & Hpost).
  exists out, r1, new. split; [done|].
  rewrite bind_run, Hrun.
  destruct out as [[res|]|err]; try done.
  cbv zeta. destruct (decide _); [|done].
  rewrite bind_run. unfold provider_search.
  destruct (search_outcome w _ _ _) as [found|err]; [|done].
  rewrite bind_run. by destruct (recordUsage _ _ _ _ _) as [[[]|?] ?].
Qed.

(** How [route] runs with [includeContent] set. *)
Lemma route_content_run options r :
  includeContent options = true ->
  let params := {| sp_query := query options; sp_limit := limit options;
                   sp_include_content := true |} in
  let r1 := log_call "jina_search" params ViaContent r in
  route w providers PROVIDER_LIMITS options r =
    if decide ("jina_search" ∈ providers) then
      match search_outcome w "jina_search" params (length (calls r)) with
      | Ok found =>
          match recordUsage w PROVIDER_LIMITS "jina_search" false r1 with
          | (Ok _, r2) =>
              (Ok {| results := found; provider := "jina_search";
                     usedPaidTier := false |}, r2)
          | (Throw e, r2) => (Throw e, r2)
          end
      | Throw e => (Throw e, r1)
      end
    else (Throw jina_key_required, r).
Proof.
  intros Hc params r1. unfold route. rewrite Hc.
  destruct (decide _); [|done].
  rewrite bind_run. unfold provider_search. fold params r1.
  destruct (search_outcome w _ _ _); [|done].
  rewrite bind_run. by destruct (recordUsage _ _ _ _ _) as [[[]|?] ?].
Qed.

(** What a booking does to the counters. *)
Lemma booked_counters cfg p t (is_paid : bool) (before after : gmap string Z) :
  after =
    (if is_paid
     then incremented (p +:+ ":paid") (incremented (storage_key_at cfg p t) before)
     else incremented (storage_key_at cfg p t) before) ->
  (lc_type cfg <> paid ->
     default 0 (after !! storage_key_at cfg p t)
     = default 0 (before !! storage_key_at cfg p t) + 1) /\
  (lc_type cfg <> paid ->
     default 0 (after !! (p +:+ ":paid"))
     = default 0 (before !! (p +:+ ":paid")) + (if is_paid then 1 else 0)) /\
  (forall k, k <> storage_key_at cfg p t -> k <> p +:+ ":paid" ->
             after !! k = before !! k).
Proof.
  intros ->. split; [|split].
  - intros Hty. pose proof (monthly_key_not_paid cfg p t Hty) as Hne.
    destruct is_paid.
    + rewrite lookup_incremented_ne by done. by rewrite lookup_incremented.
    + by rewrite lookup_incremented.
  - intros Hty. pose proof (monthly_key_not_paid cfg p t Hty) as Hne.
    destruct is_paid.
    + rewrite lookup_incremented. by rewrite lookup_incremented_ne by done.
    + rewrite lookup_incremented_ne by done. lia.
  - intros k Hk Hp. destruct is_paid.
    + by rewrite !lookup_incremented_ne by done.
    + by rewrite lookup_incremented_ne by done.
Qed.

(** C7: a successful [route] call books exactly one call: the counter of the
    winning provider under its derived key goes up by one, that provider's
    [:paid] counter goes up by one exactly when the result says
    [usedPaidTier] (which is exactly when the winning call was the paid
    fallback), and no other counter changes. *)
Theorem successful_route_books_one_call options r res r' :
  route w providers PROVIDER_LIMITS options r = (Ok res, r') ->
  exists cfg,
    table_lookup PROVIDER_LIMITS (provider res) = Some cfg /\
    let key := storage_key_at cfg (provider res) (clock w (Nat.pred (ticks r'))) in
    let paid_key := provider res +:+ ":paid" in
    storage r' =
      (if usedPaidTier res
       then incremented paid_key (incremented key (storage r))
       else incremented key (storage r)) /\
    (lc_type cfg <> paid ->
       default 0 (storage r' !! key) = default 0 (storage r !! key) + 1) /\
    (lc_type cfg <> paid ->
       default 0 (storage r' !! paid_key)
       = default 0 (storage r !! paid_key) + (if usedPaidTier res then 1 else 0)) /\
    (forall k, k <> key -> k <> paid_key -> storage r' !! k = storage r !! k) /\
    (exists earlier e,
        calls r' = earlier ++ [e] /\ inv_provider e = provider res /\
        (usedPaidTier res = true <-> inv_via e = ViaPaidFallback)).
Proof.
  intros Hroute.
  assert (Hmain : exists cfg,
    table_lookup PROVIDER_LIMITS (provider res) = Some cfg /\
    storage r' =
      (if usedPaidTier res
       then incremented (provider res +:+ ":paid")
              (incremented (storage_key_at cfg (provider res)
                              (clock w (Nat.pred (ticks r')))) (storage r))
       else incremented (storage_key_at cfg (provider res)
                           (clock w (Nat.pred (ticks r')))) (storage r)) /\
    (exists earlier e,
        calls r' = earlier ++ [e] /\ inv_provider e = provider res /\
        (usedPaidTier res = true <-> inv_via e = ViaPaidFallback))).
  { destruct (includeContent options) eqn:Hc.
    - (* the content short-circuit *)
      rewrite (route_content_run options r Hc) in Hroute. cbv zeta in Hroute.
      destruct (decide _) as [Hreg|Hreg]; [|done].
      destruct (search_outcome w _ _ _) as [found|err]; [|done].
      set (r1 := log_call _ _ _ r) in *.
      destruct (table_lookup PROVIDER_LIMITS "jina_search") as [cfg|] eqn:Hcfg.
      2: { destruct (recordUsage_unknown "jina_search" false r1 Hcfg) as [err Hu].
           rewrite Hu in Hroute. done. }
      destruct (recordUsage_post w PROVIDER_LIMITS "jina_search" cfg false r1 Hcfg)
        as (Hcalls & _ & _ & _ & Hbooked).
      destruct (recordUsage w PROVIDER_LIMITS "jina_search" false r1) as [[[]|?] r2];
        [|done]. cbn [fst snd] in *. destruct Hbooked as (Hsto & _).
      injection Hroute as <- <-. cbn [provider usedPaidTier].
      exists cfg. split; [done|]. split; [done|].
      eexists (calls r), _. rewrite Hcalls. subst r1. cbn. split; [done|].
      split; [done|]. done.
    - destruct (route_stack_cases options r Hc) as (out & r1 & new & Hpost & Hcase).
      destruct Hpost as (Hcalls & Hticks & _ & Hall & Hres).
      destruct out as [[res'|]|err].
      + rewrite Hcase in Hroute. injection Hroute as -> ->.
        destruct Hres as (Hp & _ & _ & _ & (cfg & Hcfg & Hsto) & (earlier & e & -> & He & _)).
        exists cfg. split; [done|]. rewrite Hp. split; [done|].
        exists (calls r ++ earlier), e. rewrite Hcalls, app_assoc. split; [done|].
        split; [done|]. apply Forall_app in Hall as [_ Hall].
        apply Forall_singleton in Hall as (Hvia & _). rewrite Hvia. done.
      + cbv zeta in Hcase. destruct (decide _) as [Hreg|Hreg].
        2: { rewrite Hcase in Hroute. done. }
        destruct (search_outcome w _ _ _) as [found|err].
        2: { rewrite Hcase in Hroute. done. }
        set (r2 := log_call _ _ _ r1) in *. rewrite Hcase in Hroute.
        destruct (table_lookup PROVIDER_LIMITS (paidProvider options)) as [cfg|] eqn:Hcfg.
        2: { destruct (recordUsage_unknown (paidProvider options) true r2 Hcfg)
               as [err Hu]. rewrite Hu in Hroute. done. }
        destruct (recordUsage_post w PROVIDER_LIMITS (paidProvider options) cfg true
                    r2 Hcfg) as (Hcalls2 & _ & _ & _ & Hbooked).
        destruct (recordUsage w PROVIDER_LIMITS (paidProvider options) true r2)
          as [[[]|?] r3]; [|done]. cbn [fst snd] in *.
        destruct Hbooked as (Hsto & _).
        injection Hroute as <- <-. cbn [provider usedPaidTier].
        exists cfg. split; [done|]. split.
        { rewrite Hsto. subst r2. cbn. by rewrite Hres. }
        eexists (calls r1), _. rewrite Hcalls2. subst r2. cbn. done.
      + rewrite Hcase in Hroute. done. }
  destruct Hmain as (cfg & Hcfg & Hsto & Hlast).
  exists cfg. split; [done|]. cbv zeta. split; [done|].
  destruct (booked_counters cfg (provider res) _ (usedPaidTier res) _ _ Hsto)
    as (H1 & H2 & H3).
  repeat split; auto.
Qed.

Lemma route_content_calls options r :
  includeContent options = true ->
  calls (snd (route w providers PROVIDER_LIMITS options r)) =
    if decide ("jina_search" ∈ providers) then
      calls r ++
        [ {| inv_provider := "jina_search";
             inv_params := {| sp_query := query options; sp_limit := limit options;
                              sp_include_content := true |};
             inv_via := ViaContent; inv_storage := storage r;
             inv_circuit := circuitState r; inv_ticks := ticks r;
             inv_requests := requests r |} ]
    else calls r.
Proof.
  intros Hc. rewrite (route_content_run options r Hc). cbv zeta.
  destruct (decide _) as [Hreg|Hreg]; [|done].
  destruct (search_outcome w _ _ _) as [found|err]; [|done].
  set (r1 := log_call _ _ _ r).
  destruct (recordUsage_frame "jina_search" false r1) as [Hcalls _].
  by destruct (recordUsage _ _ _ _ _) as [[[]|?] r2]; cbn [snd] in *; rewrite Hcalls.
Qed.

(** C3: with [includeContent] set, [route] goes to [jina_search] and to
    nothing else, whatever the stack, the counters and the circuit records
    are: when it is registered it is the one provider called, first thing,
    and its error is the error of the call, its answer the answer of the
    call once the usage store has booked it (if the store rejects the
    booking, the call fails with the store's error); when it is not
    registered the call fails at once with the configuration error, no
    provider is called and nothing changes. *)
Theorem route_include_content options r :
  includeContent options = true ->
  let params := {| sp_query := query options; sp_limit := limit options;
                   sp_include_content := true |} in
  let r' := snd (route w providers PROVIDER_LIMITS options r) in
  ("jina_search" ∈ providers ->
     calls r' =
       calls r ++ [ {| inv_provider := "jina_search"; inv_params := params;
                       inv_via := ViaContent; inv_storage := storage r;
                       inv_circuit := circuitState r; inv_ticks := ticks r;
                       inv_requests := requests r |} ] /\
     match search_outcome w "jina_search" params (length (calls r)) with
     | Ok found =>
         is_Some (table_lookup PROVIDER_LIMITS "jina_search") ->
         match storage_error w (requests r) with
         | None =>
             fst (route w providers PROVIDER_LIMITS options r) =
               Ok {| results := found; provider := "jina_search";
                     usedPaidTier := false |}
         | Some error =>
             fst (route w providers PROVIDER_LIMITS options r) = Throw error
         end
     | Throw err =>
         route w providers PROVIDER_LIMITS options r
         = (Throw err, log_call "jina_search" params ViaContent r)
     end) /\
  ("jina_search" ∉ providers ->
   route w providers PROVIDER_LIMITS options r = (Throw jina_key_required, r)).
Proof.
  intros Hc params r'. subst r'. split.
  - intros Hreg. split.
    { rewrite (route_content_calls options r Hc). by rewrite decide_True. }
    rewrite (route_content_run options r Hc). cbv zeta. fold params.
    rewrite decide_True by done.
    destruct (search_outcome w _ _ _) as [found|err]; [|done].
    intros [cfg Hcfg].
    rewrite (recordUsage_run w PROVIDER_LIMITS "jina_search" cfg false _ Hcfg).
    cbv zeta. cbn [requests log_call].
    by destruct (storage_error w (requests r)).
  - intros Hreg. rewrite (route_content_run options r Hc). cbv zeta.
    by rewrite decide_False.
Qed.

(** C1, as amended: in a [route] call without [includeContent], what a
    provider throws inside the loop over the stack is caught: the loop
    throws nothing but what the usage store throws when it is asked for a
    counter, and returns when the store serves it.  When the call ends with
    a failing call of the registered paid fallback, the whole call fails
    with the error that provider threw, unchanged.  And a failing call
    fails either with that error (paid fallback registered), or with the
    exhaustion error (paid fallback not registered), or with the error of
    the usage store that rejected the last request made of it. *)
Theorem route_failures_come_from_the_fallback options r :
  includeContent options = false ->
  table_covers providers PROVIDER_LIMITS (stack_of options) ->
  let out := fst (route w providers PROVIDER_LIMITS options r) in
  let r' := snd (route w providers PROVIDER_LIMITS options r) in
  (forall err r1,
      route_loop w providers PROVIDER_LIMITS options (stack_of options) r
      = (Throw err, r1) ->
      (requests r < requests r1)%nat /\
      storage_error w (Nat.pred (requests r1)) = Some err) /\
  (store_serves w r ->
   exists found r1,
     route_loop w providers PROVIDER_LIMITS options (stack_of options) r
     = (Ok found, r1)) /\
  (forall earlier e err,
      paidProvider options ∈ providers ->
      calls r' = calls r ++ earlier ++ [e] -> inv_via e = ViaPaidFallback ->
      search_outcome w (inv_provider e) (inv_params e) (length (calls r ++ earlier))
      = Throw err ->
      out = Throw err) /\
  (forall err,
      out = Throw err ->
      (requests r < requests r')%nat /\
      storage_error w (Nat.pred (requests r')) = Some err \/
      if decide (paidProvider options ∈ providers) then
        exists earlier e,
          calls r' = calls r ++ earlier ++ [e] /\ inv_via e = ViaPaidFallback /\
          inv_provider e = paidProvider options /\
          search_outcome w (inv_provider e) (inv_params e)
            (length (calls r ++ earlier)) = Throw err
      else err = no_providers_available).
Proof.
  intros Hc Hcov out r'. subst out r'.
  assert (Hloop : forall out0 r0 new0,
            loop_post options (stack_of options) r out0 r0 new0 ->
            match out0 with
            | Throw err => (requests r < requests r0)%nat /\
                           storage_error w (Nat.pred (requests r0)) = Some err
            | Ok _ => True
            end).
  { intros out0 r0 new0 (_ & _ & _ & _ & Hres). destruct out0 as [?|err]; [done|].
    destruct Hres as (_ & [(p & Hin & Hreg & Hnone)|?]); [|done].
    destruct (Hcov p Hin Hreg) as [cfg Hcfg]. congruence. }
  destruct (route_loop_spec w providers PROVIDER_LIMITS options (stack_of options) r)
    as (out0 & r0 & new0 & Hrun0 & Hpost0).
  split.
  { intros err r1 Hthrow. rewrite Hrun0 in Hthrow. injection Hthrow as -> ->.
    apply (Hloop _ _ _ Hpost0). }
  split.
  { intros Hserves. destruct out0 as [found|err]; [eauto|].
    destruct (Hloop _ _ _ Hpost0) as [Hlt Herr].
    rewrite Hserves in Herr by lia. done. }
  clear out0 r0 new0 Hrun0 Hpost0.
  destruct (route_stack_cases options r Hc) as (out & r1 & new & Hpost & Hcase).
  pose proof (Hloop _ _ _ Hpost) as Hthrown.
  destruct Hpost as (Hcalls & Hticks & Hreqs & Hall & Hres).
  assert (Hstack_last : forall r2 earlier e,
            calls r2 = calls r1 -> calls r2 = calls r ++ earlier ++ [e] ->
            inv_via e = ViaStack).
  { intros r2 earlier e -> Hlast. rewrite Hcalls in Hlast.
    apply app_inv_head in Hlast. rewrite Hlast in Hall.
    apply Forall_app in Hall as [_ Hall].
    by apply Forall_singleton in Hall as (Hvia & _). }
  destruct out as [[res|]|err0].
  { rewrite Hcase. cbn [fst snd]. split; [|done].
    intros earlier e err _ Hlast Hvia _.
    rewrite (Hstack_last r1 earlier e eq_refl Hlast) in Hvia. done. }
  2: { rewrite Hcase. cbn [fst snd]. split.
       - intros earlier e err _ Hlast Hvia _.
         rewrite (Hstack_last r1 earlier e eq_refl Hlast) in Hvia. done.
       - intros err [= <-]. by left. }
  cbv zeta in Hcase. destruct (decide _) as [Hreg|Hreg].
  2: { rewrite Hcase. cbn [fst snd]. split; [done|]. intros err [= <-]. by right. }
  destruct (Hcov _ (paidProvider_in_stack options) Hreg) as [cfg Hcfg].
  set (e0 := {| inv_provider := paidProvider options;
                inv_params := stack_params options; inv_via := ViaPaidFallback;
                inv_storage := storage r1; inv_circuit := circuitState r1;
                inv_ticks := ticks r1; inv_requests := requests r1 |}).
  set (r2 := log_call (paidProvider options) (stack_params options)
               ViaPaidFallback r1) in *.
  assert (Hlog : calls r2 = calls r ++ new ++ [e0])
    by (subst r2 e0; cbn; by rewrite Hcalls, app_assoc).
  assert (Hlast_is : forall earlier e,
            calls r2 = calls r ++ earlier ++ [e] -> earlier = new /\ e = e0).
  { intros earlier e Hlast. rewrite Hlog in Hlast.
    apply app_inv_head in Hlast. by apply app_inj_tail in Hlast as [-> ->]. }
  destruct (search_outcome w (paidProvider options) (stack_params options)
              (length (calls r1))) as [found|err0] eqn:Hsearch.
  - destruct (recordUsage_post w PROVIDER_LIMITS (paidProvider options) cfg true
                r2 Hcfg) as (Hcalls2 & _ & _ & Hreqs2 & Hbooked).
    rewrite Hcase.
    destruct (recordUsage w PROVIDER_LIMITS (paidProvider options) true r2)
      as [[[]|err1] r3]; cbn [fst snd] in *.
    + split; [|done]. intros earlier e err _ Hlast Hvia Hthrow.
      rewrite Hcalls2 in Hlast. destruct (Hlast_is _ _ Hlast) as [-> ->].
      cbn in Hthrow. rewrite <- Hcalls in Hthrow. congruence.
    + split.
      * intros earlier e err _ Hlast Hvia Hthrow.
        rewrite Hcalls2 in Hlast. destruct (Hlast_is _ _ Hlast) as [-> ->].
        cbn in Hthrow. rewrite <- Hcalls in Hthrow. congruence.
      * intros err [= <-]. left. destruct Hbooked as [Herr _].
        split; [|done]. subst r2. cbn in Hreqs2. lia.
  - rewrite Hcase. cbn [fst snd]. split.
    + intros earlier e err _ Hlast Hvia Hthrow.
      destruct (Hlast_is _ _ Hlast) as [-> ->].
      cbn in Hthrow. rewrite <- Hcalls in Hthrow. congruence.
    + intros err [= <-]. right. exists new, e0. split; [done|].
      split; [done|]. split; [done|]. cbn. by rewrite <- Hcalls.
Qed.

(** C2, as amended: every provider [route] calls is registered.  One called
    from the loop over the stack moreover had free quota left and, the clock
    not going back, a circuit that was not open.  The paid fallback and the
    provider of [includeContent] are called without a look at quota or
    circuit. *)
Theorem provider_calls_of_route options r e :
  e ∈ drop (length (calls r)) (calls (snd (route w providers PROVIDER_LIMITS options r))) ->
  inv_provider e ∈ providers /\
  match inv_via e with
  | ViaStack =>
      includeContent options = false /\
      inv_provider e ∈ stack_of options /\
      has_quota_at PROVIDER_LIMITS (inv_storage e) (inv_provider e) (inv_time w e)
      = true /\
      (clock_monotone w ->
       circuit_open_at (inv_circuit e) (inv_provider e) (inv_time w e) = false)
  | ViaPaidFallback =>
      includeContent options = false /\ inv_provider e = paidProvider options
  | ViaContent =>
      includeContent options = true /\ inv_provider e = "jina_search"
  | ViaExplicit => False
  end.
Proof.
  destruct (includeContent options) eqn:Hc.
  - rewrite (route_content_calls options r Hc).
    destruct (decide ("jina_search" ∈ providers)) as [Hin|Hin].
    + rewrite drop_app_length. intros ->%list_elem_of_singleton. cbn. done.
    + rewrite drop_all. by intros ?%elem_of_nil.
  - destruct (route_stack_cases options r Hc) as (out & r1 & new & Hpost & Hcase).
    destruct Hpost as (Hcalls & Hticks & _ & Hall & Hres).
    assert (Hstack : forall e, e ∈ new ->
      inv_provider e ∈ providers /\
      match inv_via e with
      | ViaStack =>
          false = false /\
          inv_provider e ∈ stack_of options /\
          has_quota_at PROVIDER_LIMITS (inv_storage e) (inv_provider e) (inv_time w e)
          = true /\
          (clock_monotone w ->
           circuit_open_at (inv_circuit e) (inv_provider e) (inv_time w e) = false)
      | ViaPaidFallback => false = false /\ inv_provider e = paidProvider options
      | ViaContent => false = true /\ inv_provider e = "jina_search"
      | ViaExplicit => False
      end).
    { intros e' He'. rewrite Forall_forall in Hall.
      destruct (Hall e' He') as (Hvia & ? & ? & ? & ?). rewrite Hvia. done. }
    assert (Hsame : forall r', calls r' = calls r1 ->
              e ∈ drop (length (calls r)) (calls r') -> e ∈ new).
    { intros r' ->. by rewrite Hcalls, drop_app_length. }
    assert (Hplus : forall r',
              calls r' = calls r1 ++
                [ {| inv_provider := paidProvider options;
                     inv_params := stack_params options; inv_via := ViaPaidFallback;
                     inv_storage := storage r1; inv_circuit := circuitState r1;
                     inv_ticks := ticks r1; inv_requests := requests r1 |} ] ->
              paidProvider options ∈ providers ->
              e ∈ drop (length (calls r)) (calls r') ->
              inv_provider e ∈ providers /\
              match inv_via e with
              | ViaStack =>
                  false = false /\
                  inv_provider e ∈ stack_of options /\
                  has_quota_at PROVIDER_LIMITS (inv_storage e) (inv_provider e)
                    (inv_time w e) = true /\
                  (clock_monotone w ->
                   circuit_open_at (inv_circuit e) (inv_provider e) (inv_time w e)
                   = false)
              | ViaPaidFallback =>
                  false = false /\ inv_provider e = paidProvider options
              | ViaContent => false = true /\ inv_provider e = "jina_search"
              | ViaExplicit => False
              end).
    { intros r' -> Hreg. rewrite Hcalls, <- app_assoc, drop_app_length.
      intros [He| ->%list_elem_of_singleton]%elem_of_app; [by apply Hstack|].
      cbn. done. }
    destruct out as [[res|]|err].
    + rewrite Hcase. cbn [snd]. intros He. apply Hstack. by apply (Hsame r1).
    + cbv zeta in Hcase. destruct (decide _) as [Hreg|Hreg].
      2: { rewrite Hcase. cbn [snd]. intros He. apply Hstack. by apply (Hsame r1). }
      destruct (search_outcome w _ _ _) as [found|err].
      2: { rewrite Hcase. cbn [snd]. by apply Hplus. }
      rewrite Hcase.
      destruct (recordUsage_frame (paidProvider options) true
                  (log_call (paidProvider options) (stack_params options)
                     ViaPaidFallback r1)) as [Hcalls2 _].
      destruct (recordUsage _ _ _ _ _) as [[[]|?] r3]; cbn [snd] in *;
        by apply Hplus.
    + rewrite Hcase. cbn [snd]. intros He. apply Hstack. by apply (Hsame r1).
Qed.
End RouteProperties.

(** ** The month of a time value *)

Lemma string_app_assoc (a b c : string) : (a +:+ b) +:+ c = a +:+ (b +:+ c).
Proof.
  induction a as [|x a IH]; [reflexivity|].
  change (String x ((a +:+ b) +:+ c) = String x (a +:+ (b +:+ c))). by f_equal.
Qed.

Lemma substring0_app n (a b : string) :
  (n <= String.length a)%nat ->
  String.substring 0 n (a +:+ b) = String.substring 0 n a.
Proof.
  revert a. induction n as [|n IH]; intros [|c a] H; simpl in *; try lia.
  - by destruct b.
  - done.
  - rewrite IH; [done|lia].
Qed.

(** The first seven characters depend on the UTC year and month only. *)
Lemma iso_month_stable t t' :
  JS.YearFromTime t = JS.YearFromTime t' ->
  JS.MonthFromTime t = JS.MonthFromTime t' ->
  JS.slice0 7 (JS.toISOString t) = JS.slice0 7 (JS.toISOString t').
Proof.
  intros Hy Hm. unfold JS.slice0, JS.toISOString. rewrite Hy, Hm.
  set (ys := JS.year_string _). set (mm := JS.zpad 2 _).
  assert (Hlen : (7 <= String.length (ys +:+ "-" +:+ mm))%nat).
  { rewrite !string_app_length. subst ys mm. rewrite zpad_length.
    pose proof (year_string_length (JS.YearFromTime t')). simpl. lia. }
  assert (Hcut : forall tail,
             String.substring 0 7 (ys +:+ "-" +:+ mm +:+ tail)
             = String.substring 0 7 (ys +:+ "-" +:+ mm)).
  { intros tail.
    replace (ys +:+ "-" +:+ mm +:+ tail) with ((ys +:+ "-" +:+ mm) +:+ tail)
      by (by rewrite !string_app_assoc).
    by apply substring0_app. }
  by rewrite !Hcut.
Qed.

(** ** Storage keys *)

Section Keys.
Variable w : World.
Variable PROVIDER_LIMITS : list (string * LimitConfig).

(** C6: the storage key of a provider.  Monthly: [provider:YYYY-MM] with the
    UTC year and month of the clock reading (years 0 to 9999, which print as
    four digits); two readings in the same UTC month give the same key, two
    readings in different months give different keys.  Lifetime:
    [provider:lifetime].  Paid: [provider:paid]. *)
Theorem getStorageKey_derivation p cfg r :
  table_lookup PROVIDER_LIMITS p = Some cfg ->
  let now := clock w (ticks r) in
  match lc_type cfg with
  | monthly =>
      (0 <= JS.YearFromTime now <= 9999 ->
       fst (getStorageKey w PROVIDER_LIMITS p r) =
         Ok (p +:+ ":" +:+ JS.zpad 4 (JS.YearFromTime now) +:+ "-"
               +:+ JS.zpad 2 (JS.MonthFromTime now + 1))) /\
      (forall w' r',
          let now' := clock w' (ticks r') in
          (JS.YearFromTime now' = JS.YearFromTime now ->
           JS.MonthFromTime now' = JS.MonthFromTime now ->
           fst (getStorageKey w' PROVIDER_LIMITS p r')
           = fst (getStorageKey w PROVIDER_LIMITS p r)) /\
          (0 <= JS.YearFromTime now <= 9999 ->
           0 <= JS.YearFromTime now' <= 9999 ->
           (JS.YearFromTime now' <> JS.YearFromTime now \/
            JS.MonthFromTime now' <> JS.MonthFromTime now) ->
           fst (getStorageKey w' PROVIDER_LIMITS p r')
           <> fst (getStorageKey w PROVIDER_LIMITS p r)))
  | lifetime => getStorageKey w PROVIDER_LIMITS p r = (Ok (p +:+ ":lifetime"), r)
  | paid => getStorageKey w PROVIDER_LIMITS p r = (Ok (p +:+ ":paid"), r)
  end.
Proof.
  intros Hcfg now.
  rewrite (getStorageKey_run w _ _ _ _ Hcfg). unfold storage_key_at. fold now.
  destruct (lc_type cfg) eqn:Hty; [|done..]. cbn [fst]. split.
  - intros Hy. by rewrite iso_month_four_digit.
  - intros w' r'. cbv zeta. rewrite (getStorageKey_run w' _ _ _ _ Hcfg).
    unfold storage_key_at. rewrite Hty. cbn [fst].
    set (now' := clock w' (ticks r')). split.
    + intros Hy Hm. by rewrite (iso_month_stable now' now).
    + intros Hy Hy' Hdiff [= Heq].
      apply string_app_inv_head in Heq. apply (string_app_inv_head ":") in Heq.
      apply iso_month_inj in Heq as [? ?]; [|done..]. lia.
Qed.
End Keys.

(** ** Explicit provider selection *)

Section Explicit.
Variable w : World.
Variable providers : gset string.
Variable PROVIDER_LIMITS : list (string * LimitConfig).

(** The guard of [recordExplicitUsage]: for a name without an entry in the
    table nothing is booked, and the usage store is not asked. *)
Lemma recordExplicitUsage_unknown p is_paid r :
  table_lookup PROVIDER_LIMITS p = None ->
  recordExplicitUsage w PROVIDER_LIMITS p is_paid r = (Ok tt, r).
Proof. intros H. unfold recordExplicitUsage. by rewrite H. Qed.

Lemma recordExplicitUsage_is_recordUsage p cfg r :
  table_lookup PROVIDER_LIMITS p = Some cfg ->
  recordExplicitUsage w PROVIDER_LIMITS p false r
  = recordUsage w PROVIDER_LIMITS p false r.
Proof.
  intros H. unfold recordExplicitUsage. rewrite H.
  destruct (lc_type cfg) eqn:Hty; try done.
  unfold recordUsage. rewrite !bind_run, (getStorageKey_run _ _ _ _ _ H).
  rewrite Hty. unfold storage_key_at. rewrite Hty. rewrite bind_run.
  by destruct (storage_increment _ _ _) as [[?|?] ?].
Qed.

(** Booking an explicit call touches neither the call log nor the circuit
    records. *)
Lemma recordExplicitUsage_frame p r :
  calls (snd (recordExplicitUsage w PROVIDER_LIMITS p false r)) = calls r /\
  circuitState (snd (recordExplicitUsage w PROVIDER_LIMITS p false r))
  = circuitState r.
Proof.
  destruct (table_lookup PROVIDER_LIMITS p) as [cfg|] eqn:Hcfg.
  - rewrite (recordExplicitUsage_is_recordUsage _ _ _ Hcfg).
    apply recordUsage_frame.
  - by rewrite (recordExplicitUsage_unknown _ false _ Hcfg).
Qed.

End Explicit.

(** ** The local-file backend *)

Section File.
Import FileStorage.
Variable JSON_parse : string -> outcome document.

Lemma load_run disk :
  load JSON_parse disk =
    match file disk with
    | Some content =>
        match JSON_parse content with
        | Ok data => (Ok data, disk)
        | Throw _ => (Ok (Object ∅), disk)
        end
    | None => (Ok (Object ∅), disk)
    end.
Proof.
  unfold load, try_catch, bind, readFile, ret.
  destruct (file disk) as [content|]; [|done]. by destruct (JSON_parse content).
Qed.

Lemma get_run disk data key :
  load JSON_parse disk = (Ok data, disk) ->
  get JSON_parse key disk =
    match read_property data key with
    | Ok value => (Ok (or_zero value), disk)
    | Throw e => (Throw e, disk)
    end.
Proof.
  intros Hload. unfold get. rewrite bind_run, Hload, bind_run. unfold eval.
  by destruct (read_property data key).
Qed.

(** A file that holds [null] parses, and every [get] throws. *)
Lemma get_on_null_file disk content key :
  file disk = Some content -> JSON_parse content = Ok Null ->
  get JSON_parse key disk = (Throw (cannot_read_null key), disk).
Proof.
  intros Hfile Hnull. rewrite (get_run disk Null key); [done|].
  by rewrite load_run, Hfile, Hnull.
Qed.

(** C9: a usage file that is missing or does not parse is read as the empty
    object, and nothing is thrown.  On such a file [get] returns 0 for every
    key that is not the name of a member of [Object.prototype]; for the
    twelve names that are, it returns the inherited member, not 0. *)
Theorem file_get_on_missing_or_corrupt_file disk :
  (file disk = None \/
   exists content e, file disk = Some content /\ JSON_parse content = Throw e) ->
  load JSON_parse disk = (Ok (Object ∅), disk) /\
  getAll JSON_parse disk = (Ok (Object ∅), disk) /\
  (forall key, key ∉ Object_prototype ->
     get JSON_parse key disk = (Ok (Own (JNumber 0)), disk)) /\
  (forall key, key ∈ Object_prototype ->
     get JSON_parse key disk = (Ok (Inherited key), disk)).
Proof.
  intros Hbad.
  assert (Hload : load JSON_parse disk = (Ok (Object ∅), disk)).
  { rewrite load_run. by destruct Hbad as [->|(content & e & -> & ->)]. }
  split; [done|]. split; [done|]. split.
  - intros key Hkey. rewrite (get_run _ _ key Hload). cbn [read_property].
    rewrite lookup_empty. by rewrite decide_False.
  - intros key Hkey. rewrite (get_run _ _ key Hload). cbn [read_property].
    rewrite lookup_empty. by rewrite decide_True.
Qed.
End File.

(** ** The usage report *)

Section Stats.
Variable w : World.
Variable PROVIDER_LIMITS : list (string * LimitConfig).

Lemma getHealthStatus_frame p r :
  exists health r',
    getHealthStatus w p r = (Ok health, r') /\
    storage r' = storage r /\ circuitState r' = circuitState r /\
    calls r' = calls r /\ requests r' = requests r.
Proof.
  unfold getHealthStatus. rewrite bind_run. unfold gets.
  destruct (circuitState r !! p) as [state|]; [|by eexists _, _].
  rewrite bind_run. unfold Date_now.
  destruct (Z.ltb _ _); [by eexists _, _|].
  destruct (Nat.ltb _ _); by eexists _, _.
Qed.

Lemma stats_step_maps allUsage month stats p cfg r :
  exists stats' r',
    stats_step w allUsage month stats (p, cfg) r = (Ok stats', r') /\
    storage r' = storage r /\
    st_monthly stats' =
      match lc_type cfg with
      | monthly =>
          <[p := usage_entry cfg (default 0 (allUsage !! (p +:+ ":" +:+ month)))]>
            (st_monthly stats)
      | _ => st_monthly stats
      end /\
    st_lifetime stats' =
      match lc_type cfg with
      | lifetime =>
          <[p := usage_entry cfg (default 0 (allUsage !! (p +:+ ":lifetime")))]>
            (st_lifetime stats)
      | _ => st_lifetime stats
      end.
Proof.
  unfold stats_step.
  destruct (getHealthStatus_frame p r) as (health & r' & Hh & Hs & _ & _).
  destruct (lc_type cfg).
  - rewrite bind_run, Hh. by eexists _, r'.
  - rewrite bind_run, Hh. by eexists _, r'.
  - by eexists _, r.
Qed.

Lemma stats_loop_spec table counters now entries :
  (forall entry, entry ∈ entries -> entry ∈ table) ->
  forall stats r,
    stats_ok table counters now stats ->
    exists stats' r',
      stats_loop w counters (JS.slice0 7 (JS.toISOString now)) entries stats r
      = (Ok stats', r') /\
      storage r' = storage r /\
      stats_ok table counters now stats' /\
      (forall q, is_Some (st_monthly stats !! q) -> is_Some (st_monthly stats' !! q)) /\
      (forall q, is_Some (st_lifetime stats !! q) -> is_Some (st_lifetime stats' !! q)) /\
      (forall p cfg, (p, cfg) ∈ entries -> reported stats' p cfg).
Proof.
  induction entries as [|[p cfg] rest IH]; intros Hsub stats r Hok.
  { exists stats, r. repeat split; try done; try apply Hok.
    intros p cfg Hin. by apply elem_of_nil in Hin. }
  cbn [stats_loop]. rewrite bind_run.
  destruct (stats_step_maps counters (JS.slice0 7 (JS.toISOString now)) stats p cfg r)
    as (stats1 & r1 & -> & Hs1 & Hm1 & Hl1).
  assert (Hin : (p, cfg) ∈ table) by (apply Hsub; by left).
  assert (Hok1 : stats_ok table counters now stats1).
  { destruct Hok as [Hm Hl]. split; intros q e.
    - rewrite Hm1. destruct (lc_type cfg) eqn:Hty; try apply Hm.
      destruct (decide (p = q)) as [<-|Hne].
      + rewrite lookup_insert_eq. intros [= <-]. exists cfg.
        unfold storage_key_at. rewrite Hty. done.
      + rewrite lookup_insert_ne by done. apply Hm.
    - rewrite Hl1. destruct (lc_type cfg) eqn:Hty; try apply Hl.
      destruct (decide (p = q)) as [<-|Hne].
      + rewrite lookup_insert_eq. intros [= <-]. exists cfg.
        unfold storage_key_at. rewrite Hty. done.
      + rewrite lookup_insert_ne by done. apply Hl. }
  destruct (IH ltac:(intros e He; apply Hsub; by right) stats1 r1 Hok1)
    as (stats' & r' & Hrun & Hs & Hok' & Hkm & Hkl & Hrep).
  exists stats', r'. split; [done|]. split; [congruence|]. split; [done|].
  assert (Hm01 : forall q, is_Some (st_monthly stats !! q) -> is_Some (st_monthly stats1 !! q)).
  { intros q Hq. rewrite Hm1. destruct (lc_type cfg); try done.
    destruct (decide (p = q)) as [<-|Hne];
      [rewrite lookup_insert_eq; eauto | by rewrite lookup_insert_ne]. }
  assert (Hl01 : forall q, is_Some (st_lifetime stats !! q) -> is_Some (st_lifetime stats1 !! q)).
  { intros q Hq. rewrite Hl1. destruct (lc_type cfg); try done.
    destruct (decide (p = q)) as [<-|Hne];
      [rewrite lookup_insert_eq; eauto | by rewrite lookup_insert_ne]. }
  split; [auto|]. split; [auto|].
  intros q c [[= -> ->]|Hq]%elem_of_cons; [|by apply Hrep].
  unfold reported. destruct (lc_type cfg) eqn:Hty; [| |done].
  - apply Hkm. rewrite Hm1, lookup_insert_eq. eauto.
  - apply Hkl. rewrite Hl1, lookup_insert_eq. eauto.
Qed.

(** C10: [getUsageStats] reports every provider of the table with a free
    tier, and in every monthly or lifetime entry [remaining] is
    [max 0 (limit - used)] for that provider's limit and counter: never
    negative, and 0 once more calls are recorded than the limit allows. *)
Theorem usage_stats_remaining_never_negative r :
  let now := clock w (ticks r) in
  exists stats r',
    getUsageStats w PROVIDER_LIMITS r = (Ok stats, r') /\
    storage r' = storage r /\
    (forall p cfg, (p, cfg) ∈ PROVIDER_LIMITS -> reported stats p cfg) /\
    (forall p e,
        st_monthly stats !! p = Some e \/ st_lifetime stats !! p = Some e ->
        ue_remaining e = Z.max 0 (ue_limit e - ue_used e) /\
        0 <= ue_remaining e /\
        (ue_limit e < ue_used e -> ue_remaining e = 0) /\
        exists cfg,
          (p, cfg) ∈ PROVIDER_LIMITS /\ lc_type cfg <> paid /\
          ue_limit e = lc_limit cfg /\
          ue_used e = default 0 (storage r !! storage_key_at cfg p now)).
Proof.
  intros now. unfold getUsageStats.
  rewrite bind_run. unfold storage_getAll, gets. rewrite bind_run. unfold Date_now.
  fold now.
  destruct (stats_loop_spec PROVIDER_LIMITS (storage r) now PROVIDER_LIMITS
              ltac:(done) empty_stats (tick r))
    as (stats & r' & Hrun & Hs & [Hm Hl] & _ & _ & Hrep).
  { split; intros p e; cbn; by rewrite lookup_empty. }
  exists stats, r'. split; [done|]. split; [done|]. split; [done|].
  intros p e He.
  assert (exists kind, kind <> paid /\ entry_of PROVIDER_LIMITS (storage r) now kind p e)
    as (kind & Hkind & cfg & Hin & Hty & Hlim & Hused & Hrem).
  { destruct He as [He|He]; [exists monthly|exists lifetime]; split; auto. }
  split; [done|]. split; [lia|]. split; [lia|].
  exists cfg. repeat split; auto. congruence.
Qed.
End Stats.

(** ** What a [route] call leaves behind *)

Section Outcomes.
Variable w : World.
Variable providers : gset string.
Variable PROVIDER_LIMITS : list (string * LimitConfig).

(** X1: a [route] call that fails has booked nothing: the usage counters are
    what they were before the call.  There is one exception: when the paid
    fallback has answered, its call was booked on the provider's own counter
    and the usage store then rejected the second booking, on [provider:paid],
    the first one stays. *)
Theorem failed_route_bookings options r err r' :
  route w providers PROVIDER_LIMITS options r = (Throw err, r') ->
  storage r' = storage r \/
  exists cfg earlier e,
    table_lookup PROVIDER_LIMITS (paidProvider options) = Some cfg /\
    calls r' = earlier ++ [e] /\ inv_via e = ViaPaidFallback /\
    storage_error w (inv_requests e) = None /\
    storage_error w (S (inv_requests e)) = Some err /\
    storage r' =
      incremented
        (storage_key_at cfg (paidProvider options) (clock w (Nat.pred (ticks r'))))
        (storage r).
Proof.
  intros Hroute. destruct (includeContent options) eqn:Hc.
  - left. rewrite (route_content_run w providers PROVIDER_LIMITS options r Hc) in Hroute.
    cbv zeta in Hroute.
    destruct (decide _); [|by injection Hroute as _ <-].
    destruct (search_outcome w _ _ _); [|by injection Hroute as _ <-].
    set (r1 := log_call _ _ _ r) in *.
    destruct (table_lookup PROVIDER_LIMITS "jina_search") as [cfg|] eqn:Hcfg.
    + destruct (recordUsage_post w PROVIDER_LIMITS "jina_search" cfg false r1 Hcfg)
        as (_ & _ & _ & _ & Hbooked).
      destruct (recordUsage _ _ _ _ _) as [[[]|?] r2]; [done|].
      cbn [fst snd] in *. injection Hroute as _ <-.
      by destruct Hbooked as (_ & [[-> _]|([=] & _)]).
    + destruct (recordUsage_unknown w PROVIDER_LIMITS "jina_search" false r1 Hcfg)
        as [e0 He]. rewrite He in Hroute. by injection Hroute as _ <-.
  - destruct (route_stack_cases w providers PROVIDER_LIMITS options r Hc)
      as (out & r1 & new & (_ & _ & _ & _ & Hres) & Hcase).
    destruct out as [[res|]|e].
    + rewrite Hcase in Hroute. done.
    + cbv zeta in Hcase. destruct (decide _).
      2: { left. rewrite Hcase in Hroute. injection Hroute as _ <-. done. }
      destruct (search_outcome w _ _ _).
      2: { left. rewrite Hcase in Hroute. injection Hroute as _ <-. done. }
      set (r2 := log_call _ _ _ r1) in *. rewrite Hcase in Hroute.
      destruct (table_lookup PROVIDER_LIMITS (paidProvider options)) as [cfg|] eqn:Hcfg.
      * destruct (recordUsage_post w PROVIDER_LIMITS (paidProvider options) cfg true
                    r2 Hcfg) as (Hcalls & _ & _ & _ & Hbooked).
        destruct (recordUsage _ _ _ _ _) as [[[]|?] r3]; [done|].
        cbn [fst snd] in *. injection Hroute as <- <-.
        destruct Hbooked as (_ & [[-> _]|(_ & Hsto & Hfirst & Hsecond)]);
          [by left|].
        right. exists cfg. eexists (calls r1), _. split; [done|].
        split; [by rewrite Hcalls|]. split; [done|]. split; [done|].
        split; [done|]. rewrite Hsto. subst r2. cbn. by rewrite Hres.
      * destruct (recordUsage_unknown w PROVIDER_LIMITS (paidProvider options) true
                    r2 Hcfg) as [e0 He]. rewrite He in Hroute.
        left. by injection Hroute as _ <-.
    + left. rewrite Hcase in Hroute. injection Hroute as _ <-. by destruct Hres.
Qed.

Lemma getHealthStatus_run p r :
  getHealthStatus w p r =
    match circuitState r !! p with
    | None =>
        (Ok {| h_status := healthy; h_failures := 0; h_cooldownUntil := None |}, r)
    | Some state =>
        (Ok (if clock w (ticks r) <? cooldownUntil state then
               {| h_status := down; h_failures := failures state;
                  h_cooldownUntil := Some (JS.toISOString (cooldownUntil state)) |}
             else if (0 <? failures state)%nat then
               {| h_status := degraded; h_failures := failures state;
                  h_cooldownUntil := None |}
             else {| h_status := healthy; h_failures := 0; h_cooldownUntil := None |}),
         tick r)
    end.
Proof.
  unfold getHealthStatus. rewrite bind_run. unfold gets.
  destruct (circuitState r !! p) as [state|]; [|done].
  rewrite bind_run. unfold Date_now.
  destruct (Z.ltb _ _); [done|]. by destruct (Nat.ltb _ _).
Qed.

(** X2: [getHealthStatus] reads the circuit breaker without changing it, and
    agrees with it: it reports [down] exactly when [isCircuitOpen] would skip
    the provider, [healthy] exactly when the circuit is closed with no failure
    on record, the failure count of the record, and a [cooldownUntil] exactly
    for a provider that is [down]. *)
Theorem health_report_agrees_with_breaker p r :
  exists health,
    fst (getHealthStatus w p r) = Ok health /\
    circuitState (snd (getHealthStatus w p r)) = circuitState r /\
    storage (snd (getHealthStatus w p r)) = storage r /\
    h_failures health = from_option failures 0%nat (circuitState r !! p) /\
    (h_status health = down <-> fst (isCircuitOpen w p r) = Ok true) /\
    (h_status health = healthy <->
       fst (isCircuitOpen w p r) = Ok false /\
       from_option failures 0%nat (circuitState r !! p) = 0%nat) /\
    (h_status health = down <-> is_Some (h_cooldownUntil health)).
Proof.
  rewrite getHealthStatus_run, isCircuitOpen_result. unfold circuit_open_at.
  destruct (circuitState r !! p) as [state|] eqn:Hst; cbn [fst snd from_option];
    [destruct (Z.ltb_spec (clock w (ticks r)) (cooldownUntil state));
     [|destruct (Nat.ltb_spec 0 (failures state))]|];
    (eexists; split; [done|]); cbn; repeat split; intros;
    repeat match goal with
           | H : is_Some None |- _ => by destruct H
           | H : _ /\ _ |- _ => destruct H
           end;
    try done; try lia; by eexists.
Qed.

(** X3: once the cooldown of an opened circuit has elapsed, the next failure
    counts as the first again: [isCircuitOpen] drops the stale record, and
    [recordFailure] after it leaves a record with one failure and no
    cooldown, so the circuit stays closed. *)
Theorem stale_record_restarts_count p r state :
  circuitState r !! p = Some state ->
  (3 <= failures state)%nat ->
  cooldownUntil state <= clock w (ticks r) ->
  let r' := snd ((isCircuitOpen w p ;; recordFailure w p)%js r) in
  circuitState r' !! p =
    Some {| failures := 1; lastFailure := clock w (S (ticks r)); cooldownUntil := 0 |} /\
  (forall now, circuit_open_at (circuitState r') p now = true -> now < 0).
Proof.
  intros Hst Hf Hcool r'. subst r'. rewrite bind_run.
  rewrite (isCircuitOpen_run w p r state Hst).
  destruct (Z.ltb_spec (clock w (ticks r)) (cooldownUntil state)); [lia|].
  unfold CIRCUIT_BREAKER.maxFailures.
  destruct (Nat.leb_spec 3 (failures state)); [|lia].
  rewrite recordFailure_run. cbv zeta.
  cbn [circuitState set_circuitState tick]. rewrite lookup_delete_eq.
  cbn [default from_option id failures cooldownUntil Nat.leb
       CIRCUIT_BREAKER.maxFailures snd circuitState set_circuitState tick ticks].
  rewrite lookup_insert_eq. split; [done|].
  intros now. unfold circuit_open_at. rewrite lookup_insert_eq. cbn.
  intros ?%Z.ltb_lt. done.
Qed.

Lemma isCircuitOpen_other p q r :
  p <> q ->
  circuitState (snd (isCircuitOpen w q r)) !! p = circuitState r !! p.
Proof.
  intros Hne. destruct (circuitState r !! q) as [state|] eqn:Hq.
  - rewrite (isCircuitOpen_run w q r state Hq).
    destruct (Z.ltb _ _); [done|]. destruct (Nat.leb _ _); [|done].
    cbn. by rewrite lookup_delete_ne.
  - by rewrite (isCircuitOpen_no_record w q r Hq).
Qed.

Lemma recordFailure_other p q r :
  p <> q ->
  circuitState (snd (recordFailure w q r)) !! p = circuitState r !! p.
Proof.
  intros Hne. rewrite recordFailure_run. cbv zeta.
  destruct (Nat.leb _ _); cbn; by rewrite lookup_insert_ne.
Qed.

(** One turn of the loop over the stack: the provider is passed over, or the
    loop throws before any call, or the provider is called; and in that case
    the loop ends there when the call returns and the store books it, and
    goes on, one failure more on the provider's record, otherwise. *)
Lemma route_loop_step options p rest r :
  (exists r0,
      route_loop w providers PROVIDER_LIMITS options (p :: rest) r
      = route_loop w providers PROVIDER_LIMITS options rest r0 /\
      calls r0 = calls r /\
      forall q, q <> p -> circuitState r0 !! q = circuitState r !! q) \/
  (exists err r0,
      route_loop w providers PROVIDER_LIMITS options (p :: rest) r = (Throw err, r0) /\
      calls r0 = calls r /\
      forall q, q <> p -> circuitState r0 !! q = circuitState r !! q) \/
  (exists r2 r4,
      let e := {| inv_provider := p; inv_params := stack_params options;
                  inv_via := ViaStack; inv_storage := storage r2;
                  inv_circuit := circuitState r2; inv_ticks := ticks r2;
                  inv_requests := requests r2 |} in
      calls r4 = calls r ++ [e] /\
      (forall q, q <> p -> circuitState r4 !! q = circuitState r !! q) /\
      match search_outcome w p (stack_params options) (length (calls r)),
            storage_error w (requests r2) with
      | Ok found, None =>
          route_loop w providers PROVIDER_LIMITS options (p :: rest) r
          = (Ok (Some {| results := found; provider := p; usedPaidTier := false |}),
             r4)
      | _, _ =>
          route_loop w providers PROVIDER_LIMITS options (p :: rest) r
          = route_loop w providers PROVIDER_LIMITS options rest r4 /\
          exists state,
            circuitState r4 !! p = Some state /\
            failures state = S (from_option failures 0%nat (circuitState r2 !! p))
      end).
Proof.
  destruct (decide (p ∈ providers)) as [Hreg|Hreg].
  2: { left. exists r. by rewrite route_loop_unregistered. }
  destruct (isCircuitOpen_frame w p r) as (b & r1 & Hopen & _ & Hc1 & _).
  assert (Hcs1 : forall q, q <> p -> circuitState r1 !! q = circuitState r !! q).
  { intros q Hq. pose proof (isCircuitOpen_other q p r Hq) as H.
    by rewrite Hopen in H. }
  destruct b.
  { left. exists r1. by rewrite (route_loop_open _ _ _ _ _ _ _ _ Hreg Hopen). }
  destruct (table_lookup PROVIDER_LIMITS p) as [cfg|] eqn:Hcfg.
  2: { right. left.
       destruct (hasQuota_unknown w PROVIDER_LIMITS p r1 Hcfg) as [err Hthrow].
       exists err, r1.
       by rewrite (route_loop_quota_throws _ _ _ _ _ _ _ _ _ _ Hreg Hopen Hthrow). }
  pose proof (hasQuota_run w PROVIDER_LIMITS p cfg r1 Hcfg) as Hquota.
  set (r2 := asked (keyed cfg r1)) in *.
  assert (Hr2 : calls r2 = calls r /\ circuitState r2 = circuitState r1).
  { subst r2. destruct (keyed_frame cfg r1) as (_ & ? & ? & _).
    cbn [calls circuitState asked]. split; congruence. }
  destruct Hr2 as [Hc2 Hcs2].
  assert (Hcs2' : forall q, q <> p -> circuitState r2 !! q = circuitState r !! q).
  { intros q Hq. rewrite Hcs2. by apply Hcs1. }
  clearbody r2.
  destruct (storage_error w (requests r1)) as [error|].
  { right. left. exists error, r2.
    by rewrite (route_loop_quota_throws _ _ _ _ _ _ _ _ _ _ Hreg Hopen Hquota). }
  destruct (has_quota_at PROVIDER_LIMITS (storage r1) p (clock w (ticks r1))).
  2: { left. exists r2.
       by rewrite (route_loop_no_quota _ _ _ _ _ _ _ _ _ Hreg Hopen Hquota). }
  right. right. exists r2.
  rewrite (route_loop_turn _ _ _ _ _ _ _ _ _ Hreg Hopen Hquota). cbv zeta.
  set (r3 := log_call p (stack_params options) ViaStack r2).
  assert (Hfails : forall r4,
            calls r4 = calls r3 -> circuitState r4 = circuitState r2 ->
            calls (snd (recordFailure w p r4)) = calls r3 /\
            (forall q, q <> p ->
               circuitState (snd (recordFailure w p r4)) !! q = circuitState r !! q) /\
            exists state,
              circuitState (snd (recordFailure w p r4)) !! p = Some state /\
              failures state = S (from_option failures 0%nat (circuitState r2 !! p))).
  { intros r4 Hc4 Hcs4.
    destruct (recordFailure_frame w p r4) as (_ & Hc5 & _).
    split; [congruence|]. split.
    - intros q Hq. rewrite recordFailure_other by done. rewrite Hcs4. by apply Hcs2'.
    - destruct (recordFailure_counts w p r4) as (state & Hst & Hf & _).
      exists state. split; [done|]. by rewrite Hf, Hcs4. }
  assert (Hc3 : calls r3 =
            calls r ++ [ {| inv_provider := p; inv_params := stack_params options;
                            inv_via := ViaStack; inv_storage := storage r2;
                            inv_circuit := circuitState r2; inv_ticks := ticks r2;
                            inv_requests := requests r2 |} ])
    by (subst r3; cbn; by rewrite Hc2).
  rewrite <- Hc2.
  destruct (search_outcome w p (stack_params options) (length (calls r2)))
    as [found|err].
  - rewrite (recordUsage_run w PROVIDER_LIMITS p cfg false r3 Hcfg). cbv zeta.
    change (requests r3) with (requests r2).
    destruct (storage_error w (requests r2)) as [error|].
    + destruct (Hfails (asked (keyed cfg r3))) as (Hc5 & Hcs5 & Hstate).
      { by destruct (keyed_frame cfg r3) as (_ & ? & _). }
      { by destruct (keyed_frame cfg r3) as (_ & _ & ? & _). }
      eexists. split; [by rewrite Hc5|]. split; [done|]. split; [done|]. done.
    + eexists. split; [|split; [|reflexivity]].
      * cbn [calls set_circuitState set_storage asked].
        by destruct (keyed_frame cfg r3) as (_ & -> & _).
      * intros q Hq. cbn [circuitState set_circuitState set_storage asked].
        rewrite lookup_delete_ne by done.
        destruct (keyed_frame cfg r3) as (_ & _ & -> & _). by apply Hcs2'.
  - destruct (Hfails r3 eq_refl eq_refl) as (Hc5 & Hcs5 & Hstate).
    eexists. split; [by rewrite Hc5|]. split; [done|].
    by destruct (storage_error w (requests r2)).
Qed.

Lemma route_loop_circuit_frame options stack p :
  p ∉ stack ->
  forall r,
    circuitState (snd (route_loop w providers PROVIDER_LIMITS options stack r)) !! p
    = circuitState r !! p.
Proof.
  induction stack as [|q rest IH]; intros Hnotin r; [done|].
  apply not_elem_of_cons in Hnotin as [Hne Hrest]. specialize (IH Hrest).
  destruct (route_loop_step options q rest r)
    as [(r0 & -> & _ & Hcs)|[(err & r0 & -> & _ & Hcs)|(r2 & r4 & _ & Hcs & Hturn)]].
  - rewrite IH. by apply Hcs.
  - by apply Hcs.
  - destruct (search_outcome w q _ _) as [found|err];
      destruct (storage_error w (requests r2)) as [error|];
      [ destruct Hturn as [-> _]; rewrite IH; by apply Hcs
      | rewrite Hturn; by apply Hcs
      | destruct Hturn as [-> _]; rewrite IH; by apply Hcs
      | destruct Hturn as [-> _]; rewrite IH; by apply Hcs ].
Qed.

(** The calls a loop makes start with the call of its first turn. *)
Lemma route_loop_calls_from options rest r4 r e0 l1 e l2 :
  calls r4 = calls r ++ [e0] ->
  calls (snd (route_loop w providers PROVIDER_LIMITS options rest r4))
  = calls r ++ l1 ++ e :: l2 ->
  l1 = [] /\ e = e0 /\
  calls (snd (route_loop w providers PROVIDER_LIMITS options rest r4)) = calls r4 ++ l2
  \/ exists t, l1 = e0 :: t /\
       calls (snd (route_loop w providers PROVIDER_LIMITS options rest r4))
       = calls r4 ++ t ++ e :: l2.
Proof.
  intros Hc4 Hcalls.
  destruct (route_loop_spec w providers PROVIDER_LIMITS options rest r4)
    as (out & r' & new & Hrun & Hcalls' & _).
  rewrite Hrun in Hcalls |- *. cbn [snd] in *.
  rewrite Hcalls', Hc4, <- app_assoc in Hcalls. apply app_inv_head in Hcalls.
  rewrite Hcalls'.
  destruct l1 as [|x l1]; injection Hcalls as -> ->.
  - by left.
  - right. by exists l1.
Qed.

Lemma route_loop_failure_recorded options stack :
  NoDup stack ->
  forall r l1 e l2,
    calls (snd (route_loop w providers PROVIDER_LIMITS options stack r))
    = calls r ++ l1 ++ e :: l2 ->
    attempt_failed w e (length (calls r ++ l1)) ->
    exists state,
      circuitState (snd (route_loop w providers PROVIDER_LIMITS options stack r))
        !! inv_provider e = Some state /\
      failures state =
        S (from_option failures 0%nat (inv_circuit e !! inv_provider e)).
Proof.
  assert (Hnone : forall (r : Router) l1 (e : Invocation) l2,
            calls r = calls r ++ l1 ++ e :: l2 -> False).
  { intros r l1 e l2 H. rewrite <- (app_nil_r (calls r)) in H at 1.
    apply app_inv_head in H. by destruct l1. }
  induction stack as [|q rest IH]; intros Hnd r l1 e l2 Hcalls Hfailed.
  { by destruct (Hnone _ _ _ _ Hcalls). }
  apply NoDup_cons in Hnd as [Hq Hnd]. specialize (IH Hnd).
  revert Hcalls.
  destruct (route_loop_step options q rest r)
    as [(r0 & -> & Hc0 & _)|[(err & r0 & -> & Hc0 & _)|(r2 & r4 & Hc4 & Hcs & Hturn)]].
  - intros Hcalls. apply (IH r0 l1 e l2); by rewrite Hc0.
  - cbn [snd]. rewrite Hc0. intros Hcalls. by destruct (Hnone _ _ _ _ Hcalls).
  - cbv zeta in Hc4.
    set (e0 := {| inv_provider := q; inv_params := stack_params options;
                  inv_via := ViaStack; inv_storage := storage r2;
                  inv_circuit := circuitState r2; inv_ticks := ticks r2;
                  inv_requests := requests r2 |}) in *.
    assert (Hgoes_on :
      route_loop w providers PROVIDER_LIMITS options (q :: rest) r
      = route_loop w providers PROVIDER_LIMITS options rest r4 ->
      (exists state,
          circuitState r4 !! q = Some state /\
          failures state = S (from_option failures 0%nat (circuitState r2 !! q))) ->
      calls (snd (route_loop w providers PROVIDER_LIMITS options (q :: rest) r))
      = calls r ++ l1 ++ e :: l2 ->
      exists state,
        circuitState (snd (route_loop w providers PROVIDER_LIMITS options (q :: rest) r))
          !! inv_provider e = Some state /\
        failures state =
          S (from_option failures 0%nat (inv_circuit e !! inv_provider e))).
    { intros -> Hstate Hcalls.
      destruct (route_loop_calls_from options rest r4 r e0 l1 e l2 Hc4 Hcalls)
        as [(-> & -> & _)|(t & -> & Hcalls')].
      - cbn [inv_provider inv_circuit e0].
        by rewrite route_loop_circuit_frame.
      - apply (IH r4 t e l2 Hcalls').
        rewrite Hc4, <- app_assoc. exact Hfailed. }
    destruct (search_outcome w q (stack_params options) (length (calls r)))
      as [found|err] eqn:Hsearch;
      destruct (storage_error w (requests r2)) as [error|] eqn:Hstore;
      [ destruct Hturn as [Heq Hstate]; by apply Hgoes_on
      |
      | destruct Hturn as [Heq Hstate]; by apply Hgoes_on
      | destruct Hturn as [Heq Hstate]; by apply Hgoes_on ].
    rewrite Hturn. cbn [snd]. rewrite Hc4. intros Hcalls.
    apply app_inv_head in Hcalls.
    destruct l1 as [|x l1]; [|injection Hcalls as _ Hcalls; by destruct l1].
    injection Hcalls as <- <-. unfold attempt_failed in Hfailed.
    cbn [inv_provider inv_params inv_requests e0] in Hfailed.
    rewrite app_nil_r, Hsearch, Hstore in Hfailed. by destruct Hfailed.
Qed.

Lemma route_stack_run options r :
  includeContent options = false ->
  exists out r1,
    route_loop w providers PROVIDER_LIMITS options (stack_of options) r = (out, r1) /\
    let p := paidProvider options in
    let r2 := log_call p (stack_params options) ViaPaidFallback r1 in
    match out with
    | Ok (Some res) => route w providers PROVIDER_LIMITS options r = (Ok res, r1)
    | Throw err => route w providers PROVIDER_LIMITS options r = (Throw err, r1)
    | Ok None =>
        if decide (p ∈ providers) then
          circuitState (snd (route w providers PROVIDER_LIMITS options r))
          = circuitState r1 /\
          calls (snd (route w providers PROVIDER_LIMITS options r)) = calls r2
        else route w providers PROVIDER_LIMITS options r
             = (Throw no_providers_available, r1)
    end.
Proof.
  intros Hc. unfold route. rewrite Hc. fold (stack_of options).
  destruct (route_loop w providers PROVIDER_LIMITS options (stack_of options) r)
    as [out r1] eqn:Hrun.
  exists out, r1. split; [done|]. rewrite bind_run, Hrun.
  destruct out as [[res|]|err]; try done.
  cbv zeta. destruct (decide _); [|done].
  rewrite bind_run. unfold provider_search.
  destruct (search_outcome w _ _ _) as [found|err]; [|done].
  rewrite bind_run.
  set (r2 := log_call _ _ _ r1).
  destruct (recordUsage_frame w PROVIDER_LIMITS (paidProvider options) true r2)
    as [Hcalls Hcirc].
  destruct (recordUsage _ _ _ _ _) as [[[]|?] r3]; unfold ret; cbn [snd] in *;
    by rewrite Hcirc, Hcalls.
Qed.

Lemma stack_of_NoDup options : NoDup (stack_of options).
Proof.
  unfold stack_of, googleStack, defaultStack.
  destruct (preferGoogle options).
  - refine (@bool_decide_unpack (NoDup googleStack) _ _). vm_compute. exact I.
  - refine (@bool_decide_unpack (NoDup defaultStack) _ _). vm_compute. exact I.
Qed.

(** A failed attempt of the loop is on the provider's record when [route]
    ends. *)
Lemma failed_attempt_is_recorded options r l1 e l2 :
  includeContent options = false ->
  calls (snd (route w providers PROVIDER_LIMITS options r)) = calls r ++ l1 ++ e :: l2 ->
  inv_via e = ViaStack ->
  attempt_failed w e (length (calls r ++ l1)) ->
  exists state,
    circuitState (snd (route w providers PROVIDER_LIMITS options r)) !! inv_provider e
    = Some state /\
    failures state = S (from_option failures 0%nat (inv_circuit e !! inv_provider e)).
Proof.
  intros Hc Hcalls Hvia Hfailed.
  destruct (route_stack_run options r Hc) as (out & r1 & Hrun & Hcase).
  pose proof (route_loop_failure_recorded options (stack_of options)
                (stack_of_NoDup options) r l1 e) as Hloop.
  rewrite Hrun in Hloop. cbn [snd] in Hloop.
  destruct (route_loop_spec w providers PROVIDER_LIMITS options (stack_of options) r)
    as (out' & r1' & new & Hrun' & Hnew & _).
  rewrite Hrun in Hrun'. injection Hrun' as <- <-.
  assert (Hsame : forall r',
            circuitState r' = circuitState r1 -> calls r' = calls r1 ->
            calls r' = calls r ++ l1 ++ e :: l2 ->
            exists state, circuitState r' !! inv_provider e = Some state /\
              failures state
              = S (from_option failures 0%nat (inv_circuit e !! inv_provider e))).
  { intros r' -> Hc' Hd. rewrite Hc' in Hd. by eapply Hloop. }
  cbv zeta in Hcase. destruct out as [[res|]|err'].
  - rewrite Hcase in Hcalls |- *. cbn [snd] in *. by apply Hsame.
  - destruct (decide _) as [Hreg|Hreg].
    + destruct Hcase as [Hcirc Hcalls2]. rewrite Hcirc.
      rewrite Hcalls2 in Hcalls. cbn in Hcalls.
      rewrite Hnew, <- app_assoc in Hcalls. apply app_inv_head in Hcalls.
      (* the last call is the fallback, so [e] is one of the calls before it *)
      destruct l2 as [|x l2 _] using rev_ind.
      * apply app_inj_tail in Hcalls as [_ Heq]. subst e. done.
      * rewrite app_comm_cons, app_assoc in Hcalls.
        apply app_inj_tail in Hcalls as [Hcalls _].
        eapply Hloop; [|done]. by rewrite Hnew, Hcalls.
    + rewrite Hcase in Hcalls |- *. cbn [snd] in *. by apply Hsame.
  - rewrite Hcase in Hcalls |- *. cbn [snd] in *. by apply Hsame.
Qed.

(** X4: every call that [route] makes from the loop over the stack and that
    throws is on that provider's record when [route] ends: its failure count
    is one more than it was when the call was made. *)
Theorem failed_stack_call_is_recorded options r l1 e l2 err :
  includeContent options = false ->
  calls (snd (route w providers PROVIDER_LIMITS options r)) = calls r ++ l1 ++ e :: l2 ->
  inv_via e = ViaStack ->
  search_outcome w (inv_provider e) (inv_params e) (length (calls r ++ l1)) = Throw err ->
  exists state,
    circuitState (snd (route w providers PROVIDER_LIMITS options r)) !! inv_provider e
    = Some state /\
    failures state = S (from_option failures 0%nat (inv_circuit e !! inv_provider e)).
Proof.
  intros Hc Hcalls Hvia Hthrow.
  apply (failed_attempt_is_recorded options r l1 e l2 Hc Hcalls Hvia).
  unfold attempt_failed. by rewrite Hthrow.
Qed.

(** X5: the paid fallback and the content provider are outside the circuit
    breaker: whether such a call returns or throws, the circuit state at the
    end of [route] is the one the call was made with (no failure is
    recorded for it, and no success resets a record). *)
Theorem fallback_and_content_bypass_breaker options r e :
  e ∈ drop (length (calls r)) (calls (snd (route w providers PROVIDER_LIMITS options r))) ->
  inv_via e <> ViaStack ->
  circuitState (snd (route w providers PROVIDER_LIMITS options r)) = inv_circuit e.
Proof.
  destruct (includeContent options) eqn:Hc.
  - rewrite (route_content_run w providers PROVIDER_LIMITS options r Hc). cbv zeta.
    destruct (decide _).
    2: { cbn [snd]. rewrite drop_all. by intros ?%elem_of_nil. }
    set (r1 := log_call _ _ _ r).
    assert (Hin : forall r', calls r' = calls r1 -> circuitState r' = circuitState r ->
              e ∈ drop (length (calls r)) (calls r') -> inv_via e <> ViaStack ->
              circuitState r' = inv_circuit e).
    { intros r' -> ->. subst r1. cbn. rewrite drop_app_length.
      by intros ->%list_elem_of_singleton. }
    destruct (search_outcome w _ _ _); [|by apply Hin].
    destruct (recordUsage_frame w PROVIDER_LIMITS "jina_search" false r1)
      as [Hcalls Hcirc].
    destruct (recordUsage _ _ _ _ _) as [[[]|?] r2]; cbn [snd] in *;
      (apply Hin; [done|by rewrite Hcirc]).
  - destruct (route_stack_run options r Hc) as (out & r1 & Hrun & Hcase).
    destruct (route_loop_spec w providers PROVIDER_LIMITS options (stack_of options) r)
      as (out' & r1' & new & Hrun' & Hnew & _ & _ & Hall & _).
    rewrite Hrun in Hrun'. injection Hrun' as <- <-.
    assert (Hstack : e ∈ new -> inv_via e <> ViaStack -> False).
    { intros He Hvia. rewrite Forall_forall in Hall.
      by destruct (Hall e He) as (? & _). }
    assert (Hsame : forall r', calls r' = calls r1 ->
              e ∈ drop (length (calls r)) (calls r') -> inv_via e <> ViaStack ->
              circuitState r' = inv_circuit e).
    { intros r' ->. rewrite Hnew, drop_app_length. intros He Hvia.
      by destruct (Hstack He Hvia). }
    cbv zeta in Hcase. destruct out as [[res|]|err].
    + rewrite Hcase. cbn [snd]. by apply Hsame.
    + destruct (decide _).
      * destruct Hcase as [-> ->]. cbn. rewrite Hnew, <- app_assoc, drop_app_length.
        intros [He| ->%list_elem_of_singleton]%elem_of_app Hvia; [|done].
        by destruct (Hstack He Hvia).
      * rewrite Hcase. cbn [snd]. by apply Hsame.
    + rewrite Hcase. cbn [snd]. by apply Hsame.
Qed.

Lemma route_loop_success_is_last options stack :
  forall r l1 e l2 found,
    calls (snd (route_loop w providers PROVIDER_LIMITS options stack r))
    = calls r ++ l1 ++ e :: l2 ->
    search_outcome w (inv_provider e) (inv_params e) (length (calls r ++ l1))
    = Ok found ->
    storage_error w (inv_requests e) = None ->
    l2 = [] /\
    fst (route_loop w providers PROVIDER_LIMITS options stack r)
    = Ok (Some {| results := found; provider := inv_provider e;
                  usedPaidTier := false |}).
Proof.
  assert (Hnone : forall (r : Router) l1 (e : Invocation) l2,
            calls r = calls r ++ l1 ++ e :: l2 -> False).
  { intros r l1 e l2 H. rewrite <- (app_nil_r (calls r)) in H at 1.
    apply app_inv_head in H. by destruct l1. }
  induction stack as [|q rest IH]; intros r l1 e l2 found Hcalls Hok Hbooked.
  { by destruct (Hnone _ _ _ _ Hcalls). }
  revert Hcalls.
  destruct (route_loop_step options q rest r)
    as [(r0 & -> & Hc0 & _)|[(err & r0 & -> & Hc0 & _)|(r2 & r4 & Hc4 & Hcs & Hturn)]].
  - intros Hcalls. apply (IH r0 l1 e l2 found); rewrite ?Hc0; done.
  - cbn [snd]. rewrite Hc0. intros Hcalls. by destruct (Hnone _ _ _ _ Hcalls).
  - cbv zeta in Hc4.
    set (e0 := {| inv_provider := q; inv_params := stack_params options;
                  inv_via := ViaStack; inv_storage := storage r2;
                  inv_circuit := circuitState r2; inv_ticks := ticks r2;
                  inv_requests := requests r2 |}) in *.
    assert (Hgoes_on :
      route_loop w providers PROVIDER_LIMITS options (q :: rest) r
      = route_loop w providers PROVIDER_LIMITS options rest r4 ->
      (search_outcome w q (stack_params options) (length (calls r)) = Ok found ->
       storage_error w (requests r2) = None -> False) ->
      calls (snd (route_loop w providers PROVIDER_LIMITS options (q :: rest) r))
      = calls r ++ l1 ++ e :: l2 ->
      l2 = [] /\
      fst (route_loop w providers PROVIDER_LIMITS options (q :: rest) r)
      = Ok (Some {| results := found; provider := inv_provider e;
                    usedPaidTier := false |})).
    { intros -> Hnot Hcalls.
      destruct (route_loop_calls_from options rest r4 r e0 l1 e l2 Hc4 Hcalls)
        as [(-> & -> & _)|(t & -> & Hcalls')].
      - cbn [inv_provider inv_params inv_requests e0] in Hok, Hbooked.
        rewrite app_nil_r in Hok. by destruct (Hnot Hok Hbooked).
      - apply (IH r4 t e l2 found Hcalls'); [|done].
        rewrite Hc4, <- app_assoc. exact Hok. }
    destruct (search_outcome w q (stack_params options) (length (calls r)))
      as [found0|err] eqn:Hsearch;
      destruct (storage_error w (requests r2)) as [error|] eqn:Hstore;
      [ destruct Hturn as [Heq _]; apply Hgoes_on; [done|]; congruence
      |
      | destruct Hturn as [Heq _]; apply Hgoes_on; [done|]; congruence
      | destruct Hturn as [Heq _]; apply Hgoes_on; [done|]; congruence ].
    rewrite Hturn. cbn [fst snd]. rewrite Hc4. intros Hcalls.
    apply app_inv_head in Hcalls.
    destruct l1 as [|x l1]; [|injection Hcalls as _ Hcalls; by destruct l1].
    injection Hcalls as <- <-. split; [done|].
    cbn [inv_provider inv_params e0] in Hok |- *.
    rewrite app_nil_r in Hok. congruence.
Qed.

(** X6: the first provider call that returns and is booked ends the routing:
    no further call is made in that [route], and when [route] returns, it
    returns the results of that call under that provider's name.  When the
    usage store rejects the booking of a call that returned, a call from the
    loop over the stack counts as failed (it is put on the provider's record
    and the loop goes on), and after any other call [route] fails with the
    error of the store. *)
Theorem first_booked_success_wins options r l1 e l2 found :
  calls (snd (route w providers PROVIDER_LIMITS options r)) = calls r ++ l1 ++ e :: l2 ->
  search_outcome w (inv_provider e) (inv_params e) (length (calls r ++ l1)) = Ok found ->
  match storage_error w (inv_requests e) with
  | None =>
      l2 = [] /\
      forall res, fst (route w providers PROVIDER_LIMITS options r) = Ok res ->
                  results res = found /\ provider res = inv_provider e
  | Some error =>
      match inv_via e with
      | ViaStack =>
          exists state,
            circuitState (snd (route w providers PROVIDER_LIMITS options r))
              !! inv_provider e = Some state /\
            failures state =
              S (from_option failures 0%nat (inv_circuit e !! inv_provider e))
      | _ =>
          l2 = [] /\
          (is_Some (table_lookup PROVIDER_LIMITS (inv_provider e)) ->
           fst (route w providers PROVIDER_LIMITS options r) = Throw error)
      end
  end.
Proof.
  intros Hcalls Hok. destruct (includeContent options) eqn:Hc.
  - pose proof (route_content_calls w providers PROVIDER_LIMITS options r Hc) as Hcc.
    rewrite Hcalls in Hcc. destruct (decide _) as [Hreg|Hreg].
    2: { rewrite <- (app_nil_r (calls r)) in Hcc at 2.
         apply app_inv_head in Hcc. by destruct l1. }
    apply app_inv_head in Hcc.
    destruct l1 as [|x l1]; [|injection Hcc as _ Hcc; by destruct l1].
    injection Hcc as -> ->. cbn [inv_requests inv_via inv_provider].
    rewrite (route_content_run w providers PROVIDER_LIMITS options r Hc). cbv zeta.
    rewrite decide_True by done. cbn in Hok. rewrite app_nil_r in Hok. rewrite Hok.
    destruct (storage_error w (requests r)) as [error|] eqn:Hstore.
    + split; [done|]. intros [cfg Hcfg].
      rewrite (recordUsage_run w PROVIDER_LIMITS "jina_search" cfg false _ Hcfg).
      cbv zeta. cbn [requests log_call]. by rewrite Hstore.
    + split; [done|].
      destruct (recordUsage _ _ _ _ _) as [[[]|?] ?]; cbn; [|done].
      by intros res [= <-].
  - destruct (route_stack_run options r Hc) as (out & r1 & Hrun & Hcase).
    pose proof (route_loop_success_is_last options (stack_of options) r l1 e) as Hloop.
    rewrite Hrun in Hloop. cbn [fst snd] in Hloop.
    destruct (route_loop_spec w providers PROVIDER_LIMITS options (stack_of options) r)
      as (out' & r1' & new & Hrun' & Hnew & _ & _ & Hall & _).
    rewrite Hrun in Hrun'. injection Hrun' as <- <-.
    (* a call of the loop *)
    assert (Hstack : forall r',
              route w providers PROVIDER_LIMITS options r
              = (match out with Ok (Some res) => Ok res | Ok None => Throw no_providers_available
                 | Throw err => Throw err end, r') ->
              calls r1 = calls r ++ l1 ++ e :: l2 ->
              match storage_error w (inv_requests e) with
              | None =>
                  l2 = [] /\
                  forall res, fst (route w providers PROVIDER_LIMITS options r) = Ok res ->
                              results res = found /\ provider res = inv_provider e
              | Some error =>
                  inv_via e = ViaStack /\
                  attempt_failed w e (length (calls r ++ l1))
              end).
    { intros r' Hroute Hcalls1.
      destruct (storage_error w (inv_requests e)) as [error|] eqn:Hstore.
      - split.
        + rewrite Hnew in Hcalls1. apply app_inv_head in Hcalls1.
          rewrite Forall_forall in Hall.
          destruct (Hall e) as (? & _); [|done].
          rewrite Hcalls1. apply elem_of_app. right. by left.
        + unfold attempt_failed. by rewrite Hok, Hstore.
      - destruct (Hloop l2 found Hcalls1 Hok eq_refl) as [-> ->].
        split; [done|]. rewrite Hroute. cbn. by intros res [= <-]. }
    assert (Hrecorded : inv_via e = ViaStack ->
              attempt_failed w e (length (calls r ++ l1)) ->
              exists state,
                circuitState (snd (route w providers PROVIDER_LIMITS options r))
                  !! inv_provider e = Some state /\
                failures state =
                  S (from_option failures 0%nat (inv_circuit e !! inv_provider e))).
    { intros Hvia Hfailed.
      by apply (failed_attempt_is_recorded options r l1 e l2). }
    assert (Hfinish : forall r',
              route w providers PROVIDER_LIMITS options r
              = (match out with Ok (Some res) => Ok res | Ok None => Throw no_providers_available
                 | Throw err => Throw err end, r') ->
              calls r1 = calls r ++ l1 ++ e :: l2 ->
              match storage_error w (inv_requests e) with
              | None =>
                  l2 = [] /\
                  forall res, fst (route w providers PROVIDER_LIMITS options r) = Ok res ->
                              results res = found /\ provider res = inv_provider e
              | Some error =>
                  match inv_via e with
                  | ViaStack =>
                      exists state,
                        circuitState (snd (route w providers PROVIDER_LIMITS options r))
                          !! inv_provider e = Some state /\
                        failures state =
                          S (from_option failures 0%nat (inv_circuit e !! inv_provider e))
                  | _ =>
                      l2 = [] /\
                      (is_Some (table_lookup PROVIDER_LIMITS (inv_provider e)) ->
                       fst (route w providers PROVIDER_LIMITS options r) = Throw error)
                  end
              end).
    { intros r' Hroute Hcalls1. specialize (Hstack r' Hroute Hcalls1).
      destruct (storage_error w (inv_requests e)); [|done].
      destruct Hstack as [Hvia Hfailed]. rewrite Hvia. by apply Hrecorded. }
    cbv zeta in Hcase. destruct out as [[res|]|err].
    + apply (Hfinish r1); [done|]. by rewrite Hcase in Hcalls.
    + destruct (decide _) as [Hreg|Hreg].
      2: { apply (Hfinish r1); [done|]. by rewrite Hcase in Hcalls. }
      destruct Hcase as [_ Hcalls2]. rewrite Hcalls2 in Hcalls. cbn in Hcalls.
      rewrite Hnew, <- app_assoc in Hcalls. apply app_inv_head in Hcalls.
      destruct l2 as [|x l2 _] using rev_ind.
      * (* [e] is the call of the paid fallback *)
        apply app_inj_tail in Hcalls as [Hl1 Heq]. subst e.
        cbn [inv_requests inv_via inv_provider].
        cbn in Hok. rewrite <- Hl1, <- Hnew in Hok.
        unfold route. rewrite Hc. fold (stack_of options).
        rewrite bind_run, Hrun. rewrite decide_True by done.
        rewrite bind_run. unfold provider_search. rewrite Hok.
        rewrite bind_run.
        destruct (storage_error w (requests r1)) as [error|] eqn:Hstore.
        -- split; [done|]. intros [cfg Hcfg].
           rewrite (recordUsage_run w PROVIDER_LIMITS _ cfg true _ Hcfg).
           cbv zeta. cbn [requests log_call]. by rewrite Hstore.
        -- split; [done|].
           destruct (recordUsage _ _ _ _ _) as [[[]|?] ?]; cbn; [|done].
           by intros res [= <-].
      * (* [e] is a call of the loop, and the fallback was called after it *)
        rewrite app_comm_cons, app_assoc in Hcalls.
        apply app_inj_tail in Hcalls as [Hcalls _].
        assert (Hcalls1 : calls r1 = calls r ++ l1 ++ e :: l2)
          by (by rewrite Hnew, Hcalls).
        destruct (storage_error w (inv_requests e)) as [error|] eqn:Hstore.
        -- assert (Hvia : inv_via e = ViaStack).
           { rewrite Forall_forall in Hall. destruct (Hall e) as (? & _); [|done].
             rewrite Hcalls. apply elem_of_app. right. by left. }
           rewrite Hvia. apply Hrecorded; [done|].
           unfold attempt_failed. by rewrite Hok, Hstore.
        -- by destruct (Hloop l2 found Hcalls1 Hok eq_refl) as [_ ?].
    + apply (Hfinish r1); [done|]. by rewrite Hcase in Hcalls.
Qed.
End Outcomes.

(** ** The paid side of the usage report *)

Section PaidSide.
Variable w : World.
Variable PROVIDER_LIMITS : list (string * LimitConfig).

Lemma stats_step_paid_side allUsage month stats p cfg r :
  exists stats' r' health,
    stats_step w allUsage month stats (p, cfg) r = (Ok stats', r') /\
    storage r' = storage r /\ circuitState r' = circuitState r /\
    calls r' = calls r /\ requests r' = requests r /\
    st_paidApis stats' =
      match lc_type cfg with
      | paid => <[p := paid_entry cfg (default 0 (allUsage !! (p +:+ ":paid")))]>
                  (st_paidApis stats)
      | _ => st_paidApis stats
      end /\
    st_paid stats' =
      match lc_type cfg with
      | paid => st_paid stats
      | _ => <[p := default 0 (allUsage !! (p +:+ ":paid"))]> (st_paid stats)
      end /\
    st_health stats' =
      match lc_type cfg with
      | paid => st_health stats
      | _ => <[p := health]> (st_health stats)
      end.
Proof.
  unfold stats_step.
  destruct (getHealthStatus_frame w p r) as (health & r' & Hh & Hs & Hc & Hl & Hq).
  destruct (lc_type cfg).
  - rewrite bind_run, Hh. by eexists _, r', health.
  - rewrite bind_run, Hh. by eexists _, r', health.
  - by eexists _, r, health.
Qed.

Lemma stats_loop_paid_side table counters month entries :
  (forall entry, entry ∈ entries -> entry ∈ table) ->
  forall stats r,
    paid_side_ok table counters stats ->
    exists stats' r',
      stats_loop w counters month entries stats r = (Ok stats', r') /\
      storage r' = storage r /\ circuitState r' = circuitState r /\
      calls r' = calls r /\ requests r' = requests r /\
      paid_side_ok table counters stats' /\
      (forall q, is_Some (st_paidApis stats !! q) -> is_Some (st_paidApis stats' !! q)) /\
      (forall q, is_Some (st_paid stats !! q) -> is_Some (st_paid stats' !! q)) /\
      (forall q, is_Some (st_health stats !! q) -> is_Some (st_health stats' !! q)) /\
      (forall p cfg, (p, cfg) ∈ entries -> paid_side_reported stats' p cfg).
Proof.
  induction entries as [|[p cfg] rest IH]; intros Hsub stats r Hok.
  { exists stats, r. repeat split; try done; try apply Hok.
    intros p cfg Hin. by apply elem_of_nil in Hin. }
  cbn [stats_loop]. rewrite bind_run.
  destruct (stats_step_paid_side counters month stats p cfg r)
    as (stats1 & r1 & health & -> & Hs1 & Hc1 & Hl1 & Hq1 & Ha1 & Hp1 & Hh1).
  assert (Hin : (p, cfg) ∈ table) by (apply Hsub; by left).
  assert (Hkeep : forall A (m : gmap string A) (x : A) q,
            is_Some (m !! q) -> is_Some (<[p := x]> m !! q)).
  { intros A m x q Hq. destruct (decide (p = q)) as [<-|Hne];
      [rewrite lookup_insert_eq; eauto | by rewrite lookup_insert_ne]. }
  assert (Hok1 : paid_side_ok table counters stats1).
  { destruct Hok as (Ha & Hp & Hh). split; [|split]; intros q x.
    - rewrite Ha1. destruct (lc_type cfg) eqn:Hty; try apply Ha.
      destruct (decide (p = q)) as [<-|Hne].
      + rewrite lookup_insert_eq. intros [= <-]. by exists cfg.
      + rewrite lookup_insert_ne by done. apply Ha.
    - rewrite Hp1. destruct (lc_type cfg) eqn:Hty; try apply Hp.
      all: destruct (decide (p = q)) as [<-|Hne];
        [rewrite lookup_insert_eq; intros [= <-]; exists cfg; by rewrite Hty
        |rewrite lookup_insert_ne by done; apply Hp].
    - rewrite Hh1. destruct (lc_type cfg) eqn:Hty; try apply Hh.
      all: destruct (decide (p = q)) as [<-|Hne];
        [rewrite lookup_insert_eq; intros _; exists cfg; by rewrite Hty
        |rewrite lookup_insert_ne by done; apply Hh]. }
  destruct (IH ltac:(intros e He; apply Hsub; by right) stats1 r1 Hok1)
    as (stats' & r' & Hrun & Hs & Hc & Hl & Hrq & Hok' & Hka & Hkp & Hkh & Hrep).
  exists stats', r'. split; [done|]. split; [congruence|]. split; [congruence|].
  split; [congruence|]. split; [congruence|]. split; [done|].
  split. { intros q Hq. apply Hka. rewrite Ha1. destruct (lc_type cfg); auto. }
  split. { intros q Hq. apply Hkp. rewrite Hp1. destruct (lc_type cfg); auto. }
  split. { intros q Hq. apply Hkh. rewrite Hh1. destruct (lc_type cfg); auto. }
  intros q c [[= -> ->]|Hq]%elem_of_cons; [|by apply Hrep].
  unfold paid_side_reported. destruct (lc_type cfg) eqn:Hty.
  - split; [apply Hkp; rewrite Hp1|apply Hkh; rewrite Hh1];
      rewrite lookup_insert_eq; eauto.
  - split; [apply Hkp; rewrite Hp1|apply Hkh; rewrite Hh1];
      rewrite lookup_insert_eq; eauto.
  - apply Hka. rewrite Ha1, lookup_insert_eq. eauto.
Qed.

(** X7: when [getUsageStats] returns, it has only read: counters, circuit
    records and the call log are as before.  Besides the free-tier entries
    its report lists every paid-only provider of the table under [paidApis],
    with its counter and its cost per query (0 when none is configured), and
    every other provider under [paid] (its overage counter) and [health]; no
    provider is on the wrong side. *)
Theorem usage_report_paid_side r stats r' :
  getUsageStats w PROVIDER_LIMITS r = (Ok stats, r') ->
  storage r' = storage r /\ circuitState r' = circuitState r /\
  calls r' = calls r /\ requests r' = requests r /\
  paid_side_ok PROVIDER_LIMITS (storage r) stats /\
  (forall p cfg, (p, cfg) ∈ PROVIDER_LIMITS -> paid_side_reported stats p cfg).
Proof.
  unfold getUsageStats.
  rewrite bind_run. unfold storage_getAll, gets. rewrite bind_run. unfold Date_now.
  destruct (stats_loop_paid_side PROVIDER_LIMITS (storage r)
              (JS.slice0 7 (JS.toISOString (clock w (ticks r)))) PROVIDER_LIMITS
              ltac:(done) empty_stats (tick r))
    as (stats0 & r0 & Hrun & Hs & Hc & Hl & Hq & Hok & _ & _ & _ & Hrep).
  { repeat split; intros p e; cbn; by rewrite lookup_empty. }
  rewrite Hrun. intros [= <- <-]. cbn in Hs, Hc, Hl, Hq.
  do 4 (split; [done|]). by split.
Qed.
End PaidSide.

(** ** Choosing the route in [UnifiedWebSearchProvider.search] *)

(** [String.prefix] and [includes] against concatenation. *)
Lemma string_prefix_app (needle rest : string) : String.prefix needle (needle +:+ rest) = true.
Proof.
  induction needle as [|c needle IH]; [by destruct rest|].
  simpl. destruct (ascii_dec c c); [done|congruence].
Qed.

Lemma string_prefix_inv (needle hay : string) :
  String.prefix needle hay = true -> exists rest, hay = needle +:+ rest.
Proof.
  revert hay. induction needle as [|c needle IH]; intros hay H; [by exists hay|].
  destruct hay as [|d hay]; [done|]. simpl in H.
  destruct (ascii_dec c d) as [->|]; [|done].
  destruct (IH hay H) as [rest ->]. by exists rest.
Qed.

Lemma includes_spec (needle hay : string) :
  includes needle hay = true <-> exists a b, hay = a +:+ needle +:+ b.
Proof.
  split.
  - induction hay as [|c hay IH]; cbn [includes]; intros H.
    + apply orb_true_iff in H as [H|H]; [|done].
      apply string_prefix_inv in H as [rest ->]. by exists EmptyString, rest.
    + apply orb_true_iff in H as [H|H].
      * apply string_prefix_inv in H as [rest ->]. by exists EmptyString, rest.
      * destruct (IH H) as (a & b & ->). by exists (String c a), b.
  - intros (a & b & ->). induction a as [|c a IH].
    + change (EmptyString +:+ needle +:+ b) with (needle +:+ b).
      destruct (needle +:+ b) eqn:Heq; cbn [includes]; rewrite <- Heq, string_prefix_app; done.
    + change (String c a +:+ needle +:+ b) with (String c (a +:+ needle +:+ b)).
      cbn [includes]. rewrite IH. apply orb_true_r.
Qed.

Lemma toLowerCase_app (a b : string) :
  toLowerCase (a +:+ b) = toLowerCase a +:+ toLowerCase b.
Proof.
  induction a as [|c a IH]; [done|].
  change (String c a +:+ b) with (String c (a +:+ b)). cbn [toLowerCase].
  by rewrite IH.
Qed.

Section Selection.
Variable w : World.
Variable providers : gset string.
Variable PROVIDER_LIMITS : list (string * LimitConfig).

(** X8: without an explicit provider, a query that contains the word
    google in any mix of upper and lower case is routed with
    [preferGoogle] set, and the caller gets the results of that [route]
    call, or its error. *)
Theorem google_in_any_case_prefers_serper params r a g b :
  explicit_choice params = None ->
  u_query params = a +:+ g +:+ b ->
  toLowerCase g = "google" ->
  unified_search w providers PROVIDER_LIMITS params r =
    let '(out, r') :=
      route w providers PROVIDER_LIMITS
        {| query := u_query params; limit := u_limit params; preferGoogle := true;
           includeContent := u_include_content params |} r in
    (match out with Ok routed => Ok (results routed) | Throw e => Throw e end, r').
Proof.
  intros Hnone Hq Hg. unfold unified_search. rewrite Hnone.
  assert (Hinc : includes "google" (toLowerCase (u_query params)) = true).
  { apply includes_spec. exists (toLowerCase a), (toLowerCase b).
    by rewrite Hq, !toLowerCase_app, Hg. }
  rewrite Hinc. rewrite bind_run.
  by destruct (route _ _ _ _ _) as [[routed|e] r'].
Qed.

(** X9: an explicitly selected provider is called exactly once, whatever
    its quota and its circuit record say, and the circuit breaker is not
    touched.  What the provider throws is what the caller gets, and nothing
    is booked then.  What it returns is what the caller gets, unless the
    usage store rejects the booking: then the caller gets the error of the
    store, and nothing is booked. *)
Theorem explicit_call_skips_quota_and_breaker params p r :
  explicit_choice params = Some p ->
  p ∈ legacy_providers ->
  let sent := {| sp_query := u_query params; sp_limit := u_limit params;
                 sp_include_content := false |} in
  let out := fst (unified_search w providers PROVIDER_LIMITS params r) in
  let r' := snd (unified_search w providers PROVIDER_LIMITS params r) in
  calls r' =
    calls r ++ [ {| inv_provider := p; inv_params := sent; inv_via := ViaExplicit;
                    inv_storage := storage r; inv_circuit := circuitState r;
                    inv_ticks := ticks r; inv_requests := requests r |} ] /\
  circuitState r' = circuitState r /\
  match search_outcome w p sent (length (calls r)) with
  | Throw err => out = Throw err /\ storage r' = storage r
  | Ok found =>
      match table_lookup PROVIDER_LIMITS p, storage_error w (requests r) with
      | Some _, Some error => out = Throw error /\ storage r' = storage r
      | _, _ => out = Ok found
      end
  end.
Proof.
  intros Hp Hlegacy sent out r'. subst out r'. unfold unified_search. rewrite Hp.
  rewrite decide_True by done. rewrite bind_run. unfold provider_search. fold sent.
  set (r1 := log_call p sent ViaExplicit r).
  destruct (search_outcome w p sent (length (calls r))) as [found|err].
  2: { cbn. repeat split; done. }
  rewrite bind_run.
  destruct (table_lookup PROVIDER_LIMITS p) as [cfg|] eqn:Hcfg.
  - rewrite (recordExplicitUsage_is_recordUsage w PROVIDER_LIMITS p cfg r1 Hcfg).
    destruct (recordUsage_frame w PROVIDER_LIMITS p false r1) as [Hcalls Hcirc].
    revert Hcalls Hcirc.
    rewrite (recordUsage_run w PROVIDER_LIMITS p cfg false r1 Hcfg). cbv zeta.
    change (requests r1) with (requests r).
    destruct (storage_error w (requests r)) as [error|]; cbn [fst snd ret];
      intros -> ->; (split; [done|]); (split; [done|]); [|done].
    split; [done|]. cbn [storage asked].
    by destruct (keyed_frame cfg r1) as (-> & _).
  - rewrite (recordExplicitUsage_unknown w PROVIDER_LIMITS p false r1 Hcfg).
    cbn. repeat split; done.
Qed.
End Selection.

(** ** Sequences of writes to the usage file *)

Section FileSequence.
Import FileStorage.
Variable JSON_parse : string -> outcome document.
Variable JSON_stringify : document -> string.
Variable save_error : nat -> option exn.
Variable Function_toString : string -> string.
Hypothesis round_trip : forall data, JSON_parse (JSON_stringify data) = Ok data.

Local Abbreviation run_increment :=
  (increment JSON_parse JSON_stringify save_error Function_toString).

Lemma not_inherited_not_proto key :
  key ∉ Object_prototype -> String.eqb key "__proto__" = false.
Proof.
  intros Hkey. destruct (String.eqb_spec key "__proto__") as [->|]; [|done].
  destruct Hkey. unfold Object_prototype.
  repeat first [apply list_elem_of_here | apply list_elem_of_further].
Qed.

(** One [increment] of a counter of an object of the usage file. *)
Lemma increment_run disk properties key c :
  load JSON_parse disk = (Ok (Object properties), disk) ->
  key ∉ Object_prototype ->
  default (JNumber 0) (properties !! key) = JNumber c ->
  run_increment key disk =
    match save_error (saves disk) with
    | Some error => (Throw error, {| file := file disk; saves := S (saves disk) |})
    | None =>
        (Ok (Own (JNumber (c + 1))),
         {| file := Some (JSON_stringify (Object (<[key := JNumber (c + 1)]> properties)));
            saves := S (saves disk) |})
    end.
Proof.
  intros Hload Hkey Hc. unfold increment. rewrite bind_run, Hload, bind_run.
  unfold eval at 1. cbn [read_property].
  assert (Hnew : or_zero_plus_one Function_toString
                   (match properties !! key with
                    | Some value => Own value
                    | None => if decide (key ∈ Object_prototype) then Inherited key
                              else Undefined
                    end) = JNumber (c + 1)).
  { destruct (properties !! key) as [value|]; cbn in Hc.
    - by rewrite Hc.
    - rewrite decide_False by done. cbn. by injection Hc as <-. }
  destruct (properties !! key) as [value|] eqn:Hvalue; rewrite bind_run;
    unfold eval at 1; cbn [write_property];
    rewrite (not_inherited_not_proto key Hkey), Hnew; cbn [andb];
    rewrite bind_run; unfold save;
    (destruct (save_error (saves disk)); [done|]);
    unfold eval; cbn [read_property]; by rewrite lookup_insert_eq.
Qed.

Lemma load_written properties n :
  load JSON_parse {| file := Some (JSON_stringify (Object properties)); saves := n |}
  = (Ok (Object properties),
     {| file := Some (JSON_stringify (Object properties)); saves := n |}).
Proof. rewrite load_run. cbn [file]. by rewrite round_trip. Qed.

Lemma increment_times_spec n : forall disk properties key c,
  load JSON_parse disk = (Ok (Object properties), disk) ->
  key ∉ Object_prototype ->
  default (JNumber 0) (properties !! key) = JNumber c ->
  (forall i, (i < n)%nat -> save_error (saves disk + i) = None) ->
  exists disk',
    increment_times JSON_parse JSON_stringify save_error Function_toString n key disk
    = (Ok (map (fun i => Own (JNumber (c + Z.of_nat i))) (seq 1 n)), disk') /\
    saves disk' = (saves disk + n)%nat /\
    get JSON_parse key disk' = (Ok (Own (JNumber (c + Z.of_nat n))), disk') /\
    (forall k, k <> key ->
       get JSON_parse k disk' = (fst (get JSON_parse k disk), disk')).
Proof.
  induction n as [|n IH]; intros disk properties key c Hload Hkey Hc Hsaves.
  { exists disk. split; [done|]. split; [lia|]. split.
    - replace (c + Z.of_nat 0) with c by lia.
      rewrite (get_run _ _ _ key Hload). cbn [read_property].
      destruct (properties !! key) as [value|]; cbn in Hc.
      + by rewrite Hc.
      + rewrite decide_False by done. cbn. by injection Hc as <-.
    - intros k _. destruct (get JSON_parse k disk) as [out d] eqn:Hget.
      cbn [fst]. f_equal.
      rewrite (get_run _ _ _ k Hload) in Hget.
      by destruct (read_property _ _); injection Hget as _ <-. }
  cbn [increment_times]. rewrite bind_run.
  rewrite (increment_run disk properties key c Hload Hkey Hc).
  pose proof (Hsaves 0%nat ltac:(lia)) as Hfirst.
  rewrite Nat.add_0_r in Hfirst. rewrite Hfirst.
  set (properties1 := <[key := JNumber (c + 1)]> properties).
  set (disk1 := {| file := Some (JSON_stringify (Object properties1));
                   saves := S (saves disk) |}).
  destruct (IH disk1 properties1 key (c + 1)) as (disk' & Hrun & Hcount & Hget & Hother).
  { apply load_written. }
  { done. }
  { subst properties1. by rewrite lookup_insert_eq. }
  { intros i Hi. subst disk1. cbn [saves].
    replace (S (saves disk) + i)%nat with (saves disk + S i)%nat by lia.
    apply Hsaves. lia. }
  rewrite bind_run, Hrun. exists disk'. unfold ret. split.
  { do 2 f_equal. cbn [seq map]. f_equal.
    rewrite <- (seq_shift n 1), map_map. apply map_ext. intros i.
    replace (c + 1 + Z.of_nat i) with (c + Z.of_nat (S i)) by lia. done. }
  split. { rewrite Hcount. subst disk1. cbn [saves]. lia. }
  split. { rewrite Hget. replace (c + 1 + Z.of_nat n) with (c + Z.of_nat (S n)) by lia. done. }
  intros k Hk. rewrite (Hother k Hk). f_equal.
  rewrite (get_run _ disk1 (Object properties1) k (load_written _ _)).
  rewrite (get_run _ disk (Object properties) k Hload).
  cbn [read_property]. subst properties1. rewrite lookup_insert_ne by done.
  by destruct (properties !! k).
Qed.

(** X10: the file backend counts.  On a usage file that is missing, does
    not parse, or holds an object, with a counter [c] under [key] (0 when
    there is none), [n] successive [increment(key)]s whose files get written
    return [c + 1], ..., [c + n]; afterwards [get(key)] is [c + n] and every
    other key reads as before.  This is for a [key] that is no name of a
    member of [Object.prototype], for counters within the integers that
    doubles hold exactly, and for a [JSON.parse] that reads back what
    [JSON.stringify] wrote. *)
Theorem file_increments_count n disk properties key c :
  load JSON_parse disk = (Ok (Object properties), disk) ->
  key ∉ Object_prototype ->
  default (JNumber 0) (properties !! key) = JNumber c ->
  - 2 ^ 53 <= c -> c + Z.of_nat n <= 2 ^ 53 ->
  (forall i, (i < n)%nat -> save_error (saves disk + i) = None) ->
  exists disk',
    increment_times JSON_parse JSON_stringify save_error Function_toString n key disk
    = (Ok (map (fun i => Own (JNumber (c + Z.of_nat i))) (seq 1 n)), disk') /\
    saves disk' = (saves disk + n)%nat /\
    get JSON_parse key disk' = (Ok (Own (JNumber (c + Z.of_nat n))), disk') /\
    (forall k, k <> key ->
       get JSON_parse k disk' = (fst (get JSON_parse k disk), disk')).
Proof. intros Hload Hkey Hc _ _ Hsaves. by apply (increment_times_spec n disk properties). Qed.

(** X11: an [increment] on a usage file that does not parse starts over: when
    the file gets written, it returns 1 and the file then holds this counter
    alone (all earlier counters are lost); when [fs.mkdir] or [fs.writeFile]
    rejects, the [increment] fails with that error. *)
Theorem increment_on_corrupt_file_starts_over disk content err key :
  file disk = Some content ->
  JSON_parse content = Throw err ->
  key ∉ Object_prototype ->
  match save_error (saves disk) with
  | None =>
      let disk' := {| file := Some (JSON_stringify (Object {[ key := JNumber 1 ]}));
                      saves := S (saves disk) |} in
      run_increment key disk = (Ok (Own (JNumber 1)), disk') /\
      getAll JSON_parse disk' = (Ok (Object {[ key := JNumber 1 ]}), disk')
  | Some error =>
      run_increment key disk
      = (Throw error, {| file := Some content; saves := S (saves disk) |})
  end.
Proof.
  intros Hfile Hbad Hkey.
  assert (Hload : load JSON_parse disk = (Ok (Object ∅), disk))
    by (by rewrite load_run, Hfile, Hbad).
  rewrite (increment_run disk ∅ key 0 Hload Hkey) by by rewrite lookup_empty.
  destruct (save_error (saves disk)); [by rewrite Hfile|].
  cbv zeta. change (0 + 1) with 1. rewrite insert_empty. split; [done|].
  apply load_written.
Qed.
End FileSequence.

(** ** Registered and selectable providers *)

Section Available.
Variable w : World.
Variable PROVIDER_LIMITS : list (string * LimitConfig).

Lemma route_loop_nobody options stack : forall r,
  route_loop w ∅ PROVIDER_LIMITS options stack r = (Ok None, r).
Proof.
  induction stack as [|p rest IH]; intros r; [done|].
  rewrite route_loop_unregistered; [apply IH|]. apply not_elem_of_empty.
Qed.

(** X12: [getAvailableProviders] lists the registered providers, in the default
    priority order.  When it is empty (no API key is configured) [route]
    fails at once, whatever is asked: no provider is called and the router
    is left as it was. *)
Theorem no_key_no_route (is_api_key_valid : string -> bool) :
  let available := getAvailableProviders is_api_key_valid in
  (forall p, p ∈ available <-> p ∈ registered is_api_key_valid) /\
  sublist available defaultStack /\
  NoDup available /\
  (available = [] ->
   forall options r,
     route w (registered is_api_key_valid) PROVIDER_LIMITS options r
     = (Throw (if includeContent options then jina_key_required
               else no_providers_available), r)).
Proof.
  intros available. subst available. split; [|split; [|split]].
  - intros p. unfold registered. by rewrite elem_of_list_to_set.
  - apply sublist_filter.
  - apply NoDup_filter.
    refine (@bool_decide_unpack
              (NoDup ["brave"; "tavily"; "exa"; "jina_search"; "serper"; "youcom"]) _ _).
    vm_compute. exact I.
  - intros Hnone options r.
    assert (Hempty : registered is_api_key_valid = ∅).
    { unfold registered, getAvailableProviders, defaultStack in *. by rewrite Hnone. }
    rewrite Hempty. unfold route.
    destruct (includeContent options).
    + rewrite decide_False by apply not_elem_of_empty. done.
    + rewrite bind_run.
      assert (Hloop : forall stack, route_loop w ∅ PROVIDER_LIMITS options stack r
                                    = (Ok None, r)) by (intros; apply route_loop_nobody).
      rewrite Hloop. rewrite decide_False by apply not_elem_of_empty. done.
Qed.
End Available.

Section Rejected.
Variable w : World.
Variable providers : gset string.
Variable PROVIDER_LIMITS : list (string * LimitConfig).

(** X13: three of the seven names that the type of the [provider] parameter
    lists are not constructed by [UnifiedWebSearchProvider]: selecting
    [jina_search], [serper] or [youcom] explicitly is rejected as invalid
    input, also when the router has that provider registered; nothing is
    called and nothing is booked.  The other four are called. *)
Theorem routed_only_providers_cannot_be_selected params p r :
  explicit_choice params = Some p ->
  p ∈ WebSearchProvider ->
  if decide (p ∈ ["jina_search"; "serper"; "youcom"])
  then unified_search w providers PROVIDER_LIMITS params r
       = (Throw (ProviderError INVALID_INPUT
                   ("Invalid provider: " +:+ p
                    +:+ ". Valid options: tavily, brave, kagi, exa") "web_search"), r)
  else exists e, calls (snd (unified_search w providers PROVIDER_LIMITS params r))
                 = calls r ++ [e] /\ inv_provider e = p /\ inv_via e = ViaExplicit.
Proof.
  intros Hp Hname. unfold unified_search. rewrite Hp.
  assert (Hcases : p = "tavily" \/ p = "brave" \/ p = "kagi" \/ p = "exa" \/
                   p = "jina_search" \/ p = "serper" \/ p = "youcom").
  { unfold WebSearchProvider in Hname.
    repeat (apply elem_of_cons in Hname as [->|Hname]; [tauto|]).
    by apply elem_of_nil in Hname. }
  assert (Hlegacy : forall q, q ∈ legacy_providers ->
            exists e, calls (snd ((results <- provider_search w ViaExplicit q
                         {| sp_query := u_query params; sp_limit := u_limit params;
                            sp_include_content := false |} ;;
                       recordExplicitUsage w PROVIDER_LIMITS q false ;;
                       ret results)%js r)) = calls r ++ [e] /\
                      inv_provider e = q /\ inv_via e = ViaExplicit).
  { intros q _. rewrite bind_run. unfold provider_search.
    destruct (search_outcome _ _ _ _); [|by eexists].
    rewrite bind_run.
    set (r1 := log_call _ _ _ r).
    destruct (recordExplicitUsage_frame w PROVIDER_LIMITS q r1) as [Hcalls _].
    destruct (recordExplicitUsage _ _ _ _ _) as [[[]|?] r2]; unfold ret;
      cbn [snd] in *; rewrite Hcalls; by eexists. }
  destruct (decide (p ∈ ["jina_search"; "serper"; "youcom"])) as [Hin|Hout];
    destruct (decide (p ∈ legacy_providers)) as [Hl|Hnl].
  - exfalso. unfold legacy_providers in Hl.
    repeat (apply elem_of_cons in Hin as [->|Hin];
            [repeat (apply elem_of_cons in Hl as [Hl|Hl]; [discriminate Hl|]);
             by apply elem_of_nil in Hl|]).
    by apply elem_of_nil in Hin.
  - done.
  - by apply Hlegacy.
  - exfalso.
    destruct Hcases as [->|[->|[->|[->|[->|[->| ->]]]]]];
      first [ solve [apply Hnl;
                     repeat first [apply list_elem_of_here | apply list_elem_of_further]]
            | solve [apply Hout;
                     repeat first [apply list_elem_of_here | apply list_elem_of_further]] ].
Qed.
End Rejected.

(** ** Quality search: deduplication *)

Lemma strip_trailing_slash_app (s : string) : strip_trailing_slash (s +:+ "/") = s.
Proof.
  induction s as [|c s IH]; [reflexivity|].
  change (String c s +:+ "/") with (String c (s +:+ "/")).
  cbn [strip_trailing_slash]. rewrite IH.
  by destruct s.
Qed.

Section Deduplicate.
Variable lower : string -> string.

Lemma dedup_loop_spec results : forall seen unique,
  (forall u, u ∈ (normalizedUrl lower <$> unique) <-> u ∈ seen) ->
  NoDup (normalizedUrl lower <$> unique) ->
  exists kept,
    dedup_loop lower results seen unique = unique ++ kept /\
    sublist kept results /\
    NoDup (normalizedUrl lower <$> (unique ++ kept)) /\
    (forall x, x ∈ results -> normalizedUrl lower x ∈ (normalizedUrl lower <$> (unique ++ kept))) /\
    (forall x, x ∈ kept ->
       (normalizedUrl lower x ∉ seen) /\
       (exists l1 l2, results = l1 ++ x :: l2 /\
                      forall y, y ∈ l1 -> normalizedUrl lower y <> normalizedUrl lower x)).
Proof.
  induction results as [|result rest IH]; intros seen unique Hseen Hnd.
  { exists []. cbn. rewrite app_nil_r. repeat split; try done.
    - intros x Hx. by apply elem_of_nil in Hx.
    - by apply elem_of_nil in H.
    - by apply elem_of_nil in H. }
  cbn [dedup_loop]. destruct (decide (normalizedUrl lower result ∈ seen)) as [Hin|Hout].
  - destruct (IH seen unique Hseen Hnd) as (kept & -> & Hsub & Hnd' & Hcov & Hfirst).
    exists kept. split; [done|]. split; [by apply sublist_cons|]. split; [done|].
    split.
    + intros x [->|Hx]%elem_of_cons; [|by apply Hcov].
      rewrite fmap_app. apply elem_of_app. left. by apply Hseen.
    + intros x Hx. destruct (Hfirst x Hx) as (Hnot & l1 & l2 & -> & Hl1).
      split; [done|]. exists (result :: l1), l2. split; [done|].
      intros y [->|Hy]%elem_of_cons; [congruence|by apply Hl1].
  - destruct (IH ({[normalizedUrl lower result]} ∪ seen) (unique ++ [result]))
      as (kept & -> & Hsub & Hnd' & Hcov & Hfirst).
    { intros u. rewrite fmap_app, elem_of_app, Hseen. cbn.
      rewrite list_elem_of_singleton, elem_of_union, elem_of_singleton. tauto. }
    { rewrite fmap_app. apply NoDup_app. split; [done|]. split.
      - intros u Hu. cbn. rewrite list_elem_of_singleton. intros ->.
        by apply Hout, Hseen.
      - cbn. apply NoDup_singleton. }
    exists (result :: kept). rewrite <- app_assoc in *. cbn [app] in *.
    split; [done|]. split; [by apply sublist_skip|]. split; [done|]. split.
    + intros x [->|Hx]%elem_of_cons; [|by apply Hcov].
      rewrite fmap_app. apply elem_of_app. right. cbn. apply list_elem_of_here.
    + intros x [->|Hx]%elem_of_cons.
      * split; [done|]. exists [], rest. split; [done|].
        intros y Hy. by apply elem_of_nil in Hy.
      * destruct (Hfirst x Hx) as (Hnot & l1 & l2 & -> & Hl1).
        split; [intros Hs; apply Hnot, elem_of_union; by right|].
        exists (result :: l1), l2. split; [done|].
        intros y [->|Hy]%elem_of_cons; [|by apply Hl1].
        intros Heq. apply Hnot. rewrite <- Heq. apply elem_of_union. left. by apply elem_of_singleton.
Qed.

Lemma dedup_loop_distinct results : forall seen unique,
  NoDup (normalizedUrl lower <$> results) ->
  (forall x, x ∈ results -> normalizedUrl lower x ∉ seen) ->
  dedup_loop lower results seen unique = unique ++ results.
Proof.
  induction results as [|result rest IH]; intros seen unique Hnd Hnew; cbn.
  { by rewrite app_nil_r. }
  rewrite fmap_cons in Hnd. apply NoDup_cons in Hnd as [Hhead Hnd].
  rewrite decide_False by (apply Hnew, list_elem_of_here).
  rewrite IH; [by rewrite <- app_assoc|done|].
  intros x Hx [Heq%elem_of_singleton|Hin]%elem_of_union.
  - apply Hhead. rewrite <- Heq. by apply list_elem_of_fmap_2.
  - by apply (Hnew x); [apply list_elem_of_further|].
Qed.

Lemma deduplicateByUrl_sublist results : sublist (deduplicateByUrl lower results) results.
Proof.
  unfold deduplicateByUrl.
  destruct (dedup_loop_spec results ∅ []) as (kept & -> & Hsub & _); [|apply NoDup_nil_2|done].
  intros u. cbn. split; [by intros ?%elem_of_nil|by intros ?%elem_of_empty].
Qed.

(** X14: [deduplicateByUrl] keeps, in order, the first result of every URL,
    where two URLs are the same when they agree after lower-casing (whatever
    [toLowerCase] does to them) and dropping one trailing slash; it never
    throws, and running it twice changes nothing. *)
Theorem deduplicateByUrl_keeps_first_of_each_url results :
  let unique := deduplicateByUrl lower results in
  sublist unique results /\
  NoDup (normalizedUrl lower <$> unique) /\
  (forall x, x ∈ results ->
     exists y, y ∈ unique /\ normalizedUrl lower y = normalizedUrl lower x) /\
  (forall x, x ∈ unique ->
     exists l1 l2, results = l1 ++ x :: l2 /\
                   forall y, y ∈ l1 -> normalizedUrl lower y <> normalizedUrl lower x) /\
  deduplicateByUrl lower unique = unique.
Proof.
  intros unique. subst unique. unfold deduplicateByUrl.
  destruct (dedup_loop_spec results ∅ []) as (kept & -> & Hsub & Hnd & Hcov & Hfirst).
  { intros u. cbn. split; [by intros ?%elem_of_nil|by intros ?%elem_of_empty]. }
  { cbn. apply NoDup_nil_2. }
  cbn [app] in *. repeat split; try done.
  - intros x Hx. apply Hcov in Hx. apply list_elem_of_fmap in Hx as (y & Hy & Hin).
    by exists y.
  - intros x Hx. by destruct (Hfirst x Hx) as (_ & H).
  - rewrite dedup_loop_distinct; [done|done|]. intros x _. apply not_elem_of_empty.
Qed.
End Deduplicate.

(** ** Quality search: reranking *)

Lemma Array_at_Some {A} (l : list A) i x :
  Array_at l i = Some x <-> 0 <= i /\ l !! Z.to_nat i = Some x.
Proof.
  unfold Array_at. destruct (Z.ltb_spec i 0).
  - split; [done|]. intros [? _]. lia.
  - split; [by split|]. by intros [_ ?].
Qed.

Lemma Array_at_in_range {A} (l : list A) (r : RerankItem) :
  index_in_range l r <-> is_Some (Array_at l (ri_index r)).
Proof.
  unfold index_in_range, Array_at. destruct (Z.ltb_spec (ri_index r) 0).
  - split; [lia|]. by intros [? ?].
  - rewrite lookup_lt_is_Some. lia.
Qed.

Lemma Array_slice0_sublist {A} n (l : list A) : sublist (Array_slice0 n l) l.
Proof. unfold Array_slice0. apply sublist_take. Qed.

Lemma rerank_map_ok results items : forall position,
  Forall (index_in_range results) items ->
  exists out,
    rerank_map results items position = Ok out /\
    length out = length items /\
    forall i r, items !! i = Some r ->
      exists picked,
        results !! Z.to_nat (ri_index r) = Some picked /\
        out !! i = Some (Reranked
                           {| title := title picked; url := url picked;
                              snippet := snippet picked;
                              source_provider := source_provider picked +:+ "+reranked" |}
                           (position + Z.of_nat i + 1) (ri_relevance_score r)).
Proof.
  induction items as [|r rest IH]; intros position Hall.
  { exists []. by repeat split. }
  apply Forall_cons in Hall as [Hr Hall]. cbn [rerank_map].
  apply Array_at_in_range in Hr as [picked Hpicked]. rewrite Hpicked.
  destruct (IH (position + 1) Hall) as (more & -> & Hlen & Hmore).
  eexists. split; [done|]. split; [cbn; lia|].
  intros [|i] r' Hi; cbn in Hi.
  - injection Hi as <-. exists picked. apply Array_at_Some in Hpicked as [_ ?].
    split; [done|]. cbn. do 2 f_equal. lia.
  - destruct (Hmore i r' Hi) as (picked' & ? & Hout). exists picked'.
    split; [done|].
    replace (position + Z.of_nat (S i) + 1) with (position + 1 + Z.of_nat i + 1) by lia.
    exact Hout.
Qed.

Lemma rerank_map_throws results items : forall position,
  ~ Forall (index_in_range results) items ->
  exists e, rerank_map results items position = Throw e.
Proof.
  induction items as [|r rest IH]; intros position Hbad.
  { destruct Hbad. apply Forall_nil_2. }
  cbn [rerank_map]. destruct (Array_at results (ri_index r)) as [picked|] eqn:Hat;
    [|by eexists].
  destruct (IH (position + 1)) as [e ->]; [|by eexists].
  intros Hall. apply Hbad. apply Forall_cons. split; [|done].
  apply Array_at_in_range. by rewrite Hat.
Qed.

Section Rerank.
Variable http_rerank : RerankRequest -> nat -> outcome (option (list RerankItem)).

Lemma rerank_returns api_key query results topN s :
  exists out request,
    rerank http_rerank api_key query results topN s
    = (Ok out, {| qs_router := qs_router s; qs_reranks := qs_reranks s ++ [request] |}) /\
    forall x, x ∈ out -> exists y, y ∈ results /\ drawn_from x y.
Proof.
  assert (Hfallback : forall x, x ∈ map Unranked (Array_slice0 topN results) ->
            exists y, y ∈ results /\ drawn_from x y).
  { intros x (y & -> & Hy)%list_elem_of_fmap. exists y. split; [|done].
    eapply elem_of_sublist; [done|apply Array_slice0_sublist]. }
  unfold rerank. unfold try_catch. rewrite bind_run. unfold post_rerank.
  destruct (http_rerank _ (length (qs_reranks s))) as [[items|]|e];
    try (eexists _, _; split; [reflexivity|exact Hfallback]).
  destruct (decide (Forall (index_in_range results) items)) as [Hall|Hbad].
  - destruct (rerank_map_ok results items 0 Hall) as (out & -> & Hlen & Hout).
    eexists out, _. split; [done|].
    intros x (i & Hi)%list_elem_of_lookup.
    destruct (lookup_lt_is_Some_2 items i) as [r Hr].
    { rewrite <- Hlen. by apply lookup_lt_is_Some_1. }
    destruct (Hout i r Hr) as (picked & Hpicked & Hx).
    exists picked. split; [by eapply list_elem_of_lookup_2|].
    rewrite Hi in Hx. by injection Hx as ->.
  - destruct (rerank_map_throws results items 0 Hbad) as [e ->].
    eexists _, _. split; [reflexivity|exact Hfallback].
Qed.

(** X15: [rerank] never throws and sends exactly one request.  When the reranker
    answers with an array whose indices all point into [results], the answer
    is followed entry by entry (as many results as the reranker listed,
    positions counted from 1); in every other case (the request fails, the
    body has no [results] array, some index is out of range) the first
    [topN] results come back unranked. *)
Theorem rerank_never_throws api_key query results topN s :
  let request :=
    {| rq_api_key := api_key; rq_model := "jina-reranker-v3"; rq_query := query;
       rq_documents := map (fun r => title r +:+ newline +:+ snippet r) results;
       rq_top_n := Z.min topN (Z.of_nat (length results)) |} in
  exists out,
    rerank http_rerank api_key query results topN s
    = (Ok out, {| qs_router := qs_router s; qs_reranks := qs_reranks s ++ [request] |}) /\
    (forall x, x ∈ out -> exists y, y ∈ results /\ drawn_from x y) /\
    match http_rerank request (length (qs_reranks s)) with
    | Ok (Some items) =>
        (Forall (index_in_range results) items ->
           length out = length items /\
           forall i r, items !! i = Some r ->
             exists picked, results !! Z.to_nat (ri_index r) = Some picked /\
                            out !! i = Some (reranked picked i r)) /\
        (~ Forall (index_in_range results) items ->
           out = map Unranked (Array_slice0 topN results))
    | _ => out = map Unranked (Array_slice0 topN results)
    end.
Proof.
  intros request.
  assert (Hfallback : forall x, x ∈ map Unranked (Array_slice0 topN results) ->
            exists y, y ∈ results /\ drawn_from x y).
  { intros x (y & -> & Hy)%list_elem_of_fmap. exists y. split; [|done].
    eapply elem_of_sublist; [done|apply Array_slice0_sublist]. }
  unfold rerank. fold request. unfold try_catch. rewrite bind_run.
  unfold post_rerank.
  destruct (http_rerank request (length (qs_reranks s))) as [[items|]|e];
    try (eexists; split; [reflexivity|]; split; [exact Hfallback|reflexivity]).
  destruct (decide (Forall (index_in_range results) items)) as [Hall|Hbad].
  - destruct (rerank_map_ok results items 0 Hall) as (out & -> & Hlen & Hout).
    exists out. split; [done|]. split.
    + intros x (i & Hi)%list_elem_of_lookup.
      destruct (lookup_lt_is_Some_2 items i) as [r Hr].
      { rewrite <- Hlen. by apply lookup_lt_is_Some_1. }
      destruct (Hout i r Hr) as (picked & Hpicked & Hx).
      exists picked. split; [by eapply list_elem_of_lookup_2|].
      rewrite Hi in Hx. by injection Hx as ->.
    + split; [|done]. intros _. split; [done|].
      intros i r Hr. destruct (Hout i r Hr) as (picked & ? & Hx).
      exists picked. split; [done|]. rewrite Hx. unfold reranked. do 2 f_equal.
  - destruct (rerank_map_throws results items 0 Hbad) as [e ->].
    eexists. split; [reflexivity|]. split; [exact Hfallback|]. by split.
Qed.
End Rerank.

(** ** Quality search: the search *)

Lemma collect_none names : forall providerResults,
  Forall (fun answer => ~ has_results answer) providerResults ->
  collect names providerResults = ([], []).
Proof.
  induction names as [|name names IH]; intros [|answer rest] Hall; try done.
  apply Forall_cons in Hall as [Hno Hall]. cbn [collect]. rewrite (IH rest Hall).
  destruct answer as [[|first more]|e]; try done.
  destruct Hno. by exists first, more.
Qed.

Lemma collect_some names : forall providerResults,
  length names = length providerResults ->
  Exists has_results providerResults ->
  fst (collect names providerResults) <> [].
Proof.
  induction names as [|name names IH]; intros [|answer rest] Hlen Hex; try done.
  { by apply Exists_nil in Hex. }
  cbn [collect]. destruct (collect names rest) as [allResults successful] eqn:Hc.
  apply Exists_cons in Hex as [(first & more & ->)|Hex]; [done|].
  destruct answer as [[|first more]|e]; try done;
    cbn [fst]; change allResults with (fst (allResults, successful));
    rewrite <- Hc; apply IH; cbn in Hlen; by try lia.
Qed.

Lemma collect_from_answers names : forall providerResults x,
  x ∈ fst (collect names providerResults) ->
  exists i name found,
    names !! i = Some name /\ providerResults !! i = Some (Ok found) /\ x ∈ found.
Proof.
  induction names as [|name names IH]; intros [|answer rest] x Hx;
    try (by apply elem_of_nil in Hx).
  cbn [collect] in Hx. destruct (collect names rest) as [allResults successful] eqn:Hc.
  assert (Hrest : x ∈ allResults ->
            exists i name0 found, (name :: names) !! i = Some name0 /\
              (answer :: rest) !! i = Some (Ok found) /\ x ∈ found).
  { intros Hin. destruct (IH rest x) as (i & name0 & found & ? & ? & ?).
    { by rewrite Hc. }
    by exists (S i), name0, found. }
  destruct answer as [[|first more]|e]; cbn [fst] in Hx; try by apply Hrest.
  apply elem_of_app in Hx as [Hx|Hx]; [|by apply Hrest].
  by exists 0%nat, name, (first :: more).
Qed.

Lemma collect_charges_only_results names : forall providerResults,
  fst (collect names providerResults) = [] -> snd (collect names providerResults) = [].
Proof.
  induction names as [|name names IH]; intros [|answer rest]; try done.
  cbn [collect]. specialize (IH rest).
  destruct (collect names rest) as [allResults successful].
  destruct answer as [[|first more]|e]; cbn [fst snd] in *; try done.
Qed.

Section QualitySearch.
Variable w : World.
Variable PROVIDER_LIMITS : list (string * LimitConfig).
Variable sourceProviders : list string.
Variable validate_api_key : outcome string.
Variable handle_provider_error : exn -> string -> string -> exn.
Variable http_rerank : RerankRequest -> nat -> outcome (option (list RerankItem)).
Variable String_toLowerCase : string -> string.

Local Abbreviation run_search :=
  (quality_search w PROVIDER_LIMITS sourceProviders validate_api_key
     handle_provider_error http_rerank String_toLowerCase).

Lemma search_all_run names params : forall r,
  exists r',
    search_all w names params r = (Ok (answers w names params (length (calls r))), r') /\
    storage r' = storage r /\ circuitState r' = circuitState r /\
    ticks r' = ticks r /\ requests r' = requests r /\
    calls r' = calls r ++ map (source_call r params) names.
Proof.
  induction names as [|name names IH]; intros r.
  { exists r. cbn. rewrite app_nil_r. by repeat split. }
  cbn [search_all]. rewrite bind_run. unfold settled, provider_search.
  set (r1 := log_call name params ViaExplicit r).
  destruct (IH r1) as (r' & Hrun & Hsto & Hcirc & Hticks & Hreqs & Hcalls).
  rewrite bind_run, Hrun. exists r'. unfold ret. split.
  - do 3 f_equal. unfold answers. cbn [imap]. f_equal; [by rewrite Nat.add_0_r|].
    apply imap_ext. intros i x _. cbn. subst r1. cbn. rewrite length_app. cbn.
    f_equal. lia.
  - rewrite Hsto, Hcirc, Hticks, Hreqs, Hcalls. subst r1. cbn. rewrite <- app_assoc.
    by repeat split.
Qed.

Lemma store_serves_later r r' :
  store_serves w r -> (requests r <= requests r')%nat -> store_serves w r'.
Proof. intros Hserves Hle n Hn. apply Hserves. lia. Qed.

(** A booking that the store takes. *)
Lemma recordExplicitUsage_served p r :
  storage_error w (requests r) = None ->
  exists r', recordExplicitUsage w PROVIDER_LIMITS p false r = (Ok tt, r') /\
             calls r' = calls r /\ circuitState r' = circuitState r /\
             (requests r <= requests r')%nat /\
             storage r' =
               match table_lookup PROVIDER_LIMITS p with
               | Some cfg =>
                   incremented (storage_key_at cfg p (clock w (ticks r))) (storage r)
               | None => storage r
               end.
Proof.
  intros Hstore. destruct (table_lookup PROVIDER_LIMITS p) as [cfg|] eqn:Hcfg.
  - rewrite (recordExplicitUsage_is_recordUsage w PROVIDER_LIMITS p cfg r Hcfg).
    rewrite (recordUsage_run w PROVIDER_LIMITS p cfg false r Hcfg). cbv zeta.
    rewrite Hstore. eexists. split; [reflexivity|].
    destruct (keyed_frame cfg r) as (Hs & Hc & Hcs & Hq & _).
    cbn [calls circuitState requests storage set_storage asked].
    rewrite Hs, Hc, Hcs, Hq. repeat split; auto.
  - rewrite (recordExplicitUsage_unknown w PROVIDER_LIMITS p false r Hcfg).
    exists r. repeat split; auto.
Qed.

Lemma record_all_served names : forall r,
  store_serves w r ->
  exists r', record_all w PROVIDER_LIMITS names r = (Ok tt, r') /\
             calls r' = calls r /\ circuitState r' = circuitState r /\
             (requests r <= requests r')%nat.
Proof.
  induction names as [|name names IH]; intros r Hserves.
  { exists r. by repeat split. }
  cbn [record_all]. rewrite bind_run.
  destruct (recordExplicitUsage_served name r) as (r1 & -> & Hcalls & Hcirc & Hreqs & _).
  { by apply Hserves. }
  destruct (IH r1) as (r' & -> & Hcalls' & Hcirc' & Hreqs').
  { by apply (store_serves_later r). }
  exists r'. split; [done|]. repeat split; try congruence. lia.
Qed.

(** The guarded part of [quality_search], once the key is there and as long
    as the usage store takes the bookings. *)
Lemma quality_search_run params s api_key :
  validate_api_key = Ok api_key ->
  let sent := {| sp_query := sp_query params;
                 sp_limit := Some (perProviderLimit params);
                 sp_include_content := false |} in
  let r := qs_router s in
  let found := answers w sourceProviders sent (length (calls r)) in
  (fst (collect sourceProviders found) <> [] -> store_serves w r) ->
  exists r1,
    calls r1 = calls r ++ map (source_call r sent) sourceProviders /\
    circuitState r1 = circuitState r /\
    (fst (collect sourceProviders found) = [] ->
     storage r1 = storage r /\ requests r1 = requests r) /\
    run_search params s =
      let s1 := {| qs_router := r1; qs_reranks := qs_reranks s |} in
      match fst (collect sourceProviders found) with
      | [] => (Throw all_sources_failed, s1)
      | _ =>
          let uniqueResults :=
            deduplicateByUrl String_toLowerCase (fst (collect sourceProviders found)) in
          if (length uniqueResults <=? 3)%nat
          then (Ok (map Unranked uniqueResults), s1)
          else rerank http_rerank api_key (sp_query params) uniqueResults
                 (quality_limit params) s1
      end.
Proof.
  intros Hkey sent r found Hserves. unfold quality_search. rewrite Hkey.
  fold sent. unfold try_catch. rewrite bind_run. unfold on_router at 1.
  destruct (search_all_run sourceProviders sent (qs_router s))
    as (r0 & -> & Hsto0 & Hcirc0 & _ & Hreqs0 & Hcalls0).
  subst r found. cbn [qs_router qs_reranks].
  pose proof (collect_charges_only_results sourceProviders
                (answers w sourceProviders sent (length (calls (qs_router s))))) as Hnone.
  destruct (collect sourceProviders _) as [allResults successful] eqn:Hc.
  rewrite bind_run. unfold on_router. cbn [qs_router qs_reranks fst snd] in *.
  assert (Hrec : exists r1,
            record_all w PROVIDER_LIMITS successful r0 = (Ok tt, r1) /\
            calls r1 = calls r0 /\ circuitState r1 = circuitState r0 /\
            (allResults = [] -> r1 = r0)).
  { destruct allResults as [|first more].
    - rewrite Hnone by done. exists r0. by repeat split.
    - destruct (record_all_served successful r0) as (r1 & ? & ? & ? & _).
      { apply (store_serves_later (qs_router s)); [by apply Hserves|lia]. }
      exists r1. by repeat split. }
  destruct Hrec as (r1 & Hrec & Hcalls1 & Hcirc1 & Hsame).
  rewrite Hrec. exists r1. split; [congruence|]. split; [congruence|]. split.
  - intros Hnil. rewrite (Hsame Hnil). by split.
  - destruct allResults as [|first more]; [done|].
    destruct (Nat.leb _ _); [done|].
    destruct (rerank_returns http_rerank api_key (sp_query params)
                (deduplicateByUrl String_toLowerCase (first :: more))
                (quality_limit params)
                {| qs_router := r1; qs_reranks := qs_reranks s |})
      as (out & request & -> & _).
    done.
Qed.

Lemma answers_lookup names params n0 i name :
  names !! i = Some name ->
  answers w names params n0 !! i = Some (search_outcome w name params (n0 + i)).
Proof. intros H. unfold answers. by rewrite list_lookup_imap, H. Qed.

Lemma answers_length names params n0 :
  length (answers w names params n0) = length names.
Proof. apply length_imap. Qed.

(** X16: without the Jina key the search fails with what [validate_api_key]
    threw, before any source is called and with nothing changed.  With the
    key, when no source returns a result, it fails with the "all source
    providers failed" error after every source was called once, in order;
    nothing is booked, the usage store is not asked, the circuit breaker is
    not touched and the reranker is not contacted. *)
Theorem quality_search_fails_without_results params s :
  let sent := {| sp_query := sp_query params;
                 sp_limit := Some (perProviderLimit params);
                 sp_include_content := false |} in
  let r := qs_router s in
  (forall e0, validate_api_key = Throw e0 -> run_search params s = (Throw e0, s)) /\
  (forall api_key,
     validate_api_key = Ok api_key ->
     Forall (fun answer => ~ has_results answer)
            (answers w sourceProviders sent (length (calls r))) ->
     exists s',
       run_search params s = (Throw all_sources_failed, s') /\
       storage (qs_router s') = storage r /\
       requests (qs_router s') = requests r /\
       circuitState (qs_router s') = circuitState r /\
       qs_reranks s' = qs_reranks s /\
       calls (qs_router s') = calls r ++ map (source_call r sent) sourceProviders).
Proof.
  intros sent r. split.
  - intros e0 Hkey. unfold quality_search. by rewrite Hkey.
  - intros api_key Hkey Hnone.
    destruct (quality_search_run params s api_key Hkey)
      as (r1 & Hcalls & Hcirc & Hsto & ->).
    { fold sent r. by rewrite (collect_none _ _ Hnone). }
    fold sent r in Hcalls, Hsto |- *.
    rewrite (collect_none _ _ Hnone) in Hsto |- *. cbn [fst] in *.
    destruct (Hsto eq_refl) as [Hs Hq].
    eexists. split; [reflexivity|]. cbn [qs_router qs_reranks]. by repeat split.
Qed.

(** X17: with the key, and as long as the usage store takes the bookings,
    the search succeeds as soon as one source returns a result, whatever the
    other sources and the reranker do.  Every source is called once, in
    order; every result returned was found by a source; the circuit breaker
    is not touched; and the reranker is asked at most once, and not at all
    when at most three distinct URLs were found. *)
Theorem quality_search_succeeds_when_a_source_answers params s api_key :
  validate_api_key = Ok api_key ->
  let sent := {| sp_query := sp_query params;
                 sp_limit := Some (perProviderLimit params);
                 sp_include_content := false |} in
  let r := qs_router s in
  let found := answers w sourceProviders sent (length (calls r)) in
  let uniqueResults :=
    deduplicateByUrl String_toLowerCase (fst (collect sourceProviders found)) in
  Exists has_results found ->
  store_serves w r ->
  exists out s',
    run_search params s = (Ok out, s') /\
    (forall q, q ∈ out ->
       exists i name hits x,
         sourceProviders !! i = Some name /\
         search_outcome w name sent (length (calls r) + i) = Ok hits /\
         x ∈ hits /\ drawn_from q x) /\
    calls (qs_router s') = calls r ++ map (source_call r sent) sourceProviders /\
    circuitState (qs_router s') = circuitState r /\
    if (length uniqueResults <=? 3)%nat
    then out = map Unranked uniqueResults /\ qs_reranks s' = qs_reranks s
    else exists request, qs_reranks s' = qs_reranks s ++ [request].
Proof.
  intros Hkey sent r found uniqueResults Hsome Hserves.
  destruct (quality_search_run params s api_key Hkey)
    as (r1 & Hcalls & Hcirc & _ & ->); [done|].
  fold sent r found uniqueResults in Hcalls |- *.
  assert (Hne : fst (collect sourceProviders found) <> []).
  { apply collect_some; [|done]. subst found. by rewrite answers_length. }
  assert (Hsource : forall x, x ∈ uniqueResults ->
            exists i name hits,
              sourceProviders !! i = Some name /\
              search_outcome w name sent (length (calls r) + i) = Ok hits /\ x ∈ hits).
  { intros x Hx.
    pose proof (deduplicateByUrl_sublist String_toLowerCase
                  (fst (collect sourceProviders found))) as Hsub.
    destruct (collect_from_answers sourceProviders found x)
      as (i & name & hits & Hname & Hans & Hin).
    { eapply elem_of_sublist; [exact Hx|exact Hsub]. }
    exists i, name, hits. split; [done|]. split; [|done].
    subst found. rewrite (answers_lookup _ _ _ _ _ Hname) in Hans. congruence. }
  destruct (fst (collect sourceProviders found)) as [|first more] eqn:Hall; [done|].
  subst uniqueResults. cbv zeta.
  set (uniqueResults := deduplicateByUrl String_toLowerCase (first :: more)) in *.
  destruct (Nat.leb (length uniqueResults) 3) eqn:Hfew.
  - eexists _, _. split; [reflexivity|]. cbn [qs_router qs_reranks]. split.
    + intros q (x & -> & Hx)%list_elem_of_fmap.
      destruct (Hsource x Hx) as (i & name & hits & ? & ? & ?).
      by exists i, name, hits, x.
    + by repeat split.
  - destruct (rerank_returns http_rerank api_key (sp_query params) uniqueResults
                (quality_limit params) {| qs_router := r1; qs_reranks := qs_reranks s |})
      as (out & request & -> & Hdrawn).
    eexists _, _. split; [reflexivity|]. cbn [qs_router qs_reranks]. split.
    + intros q Hq. destruct (Hdrawn q Hq) as (x & Hx & ?).
      destruct (Hsource x Hx) as (i & name & hits & ? & ? & ?).
      by exists i, name, hits, x.
    + repeat split; try done. by exists request.
Qed.

End QualitySearch.

(** ** Quality search: what it costs *)




Section Charging.
Variable w : World.
Variable PROVIDER_LIMITS : list (string * LimitConfig).
Variable sourceProviders : list string.
Variable validate_api_key : outcome string.
Variable handle_provider_error : exn -> string -> string -> exn.
Variable http_rerank : RerankRequest -> nat -> outcome (option (list RerankItem)).
Variable String_toLowerCase : string -> string.


End Charging.

(** ** Progress bars *)

Lemma Qfloor_unique (n : Z) (v : Q) :
  (inject_Z n <= v)%Q -> (v < inject_Z n + 1)%Q -> Qfloor v = n.
Proof.
  intros Hle Hlt. apply Z.le_antisymm.
  - apply Z.lt_succ_r. rewrite Zlt_Qlt. unfold Z.succ.
    rewrite inject_Z_plus. pose proof (Qfloor_le v). change (inject_Z 1) with 1%Q. lra.
  - rewrite <- (Qfloor_Z n). by apply Qfloor_resp_le.
Qed.

Lemma Number_trunc_Z (q : Q) (z : Z) : (q == inject_Z z)%Q -> Number_trunc q = z.
Proof.
  intros Hq. unfold Number_trunc.
  rewrite (Qfloor_comp _ _ Hq), (Qceiling_comp _ _ Hq), Qfloor_Z, Qceiling_Z.
  by destruct (Qle_bool 0 q).
Qed.

Lemma inject_Z_half (m : Z) : (m # 2 == inject_Z m / 2)%Q.
Proof. rewrite Qmake_Qdiv. reflexivity. Qed.

(** [lra] with the divisions by 2 and 10 written as products. *)
Ltac qlra :=
  unfold Qdiv in *;
  change (/ 10)%Q with (1 # 10)%Q in *; change (/ 2)%Q with (1 # 2)%Q in *;
  lra.

Section Bars.
Variable fl : Q -> Q.
Hypothesis fl_ok : rounds_like_double fl.

Local Abbreviation eps := (1 # 9007199254740992)%Q.

Lemma fl_above (q : Q) :
  (0 <= q -> q * (1 - eps) <= fl q /\ fl q <= q * (1 + eps))%Q.
Proof.
  intros Hq. destruct fl_ok as (Hacc & _ & _). specialize (Hacc q).
  rewrite (Qabs_pos q Hq) in Hacc. apply Qabs_Qle_condition in Hacc. lra.
Qed.

Lemma fl_below (q : Q) :
  (q <= 0 -> q * (1 + eps) <= fl q /\ fl q <= q * (1 - eps))%Q.
Proof.
  intros Hq. destruct fl_ok as (Hacc & _ & _). specialize (Hacc q).
  rewrite (Qabs_neg q Hq) in Hacc. apply Qabs_Qle_condition in Hacc. lra.
Qed.

Lemma fl_half (q : Q) (m : Z) :
  Z.abs m <= 2 ^ 53 -> (q == inject_Z m / 2)%Q -> (fl q == inject_Z m / 2)%Q.
Proof.
  intros Hm Hq. destruct fl_ok as (_ & Hexact & Hproper).
  rewrite <- inject_Z_half in *. rewrite (Hproper _ _ Hq). by apply Hexact.
Qed.

Lemma fl_int (q : Q) (z : Z) :
  Z.abs z <= 2 ^ 52 -> (q == inject_Z z)%Q -> (fl q == inject_Z z)%Q.
Proof.
  intros Hz Hq. rewrite (fl_half q (2 * z)).
  - rewrite inject_Z_mult. change (inject_Z 2) with 2%Q. field.
  - change (2 ^ 53) with (2 * 2 ^ 52). lia.
  - rewrite Hq, inject_Z_mult. change (inject_Z 2) with 2%Q. field.
Qed.

(** [Math.round(pct / 10)] for an integer [pct]. *)
Lemma round_tenth (pct : Z) :
  -5 <= pct <= 104 ->
  Qfloor (fl (inject_Z pct / inject_Z 10) + (1 # 2)) = (pct + 5) / 10.
Proof.
  intros Hpct.
  pose proof (Z.div_mod pct 10 ltac:(done)) as Hdm.
  pose proof (Z.mod_pos_bound pct 10 ltac:(done)) as Hj.
  set (k := pct / 10) in *. set (j := pct mod 10) in *. clearbody k j.
  assert (Hk : -1 <= k <= 10) by lia.
  assert (HX : (inject_Z pct == 10 * inject_Z k + inject_Z j)%Q).
  { rewrite Hdm, inject_Z_plus, inject_Z_mult. reflexivity. }
  assert (HK : (-1 <= inject_Z k <= 10)%Q).
  { split; [change (-1)%Q with (inject_Z (-1))|change 10%Q with (inject_Z 10)];
      rewrite <- Zle_Qle; lia. }
  change (inject_Z 10) with 10%Q.
  destruct (decide (j = 5)) as [Hfive|Hother].
  - assert (Hy : (fl (inject_Z pct / 10) == inject_Z (2 * k + 1) / 2)%Q).
    { apply fl_half; [change (2 ^ 53) with 9007199254740992; lia|].
      rewrite HX, Hfive, inject_Z_plus, inject_Z_mult.
      change (inject_Z 5) with 5%Q. change (inject_Z 2) with 2%Q.
      change (inject_Z 1) with 1%Q. field. }
    replace ((pct + 5) / 10) with (k + 1) by (Z.to_euclidean_division_equations; lia).
    assert (H2k : (inject_Z (2 * k + 1) == 2 * inject_Z k + 1)%Q)
      by (rewrite inject_Z_plus, inject_Z_mult; reflexivity).
    assert (Hk1 : (inject_Z (k + 1) == inject_Z k + 1)%Q)
      by (rewrite inject_Z_plus; reflexivity).
    apply Qfloor_unique; qlra.
  - assert (HJ : (0 <= inject_Z j <= 9)%Q).
    { split; [change 0%Q with (inject_Z 0)|change 9%Q with (inject_Z 9)];
        rewrite <- Zle_Qle; lia. }
    set (x := (inject_Z pct / 10)%Q).
    assert (Hx : (x == inject_Z k + inject_Z j / 10)%Q) by (subst x; rewrite HX; field).
    assert (Herr : (x - (1 # 20) <= fl x <= x + (1 # 20))%Q).
    { destruct (Qlt_le_dec x 0) as [Hneg|Hpos].
      - destruct (fl_below x) as [? ?]; qlra.
      - destruct (fl_above x Hpos) as [? ?]. qlra. }
    destruct (Z_lt_le_dec j 5) as [Hlow|Hhigh].
    + assert (HJ' : (inject_Z j <= 4)%Q)
        by (change 4%Q with (inject_Z 4); rewrite <- Zle_Qle; lia).
      replace ((pct + 5) / 10) with k by (Z.to_euclidean_division_equations; lia).
      apply Qfloor_unique; qlra.
    + assert (HJ' : (6 <= inject_Z j)%Q)
        by (change 6%Q with (inject_Z 6); rewrite <- Zle_Qle; lia).
      replace ((pct + 5) / 10) with (k + 1) by (Z.to_euclidean_division_equations; lia).
      assert (Hk1 : (inject_Z (k + 1) == inject_Z k + 1)%Q)
        by (rewrite inject_Z_plus; reflexivity).
      apply Qfloor_unique; qlra.
Qed.

Lemma round_tenth_over (pct : Z) :
  105 <= pct -> 11 <= Qfloor (fl (inject_Z pct / inject_Z 10) + (1 # 2)).
Proof.
  intros Hpct. change (inject_Z 10) with 10%Q.
  rewrite <- (Qfloor_Z 11). apply Qfloor_resp_le. change (inject_Z 11) with 11%Q.
  destruct (decide (pct = 105)) as [->|Hne].
  - rewrite (fl_half _ 21); [|done|].
    + change (inject_Z 21) with 21%Q. qlra.
    + change (inject_Z 105) with 105%Q. change (inject_Z 21) with 21%Q. field.
  - assert (HX : (106 <= inject_Z pct)%Q)
      by (change 106%Q with (inject_Z 106); rewrite <- Zle_Qle; lia).
    destruct (fl_above (inject_Z pct / 10)) as [? _]; qlra.
Qed.

Lemma round_tenth_under (pct : Z) :
  pct <= -6 -> Qfloor (fl (inject_Z pct / inject_Z 10) + (1 # 2)) < 0.
Proof.
  intros Hpct. change (inject_Z 10) with 10%Q.
  assert (HX : (inject_Z pct <= -6)%Q)
    by (change (-6)%Q with (inject_Z (-6)); rewrite <- Zle_Qle; lia).
  destruct (fl_below (inject_Z pct / 10)) as [_ Hy]; [qlra|].
  rewrite Zlt_Qlt. eapply Qle_lt_trans; [apply Qfloor_le|].
  change (inject_Z 0) with 0%Q. qlra.
Qed.

Lemma String_repeat_int s (z : Z) :
  String_repeat s (Num (inject_Z z))
  = if z <? 0 then None else Some (repeat_string s (Z.to_nat z)).
Proof. unfold String_repeat. by rewrite (Number_trunc_Z _ z). Qed.

Lemma empty_cells (s : string) (f : Z) :
  Z.abs f <= 2 ^ 51 ->
  String_repeat s (Number_from fl 10 (Num (inject_Z f)))
  = if 10 <? f then None else Some (repeat_string s (Z.to_nat (10 - f))).
Proof.
  intros Hf. unfold Number_from, String_repeat.
  rewrite (Number_trunc_Z _ (10 - f)).
  - destruct (Z.ltb_spec (10 - f) 0), (Z.ltb_spec 10 f); try lia; done.
  - apply fl_int.
    + change (2 ^ 52) with (2 * 2 ^ 51). lia.
    + unfold Z.sub. rewrite inject_Z_plus, inject_Z_opp. reflexivity.
Qed.

Lemma empty_cells_over (s : string) (f : Z) :
  11 <= f -> String_repeat s (Number_from fl 10 (Num (inject_Z f))) = None.
Proof.
  intros Hf. unfold Number_from, String_repeat.
  assert (Hneg : (fl (inject_Z 10 - inject_Z f) <= -1)%Q).
  { change (inject_Z 10) with 10%Q. destruct (decide (f = 11)) as [->|Hne].
    - rewrite (fl_int _ (-1)); [done|done|]. reflexivity.
    - assert (HF : (12 <= inject_Z f)%Q)
        by (change 12%Q with (inject_Z 12); rewrite <- Zle_Qle; lia).
      destruct (fl_below (10 - inject_Z f)) as [_ ?]; qlra. }
  assert (Htrunc : Number_trunc (fl (inject_Z 10 - inject_Z f)) < 0).
  { unfold Number_trunc. destruct (Qle_bool 0 _) eqn:Hsign.
    - apply Qle_bool_iff in Hsign. qlra.
    - apply Z.lt_le_trans with (Qceiling (-1) + 1); [|done].
      apply Z.lt_succ_r. change (Qceiling (-1)) with (-1).
      change (-1) with (Qceiling (inject_Z (-1))). apply Qceiling_resp_le.
      by change (inject_Z (-1)) with (-1)%Q. }
  destruct (Z.ltb_spec (Number_trunc (fl (inject_Z 10 - inject_Z f))) 0); [done|lia].
Qed.

Lemma getProgressBar_cells (pct : Z) :
  -5 <= pct <= 104 ->
  getProgressBar fl (Num (inject_Z pct)) = Some (bar (Z.to_nat ((pct + 5) / 10))) /\
  (Z.to_nat ((pct + 5) / 10) <= 10)%nat.
Proof.
  intros Hpct. unfold getProgressBar, Number_over, Math_round.
  rewrite (round_tenth pct Hpct). set (f := (pct + 5) / 10).
  assert (Hf : 0 <= f <= 10) by (subst f; Z.to_euclidean_division_equations; lia).
  clearbody f. rewrite String_repeat_int, empty_cells by (change (2 ^ 51) with 2251799813685248; lia).
  destruct (Z.ltb_spec f 0), (Z.ltb_spec 10 f); try lia.
  split; [|lia]. unfold bar. by replace (Z.to_nat (10 - f)) with (10 - Z.to_nat f)%nat by lia.
Qed.

Lemma getProgressBar_overflow (pct : Z) :
  pct <= -6 \/ 105 <= pct -> getProgressBar fl (Num (inject_Z pct)) = None.
Proof.
  intros Hpct. unfold getProgressBar, Number_over, Math_round.
  destruct Hpct as [Hlow|Hhigh].
  - pose proof (round_tenth_under pct Hlow) as Hf.
    rewrite String_repeat_int.
    destruct (Z.ltb_spec (Qfloor (fl (inject_Z pct / inject_Z 10) + (1 # 2))) 0);
      [done|lia].
  - pose proof (round_tenth_over pct Hhigh) as Hf.
    rewrite (empty_cells_over _ _ Hf). by destruct (String_repeat _ _).
Qed.

(** X19: [getProgressBar] draws ten cells for a percentage from -5 to 104 and
    throws a [RangeError] for every other integer: from 105 on the number of
    empty cells is negative.  For [NaN] it draws no cell at all. *)
Theorem getProgressBar_range (pct : Z) :
  (-5 <= pct <= 104 ->
     getProgressBar fl (Num (inject_Z pct)) = Some (bar (Z.to_nat ((pct + 5) / 10))) /\
     (Z.to_nat ((pct + 5) / 10) <= 10)%nat) /\
  (pct <= -6 \/ 105 <= pct -> getProgressBar fl (Num (inject_Z pct)) = None) /\
  getProgressBar fl NaN = Some "[]" /\
  getProgressBar fl PosInfinity = None.
Proof.
  split; [apply getProgressBar_cells|]. split; [apply getProgressBar_overflow|].
  by split.
Qed.

(** The percentage of an entry with a positive limit. *)
Lemma pct_of_entry (used limit : Z) :
  0 < limit -> 0 <= used ->
  let pct := Qfloor (fl (fl (inject_Z used / inject_Z limit) * inject_Z 100) + (1 # 2)) in
  (used <= limit -> 0 <= pct <= 100) /\
  (21 * limit <= 20 * used -> 105 <= pct).
Proof.
  intros Hlimit Hused pct. subst pct. change (inject_Z 100) with 100%Q.
  set (t := (inject_Z used / inject_Z limit)%Q).
  assert (HL : (0 < inject_Z limit)%Q)
    by (change 0%Q with (inject_Z 0); by rewrite <- Zlt_Qlt).
  assert (Ht0 : (0 <= t)%Q).
  { subst t. apply Qle_shift_div_l; [done|]. rewrite Qmult_0_l.
    change 0%Q with (inject_Z 0). by rewrite <- Zle_Qle. }
  destruct (fl_above t Ht0) as [Ha1 Ha2].
  assert (Ha0 : (0 <= fl t * 100)%Q) by lra.
  destruct (fl_above (fl t * 100) Ha0) as [Hb1 Hb2].
  split.
  - intros Hle.
    assert (Ht1 : (t <= 1)%Q).
    { subst t. apply Qle_shift_div_r; [done|]. rewrite Qmult_1_l. by rewrite <- Zle_Qle. }
    split.
    + rewrite <- (Qfloor_Z 0). apply Qfloor_resp_le. change (inject_Z 0) with 0%Q. lra.
    + apply Z.lt_succ_r. rewrite Zlt_Qlt. eapply Qle_lt_trans; [apply Qfloor_le|].
      change (inject_Z (Z.succ 100)) with 101%Q. lra.
  - intros Hover.
    assert (Ht1 : ((21 # 20) <= t)%Q).
    { subst t. apply Qle_shift_div_l; [done|].
      assert (Hq : (21 * inject_Z limit <= 20 * inject_Z used)%Q).
      { change 21%Q with (inject_Z 21). change 20%Q with (inject_Z 20).
        rewrite <- !inject_Z_mult, <- Zle_Qle. lia. }
      lra. }
    rewrite <- (Qfloor_Z 105). apply Qfloor_resp_le. change (inject_Z 105) with 105%Q. lra.
Qed.

Lemma entry_bar_within (data : UsageEntry) :
  0 < ue_limit data -> 0 <= ue_used data <= ue_limit data ->
  exists filled, (filled <= 10)%nat /\ entry_bar fl data = Some (bar filled).
Proof.
  unfold entry_bar, Number_div, Number_times, Math_round.
  intros Hlimit Hused. destruct (Z.eqb_spec (ue_limit data) 0); [lia|].
  destruct (pct_of_entry (ue_used data) (ue_limit data)) as [Hpct _]; [lia..|].
  specialize (Hpct ltac:(lia)).
  destruct (getProgressBar_cells
              (Qfloor (fl (fl (inject_Z (ue_used data) / inject_Z (ue_limit data))
                           * inject_Z 100) + (1 # 2)))) as [-> ?]; [lia|].
  eauto.
Qed.

Lemma entry_bar_overdrawn (data : UsageEntry) :
  0 < ue_limit data -> 21 * ue_limit data <= 20 * ue_used data ->
  entry_bar fl data = None.
Proof.
  unfold entry_bar, Number_div, Number_times, Math_round.
  intros Hlimit Hover. destruct (Z.eqb_spec (ue_limit data) 0); [lia|].
  destruct (pct_of_entry (ue_used data) (ue_limit data)) as [_ Hpct]; [lia..|].
  apply getProgressBar_overflow. right. by apply Hpct.
Qed.

(** X20: the bar of a report entry.  Within the quota it has ten cells.  Once the
    counter is at 105 percent of the limit or more, drawing it throws a
    [RangeError]; so does a counter other than 0 with a limit of 0, while 0
    of 0 gives a bar without cells. *)
Theorem entry_bar_needs_usage_below_105_percent (data : UsageEntry) :
  (0 < ue_limit data -> 0 <= ue_used data <= ue_limit data ->
     exists filled, (filled <= 10)%nat /\ entry_bar fl data = Some (bar filled)) /\
  (0 < ue_limit data -> 21 * ue_limit data <= 20 * ue_used data ->
     entry_bar fl data = None) /\
  (ue_limit data = 0 ->
     entry_bar fl data = if ue_used data =? 0 then Some "[]" else None).
Proof.
  split; [apply entry_bar_within|]. split; [apply entry_bar_overdrawn|].
  unfold entry_bar, Number_div, Number_times, Math_round.
  intros ->. cbn. destruct (Z.eqb_spec (ue_used data) 0); [done|].
  by destruct (Z.ltb _ _).
Qed.

Section Report.
Variable w : World.
Variable PROVIDER_LIMITS : list (string * LimitConfig).

(** X21: a provider booked at 105 percent of its free quota or more makes the
    usage report unprintable: [getUsageStats] returns an entry for it, with
    nothing remaining, whose progress bar throws a [RangeError].  (The
    counter passes the limit because the paid fallback, the content path and
    explicit calls are booked on it without a quota check.) *)
Theorem overdrawn_provider_breaks_the_report r p cfg :
  (p, cfg) ∈ PROVIDER_LIMITS ->
  (forall cfg', (p, cfg') ∈ PROVIDER_LIMITS -> cfg' = cfg) ->
  lc_type cfg <> paid ->
  0 < lc_limit cfg ->
  let used := default 0 (storage r !! storage_key_at cfg p (clock w (ticks r))) in
  21 * lc_limit cfg <= 20 * used ->
  exists stats r' data,
    getUsageStats w PROVIDER_LIMITS r = (Ok stats, r') /\
    (st_monthly stats !! p = Some data \/ st_lifetime stats !! p = Some data) /\
    ue_used data = used /\ ue_limit data = lc_limit cfg /\ ue_remaining data = 0 /\
    entry_bar fl data = None.
Proof.
  intros Hin Hone Hty Hlimit used Hover. unfold getUsageStats.
  rewrite bind_run. unfold storage_getAll, gets. rewrite bind_run. unfold Date_now.
  set (now := clock w (ticks r)) in *.
  destruct (stats_loop_spec w PROVIDER_LIMITS (storage r) now
              PROVIDER_LIMITS ltac:(done) empty_stats (tick r))
    as (stats & r' & Hrun & _ & [Hm Hl] & _ & _ & Hrep).
  { split; intros q e; cbn; by rewrite lookup_empty. }
  specialize (Hrep p cfg Hin). unfold reported in Hrep.
  assert (exists data kind,
            (st_monthly stats !! p = Some data \/ st_lifetime stats !! p = Some data) /\
            entry_of PROVIDER_LIMITS (storage r) now kind p data)
    as (data & kind & Hdata & cfg' & Hin' & _ & Hlim & Hused & Hrem).
  { destruct (lc_type cfg); [| |done]; destruct Hrep as [data Hdata].
    - exists data, monthly. split; [by left|by apply Hm].
    - exists data, lifetime. split; [by right|by apply Hl]. }
  apply Hone in Hin'. subst cfg'. fold used in Hused.
  exists stats, r', data. split; [done|]. split; [done|]. split; [done|].
  split; [done|]. split; [lia|].
  apply entry_bar_overdrawn; lia.
Qed.
End Report.

End Bars.

(** ** The Redis backend *)

Section RedisBackend.
Import RedisStorage.

Lemma digit_of_digit (d : Z) : 0 <= d <= 9 -> digit_of (JS.digit d) = Some d.
Proof.
  intros Hd.
  assert (d = 0 \/ d = 1 \/ d = 2 \/ d = 3 \/ d = 4 \/ d = 5 \/ d = 6 \/ d = 7
          \/ d = 8 \/ d = 9) as Hcases by lia.
  repeat (destruct Hcases as [->|Hcases]; [reflexivity|]). by subst d.
Qed.

Lemma mod10_digit (n : Z) : 0 <= n mod 10 <= 9.
Proof. pose proof (Z.mod_pos_bound n 10 ltac:(done)). lia. Qed.

Lemma decimal_digits_first fuel : forall n acc,
  digit_first (decimal_digits (S fuel) n acc).
Proof.
  induction fuel as [|fuel IH]; intros n acc.
  - cbn [decimal_digits]. assert (H : digit_first (String (JS.digit (n mod 10)) acc)).
    { cbn. rewrite digit_of_digit; [done|]. apply mod10_digit. }
    by destruct (n <? 10).
  - change (decimal_digits (S (S fuel)) n acc)
      with (let acc' := String (JS.digit (n mod 10)) acc in
            if n <? 10 then acc' else decimal_digits (S fuel) (n / 10) acc').
    cbv zeta. destruct (n <? 10); [|apply IH].
    cbn. rewrite digit_of_digit; [done|]. apply mod10_digit.
Qed.

Lemma read_more_decimal fuel : forall n acc a,
  0 <= n < 2 ^ Z.of_nat fuel ->
  exists k, 0 <= k /\
    read_more a (decimal_digits fuel n acc) = read_more (a * 10 ^ k + n) acc.
Proof.
  induction fuel as [|fuel IH]; intros n acc a Hn.
  { exists 0. split; [done|]. cbn in *. f_equal. lia. }
  cbn [decimal_digits]. destruct (Z.ltb_spec n 10) as [Hsmall|Hbig].
  - exists 1. split; [done|]. cbn [read_more].
    rewrite Z.mod_small by lia. rewrite digit_of_digit by lia. f_equal. lia.
  - destruct (IH (n / 10) (String (JS.digit (n mod 10)) acc) a) as (k & Hk & ->).
    { rewrite Nat2Z.inj_succ, Z.pow_succ_r in Hn by lia.
      split; [apply Z.div_pos; lia|]. apply Z.div_lt_upper_bound; lia. }
    exists (k + 1). split; [lia|]. cbn [read_more].
    rewrite digit_of_digit by apply mod10_digit. f_equal.
    rewrite Z.pow_add_r by lia. pose proof (Z.div_mod n 10 ltac:(done)). lia.
Qed.

Lemma decimal_nonneg_run (n : Z) :
  0 <= n ->
  digit_first (decimal n) /\ read_digits (decimal n) = Some n.
Proof.
  intros Hn. unfold decimal. destruct (Z.ltb_spec n 0); [lia|].
  pose proof (decimal_digits_first (Z.to_nat (Z.log2 n)) n EmptyString) as Hfirst.
  split; [done|].
  destruct (read_more_decimal (S (Z.to_nat (Z.log2 n))) n EmptyString 0)
    as (k & _ & Hread).
  { rewrite Nat2Z.inj_succ, Z2Nat.id by apply Z.log2_nonneg.
    split; [done|]. destruct (decide (n = 0)) as [->|]; [done|].
    apply Z.log2_spec. lia. }
  destruct (decimal_digits _ n EmptyString) as [|c rest]; [done|].
  destruct Hfirst as [d Hd]. unfold read_digits. rewrite Hd, Hread. done.
Qed.

Lemma digit_not_sign_or_white (c : ascii) :
  is_Some (digit_of c) ->
  Ascii.eqb c "-" = false /\ Ascii.eqb c "+" = false /\ is_white c = false.
Proof.
  intros [d Hd]. unfold digit_of in Hd.
  destruct (Nat.leb 48 (nat_of_ascii c) && Nat.leb (nat_of_ascii c) 57)%bool eqn:Hrange;
    [|done].
  apply andb_true_iff in Hrange as [Hlo%Nat.leb_le Hhi%Nat.leb_le].
  assert (Hne : forall x : ascii, (nat_of_ascii x < 48)%nat -> Ascii.eqb c x = false).
  { intros x Hx. apply Ascii.eqb_neq. intros ->. lia. }
  split; [apply Hne; change (nat_of_ascii "-") with 45%nat; lia|].
  split; [apply Hne; change (nat_of_ascii "+") with 43%nat; lia|].
  unfold is_white. apply orb_false_iff. split.
  - apply Nat.eqb_neq. lia.
  - apply andb_false_iff. right. apply Nat.leb_gt. lia.
Qed.

Lemma read_signed_decimal (n : Z) : 0 <= n -> read_signed (skip_white (decimal n)) = Some n.
Proof.
  intros Hn. destruct (decimal_nonneg_run n Hn) as [Hfirst Hread].
  destruct (decimal n) as [|c rest]; [done|].
  destruct (digit_not_sign_or_white c Hfirst) as (Hminus & Hplus & Hwhite).
  cbn [skip_white]. rewrite Hwhite. unfold read_signed. by rewrite Hminus, Hplus.
Qed.

Lemma counter_of_decimal (n : Z) :
  0 <= n -> counter_of (Some (decimal n)) = Num (inject_Z n).
Proof.
  intros Hn. pose proof (read_signed_decimal n Hn) as Hread.
  destruct (decimal_nonneg_run n Hn) as [Hfirst _].
  unfold counter_of, parseInt10. rewrite Hread.
  by destruct (decimal n).
Qed.

Lemma redis_integer_decimal (n : Z) :
  0 <= n < 2 ^ 63 -> redis_integer (decimal n) = Some n.
Proof.
  intros Hn. destruct (decimal_nonneg_run n ltac:(lia)) as [Hfirst Hread].
  unfold redis_integer.
  destruct (decimal n) as [|c rest] eqn:Hdec; [done|].
  destruct (digit_not_sign_or_white c Hfirst) as (-> & _ & _).
  rewrite Hread. cbn [fmap option_fmap option_map]. rewrite Hdec, String.eqb_refl.
  destruct (Z.leb_spec (- 2 ^ 63) n), (Z.ltb_spec n (2 ^ 63)); try lia. done.
Qed.

Lemma prefixed_inj (a b : string) : prefixed a = prefixed b -> a = b.
Proof. apply string_app_inv_head. Qed.

Lemma drop_string_app (p k : string) : drop_string (String.length p) (p +:+ k) = k.
Proof. induction p as [|c p IH]; [by destruct k|]. exact IH. Qed.

Lemma replace_first_prefixed (key : string) :
  replace_first "omnisearch:" (prefixed key) = key.
Proof.
  unfold prefixed. destruct key; reflexivity.
Qed.

Lemma keys_with_prefix_spec (db : gmap string string) (key : string) :
  key ∈ keys_with_prefix "omnisearch:" db <->
  exists short, key = prefixed short /\ is_Some (db !! key).
Proof.
  unfold keys_with_prefix. rewrite list_elem_of_filter, list_elem_of_fmap. split.
  - intros [Hprefix ([k v] & -> & Hin%elem_of_map_to_list)]. cbn in *.
    apply string_prefix_inv in Hprefix as [short ->]. exists short. split; [done|]. eauto.
  - intros (short & -> & [v Hv]). split; [apply string_prefix_app|].
    exists (prefixed short, v). split; [done|]. by apply elem_of_map_to_list.
Qed.

Section Client.
Variable connect_reply : nat -> outcome unit.
Variable quit_reply : outcome unit.

Local Abbreviation ensureConnected := (ensureConnected connect_reply).
Local Abbreviation get := (get connect_reply).
Local Abbreviation increment := (increment connect_reply).
Local Abbreviation getAll := (getAll connect_reply).
Local Abbreviation close := (close quit_reply).

Lemma ensureConnected_failed c e :
  connected c = false ->
  connectionPromise c = Some (Throw e) \/
  (connectionPromise c = None /\ connect_reply (connects c) = Throw e) ->
  let c' := {| connected := false; connectionPromise := Some (Throw e);
               server := server c;
               connects := match connectionPromise c with
                           | None => S (connects c)
                           | Some _ => connects c
                           end |} in
  ensureConnected c = (Throw e, c') /\ ensureConnected c' = (Throw e, c').
Proof.
  intros Hdown Hwhy c'. unfold RedisStorage.ensureConnected. rewrite Hdown.
  destruct Hwhy as [Hp|[Hp Hreply]]; rewrite Hp; cbn; [|rewrite Hreply; cbn];
    subst c'; rewrite Hp; split; try done.
  destruct c; cbn in *; by subst.
Qed.

(** X22: a connection attempt that fails is never repeated.  If the first
    [client.connect()] of a storage object fails with [e], every [get],
    [increment] and [getAll] from then on throws that same [e] without
    calling [connect] again and without sending a command; [close] does
    nothing, so the object stays that way. *)
Theorem failed_connect_is_never_retried c e :
  connected c = false ->
  connectionPromise c = None ->
  connect_reply (connects c) = Throw e ->
  let c' := {| connected := false; connectionPromise := Some (Throw e);
               server := server c; connects := S (connects c) |} in
  (forall key, get key c = (Throw e, c') /\ get key c' = (Throw e, c')) /\
  (forall key, increment key c = (Throw e, c') /\ increment key c' = (Throw e, c')) /\
  (getAll c = (Throw e, c') /\ getAll c' = (Throw e, c')) /\
  close c' = (Ok tt, c').
Proof.
  intros Hdown Hnone Hreply c'.
  destruct (ensureConnected_failed c e Hdown (or_intror (conj Hnone Hreply)))
    as [Hfirst Hlater].
  rewrite Hnone in Hfirst, Hlater. fold c' in Hfirst, Hlater.
  unfold RedisStorage.get, RedisStorage.increment, RedisStorage.getAll.
  repeat split; try (rewrite bind_run; by rewrite ?Hfirst, ?Hlater).
Qed.

Lemma ensureConnected_up c : connected c = true -> ensureConnected c = (Ok tt, c).
Proof. intros H. unfold RedisStorage.ensureConnected. by rewrite H. Qed.

Lemma getAll_loop_run c keys : forall result,
  (forall key, key ∈ keys -> exists short, key = prefixed short) ->
  exists final,
    getAll_loop keys result c = (Ok final, c) /\
    forall short,
      final !! short =
        if decide (prefixed short ∈ keys)
        then Some (counter_of (server c !! prefixed short))
        else result !! short.
Proof.
  induction keys as [|key keys IH]; intros result Hkeys.
  { exists result. split; [done|]. intros short.
    rewrite decide_False; [done|]. by intros ?%elem_of_nil. }
  cbn [getAll_loop]. rewrite bind_run. unfold client_get, gets.
  destruct (Hkeys key) as [short0 ->]; [apply list_elem_of_here|].
  rewrite replace_first_prefixed.
  destruct (IH (<[short0 := counter_of (server c !! prefixed short0)]> result))
    as (final & -> & Hfinal).
  { intros k Hk. apply Hkeys. by apply list_elem_of_further. }
  exists final. split; [done|]. intros short. rewrite Hfinal.
  destruct (decide (prefixed short ∈ keys)) as [Hin|Hout].
  - rewrite decide_True; [done|]. by apply list_elem_of_further.
  - destruct (decide (short = short0)) as [->|Hne].
    + rewrite lookup_insert_eq, decide_True; [done|]. apply list_elem_of_here.
    + rewrite lookup_insert_ne by done. rewrite decide_False; [done|].
      intros [Heq%prefixed_inj|?]%elem_of_cons; done.
Qed.

(** X23: on an established connection the Redis backend keeps the contract of
    [UsageStorage] that the router relies on.  When the database holds the
    counters as the numerals Redis writes, under keys prefixed with
    [omnisearch:], [get] returns the counter (0 when there is none),
    [getAll] returns all of them under their unprefixed keys, and
    [increment] returns the counter plus one and stores it, touching no
    other key of the database and never connecting again. *)
Theorem redis_keeps_the_storage_contract c counters :
  connected c = true ->
  represents (server c) counters ->
  safe counters ->
  (forall key,
     get key c = (Ok (Num (inject_Z (default 0 (counters !! key)))), c)) /\
  getAll c = (Ok ((fun n => Num (inject_Z n)) <$> counters), c) /\
  (forall key, exists c',
     increment key c = (Ok (default 0 (counters !! key) + 1), c') /\
     connected c' = true /\ connects c' = connects c /\
     represents (server c') (incremented key counters) /\
     forall other, other <> prefixed key -> server c' !! other = server c !! other).
Proof.
  intros Hup Hrep Hsafe. split; [|split].
  - intros key. unfold RedisStorage.get.
    rewrite bind_run, (ensureConnected_up c Hup), bind_run.
    unfold client_get, gets, ret. rewrite Hrep.
    destruct (counters !! key) as [n|] eqn:Hn; [|done].
    change (decimal <$> Some n) with (Some (decimal n)).
    rewrite counter_of_decimal; [done|]. by apply (Hsafe key).
  - unfold RedisStorage.getAll.
    rewrite bind_run, (ensureConnected_up c Hup), bind_run.
    unfold client_keys, gets.
    destruct (getAll_loop_run c (keys_with_prefix "omnisearch:" (server c)) ∅)
      as (final & -> & Hfinal).
    { intros key (short & -> & _)%keys_with_prefix_spec. by exists short. }
    do 2 f_equal. apply map_eq. intros short. rewrite Hfinal, lookup_fmap.
    destruct (counters !! short) as [n|] eqn:Hn.
    + rewrite decide_True.
      * rewrite Hrep, Hn. change (decimal <$> Some n) with (Some (decimal n)).
        rewrite counter_of_decimal; [done|]. by apply (Hsafe short).
      * apply keys_with_prefix_spec. exists short. split; [done|].
        rewrite Hrep, Hn. by eexists.
    + rewrite decide_False; [by rewrite lookup_empty|].
      intros (short' & Heq%prefixed_inj & [v Hv])%keys_with_prefix_spec.
      subst short'. rewrite Hrep, Hn in Hv. done.
  - intros key. unfold RedisStorage.increment.
    rewrite bind_run, (ensureConnected_up c Hup). unfold client_incr.
    rewrite Hrep.
    assert (Hnext : forall n,
              represents (<[prefixed key := decimal (n + 1)]> (server c))
                         (<[key := n + 1]> counters)).
    { intros n other. destruct (decide (other = key)) as [->|Hne].
      - by rewrite !lookup_insert_eq.
      - rewrite !lookup_insert_ne; [apply Hrep|done|].
        by intros ?%prefixed_inj. }
    destruct (counters !! key) as [n|] eqn:Hn; cbn.
    + pose proof (Hsafe key n Hn) as Hrange.
      rewrite redis_integer_decimal
        by (change (2 ^ 63) with 9223372036854775808;
            change (2 ^ 53) with 9007199254740992 in Hrange; lia).
      destruct (Z.ltb_spec n (2 ^ 63 - 1)).
      2: { change (2 ^ 63) with 9223372036854775808 in *.
           change (2 ^ 53) with 9007199254740992 in Hrange. lia. }
      eexists. split; [reflexivity|]. cbn. repeat split; try done.
      * unfold incremented. rewrite Hn. apply Hnext.
      * intros other Hother. by rewrite lookup_insert_ne.
    + eexists. split; [reflexivity|]. cbn. repeat split; try done.
      * unfold incremented. rewrite Hn. apply (Hnext 0).
      * intros other Hother. by rewrite lookup_insert_ne.
Qed.

End Client.
End RedisBackend.

(** * The properties at concrete inputs *)

Import Scenario.
Import Cases.

(** ** The router at work *)

(** Everything registered and fresh: the head of the default stack answers
    and its monthly counter is the only one. *)
Example first_in_stack_wins :
  fst (route all_up all_six documented_limits plain_query fresh) = Ok brave_wins /\
  storage (snd (route all_up all_six documented_limits plain_query fresh))
  = {[ "brave:2026-02" := 1 ]}.
Proof. split; vm_compute; reflexivity. Qed.

(** A provider at its limit is passed over for the next stack member. *)
Example spent_quota_moves_on :
  provider <$> (match fst (route all_up all_six documented_limits plain_query
                             brave_spent) with
                | Ok res => Some res
                | Throw _ => None
                end) = Some "tavily".
Proof. vm_compute. reflexivity. Qed.

Example hasQuota_boundary :
  has_quota_at documented_limits {[ "brave:2026-02" := 1999 ]} "brave" feb_2026 = true /\
  has_quota_at documented_limits {[ "brave:2026-02" := 2000 ]} "brave" feb_2026 = false.
Proof. split; vm_compute; reflexivity. Qed.

(** A query that mentions Google goes to [serper] first. *)
Example google_query_prefers_serper :
  fst (unified_search all_up all_six documented_limits
         {| u_query := "Google Scholar rocq"; u_limit := None; u_provider := None;
            u_include_content := false |} fresh)
  = Ok [hit "serper"].
Proof. vm_compute. reflexivity. Qed.

(** When every provider times out, each registered stack member gets one
    failure on its record and the call ends with the error of the paid
    fallback. *)
Example all_down_trace :
  map (fun e => (inv_provider e, inv_via e))
    (calls (snd (route all_down all_six documented_limits plain_query fresh)))
  = [ ("brave", ViaStack); ("tavily", ViaStack); ("exa", ViaStack);
      ("jina_search", ViaStack); ("serper", ViaStack); ("youcom", ViaStack);
      ("jina_search", ViaPaidFallback) ] /\
  fst (route all_down all_six documented_limits plain_query fresh)
  = Throw (timeout_of "jina_search").
Proof. split; vm_compute; reflexivity. Qed.

Lemma only_jina_registered : "jina_search" ∈ only_jina.
Proof.
  unfold only_jina, registered. apply elem_of_list_to_set, list_elem_of_filter.
  split; [reflexivity|]. unfold defaultStack.
  do 3 apply list_elem_of_further. apply list_elem_of_here.
Qed.

Lemma documented_limits_cover providers options :
  table_covers providers documented_limits (stack_of options).
Proof.
  intros p Hp _. unfold stack_of, googleStack, defaultStack in Hp.
  destruct (preferGoogle options);
    repeat (apply elem_of_cons in Hp as [->|Hp]; [by eexists|]);
    by apply elem_of_nil in Hp.
Qed.

Lemma route_failures_come_from_the_fallback_witness :
  includeContent plain_query = false /\
  table_covers only_jina documented_limits (stack_of plain_query) /\
  exists found r1,
    route_loop all_down only_jina documented_limits plain_query
      (stack_of plain_query) fresh = (Ok found, r1).
Proof.
  split; [reflexivity|]. split; [apply documented_limits_cover|].
  apply (route_failures_come_from_the_fallback all_down only_jina documented_limits
           plain_query fresh eq_refl (documented_limits_cover _ _)).
  intros n _. reflexivity.
Defined.

(** When the usage store is down, [route] fails with the store's error,
    before any provider is called. *)
Example route_without_store :
  route unreachable_store all_six documented_limits plain_query fresh
  = (Throw store_down, asked (tick fresh)).
Proof. vm_compute. reflexivity. Qed.

Lemma paid_failure_is_exhaustion_counterexample :
  ~ paid_failure_is_exhaustion all_down only_jina documented_limits plain_query fresh.
Proof.
  intros H.
  assert (Hfailed : paid_fallback_failed all_down only_jina documented_limits
                      plain_query fresh).
  { split; [apply only_jina_registered|].
    eexists (removelast (calls (snd (route all_down only_jina documented_limits
                                       plain_query fresh)))),
            {| inv_provider := "jina_search"; inv_params := stack_params plain_query;
               inv_via := ViaPaidFallback; inv_storage := ∅;
               inv_circuit := _; inv_ticks := 1; inv_requests := 1 |}, _.
    split; [vm_compute; reflexivity|]. split; [reflexivity|].
    vm_compute. reflexivity. }
  specialize (H Hfailed). vm_compute in H. discriminate H.
Qed.

Lemma provider_calls_of_route_witness :
  let e := {| inv_provider := "brave"; inv_params := stack_params plain_query;
              inv_via := ViaStack; inv_storage := ∅; inv_circuit := ∅;
              inv_ticks := 1; inv_requests := 1 |} in
  e ∈ drop (length (calls fresh))
        (calls (snd (route all_up all_six documented_limits plain_query fresh))) /\
  "brave" ∈ all_six /\
  has_quota_at documented_limits ∅ "brave" (inv_time all_up e) = true.
Proof.
  intros e.
  assert (He : e ∈ drop (length (calls fresh))
                 (calls (snd (route all_up all_six documented_limits plain_query fresh)))).
  { vm_compute. apply list_elem_of_here. }
  split; [exact He|].
  destruct (provider_calls_of_route all_up all_six documented_limits plain_query
              fresh e He) as (Hreg & _ & _ & Hquota & _).
  split; [exact Hreg|exact Hquota].
Defined.

Lemma attempted_only_if_eligible_counterexample :
  ~ attempted_only_if_eligible all_up only_jina documented_limits plain_query
      jina_tripped.
Proof.
  intros H.
  destruct (H {| inv_provider := "jina_search"; inv_params := stack_params plain_query;
                 inv_via := ViaPaidFallback; inv_storage := ∅;
                 inv_circuit := circuitState jina_tripped; inv_ticks := 1;
                 inv_requests := 0 |})
    as (_ & Hclosed & _).
  { vm_compute. apply list_elem_of_here. }
  vm_compute in Hclosed. discriminate Hclosed.
Qed.

Lemma route_include_content_witness :
  includeContent content_query = true /\
  "jina_search" ∈ only_jina /\
  calls (snd (route all_up only_jina documented_limits content_query jina_tripped)) =
    [ {| inv_provider := "jina_search";
         inv_params := {| sp_query := "rocq prover"; sp_limit := Some 5;
                          sp_include_content := true |};
         inv_via := ViaContent; inv_storage := ∅;
         inv_circuit := circuitState jina_tripped; inv_ticks := 0;
         inv_requests := 0 |} ].
Proof.
  split; [reflexivity|]. split; [apply only_jina_registered|].
  apply (route_include_content all_up only_jina documented_limits content_query
           jina_tripped eq_refl).
  apply only_jina_registered.
Defined.

Lemma three_failures_open_one_success_resets_witness :
  let r3 := snd ((recordFailure all_up "brave" ;; recordFailure all_up "brave" ;;
                  recordFailure all_up "brave")%js fresh) in
  clock all_up (ticks r3) < clock all_up (Nat.pred (ticks r3)) + 5 * 60 * 1000 /\
  fst (isCircuitOpen all_up "brave" r3) = Ok true.
Proof.
  intros r3.
  assert (Hnow : clock all_up (ticks r3)
                 < clock all_up (Nat.pred (ticks r3)) + 5 * 60 * 1000)
    by (vm_compute; reflexivity).
  split; [exact Hnow|].
  exact (proj1 (proj2 (three_failures_open_one_success_resets all_up "brave" fresh))
           Hnow).
Defined.

Lemma isCircuitOpen_cooldown_witness :
  let state := {| failures := 3; lastFailure := feb_2026 - 1000;
                  cooldownUntil := feb_2026 - 1000 + CIRCUIT_BREAKER.cooldownMs |} in
  circuitState jina_tripped !! "jina_search" = Some state /\
  (fst (isCircuitOpen all_up "jina_search" jina_tripped) = Ok true <->
   clock all_up (ticks jina_tripped) < cooldownUntil state).
Proof.
  intros state.
  assert (H : circuitState jina_tripped !! "jina_search" = Some state)
    by (vm_compute; reflexivity).
  split; [exact H|].
  exact (proj1 (isCircuitOpen_cooldown all_up "jina_search" jina_tripped state H)).
Defined.

Lemma getStorageKey_derivation_witness :
  table_lookup documented_limits "brave"
  = Some {| lc_limit := 2000; lc_type := monthly; cost_per_query := None |} /\
  0 <= JS.YearFromTime (clock all_up (ticks fresh)) <= 9999 /\
  fst (getStorageKey all_up documented_limits "brave" fresh) = Ok "brave:2026-02".
Proof.
  split; [reflexivity|].
  assert (Hy : 0 <= JS.YearFromTime (clock all_up (ticks fresh)) <= 9999)
    by (vm_compute; split; discriminate).
  split; [exact Hy|].
  pose proof (getStorageKey_derivation all_up documented_limits "brave" _ fresh eq_refl)
    as [Hkey _].
  etransitivity; [exact (Hkey Hy)|]. vm_compute. reflexivity.
Defined.

Lemma successful_route_books_one_call_witness :
  let r' := snd (route all_up all_six documented_limits plain_query fresh) in
  route all_up all_six documented_limits plain_query fresh = (Ok brave_wins, r') /\
  forall k, k <> "brave:2026-02" -> k <> "brave:paid" -> storage r' !! k = None.
Proof.
  intros r'.
  assert (H : route all_up all_six documented_limits plain_query fresh
              = (Ok brave_wins, r')) by (vm_compute; reflexivity).
  split; [exact H|].
  destruct (successful_route_books_one_call all_up all_six documented_limits
              plain_query fresh brave_wins r' H)
    as (cfg & Hcfg & _ & _ & _ & Hothers & _).
  injection Hcfg as <-.
  intros k Hk Hp. rewrite Hothers; [reflexivity| |exact Hp].
  intros ->. apply Hk. vm_compute. reflexivity.
Defined.


(** An explicit call while the usage store is down: the provider has
    answered, and the caller gets the error of the store. *)
Example explicit_call_without_store :
  unified_search unreachable_store all_six documented_limits (ask (Some "brave")) fresh
  = (Throw store_down,
     asked (tick (log_call "brave" (stack_params plain_query) ViaExplicit fresh))).
Proof. vm_compute. reflexivity. Qed.

Lemma file_get_on_missing_or_corrupt_file_witness :
  parse_usage torn_file = Throw (SyntaxError "Unexpected token in JSON") /\
  FileStorage.get parse_usage "brave:2026-02" torn
  = (Ok (FileStorage.Own (FileStorage.JNumber 0)), torn) /\
  FileStorage.get parse_usage "constructor" torn
  = (Ok (FileStorage.Inherited "constructor"), torn).
Proof.
  assert (H : parse_usage torn_file = Throw (SyntaxError "Unexpected token in JSON"))
    by (vm_compute; reflexivity).
  split; [exact H|].
  destruct (file_get_on_missing_or_corrupt_file parse_usage torn) as (_ & _ & Hzero & Hin).
  { right. exists torn_file, (SyntaxError "Unexpected token in JSON").
    split; [reflexivity|exact H]. }
  split.
  - apply Hzero.
    refine (@bool_decide_unpack ("brave:2026-02" ∉ FileStorage.Object_prototype) _ _).
    vm_compute. exact I.
  - apply Hin.
    refine (@bool_decide_unpack ("constructor" ∈ FileStorage.Object_prototype) _ _).
    vm_compute. exact I.
Defined.

(** On a usage file that holds [null] every [get] throws. *)
Example get_on_nulled_file :
  FileStorage.get parse_usage "brave:2026-02" nulled
  = (Throw (TypeError "Cannot read properties of null (reading 'brave:2026-02')"),
     nulled).
Proof. vm_compute. reflexivity. Qed.

Lemma usage_stats_remaining_never_negative_witness :
  exists stats e,
    fst (getUsageStats all_up documented_limits fresh) = Ok stats /\
    st_monthly stats !! "brave" = Some e /\
    0 <= ue_remaining e.
Proof.
  destruct (usage_stats_remaining_never_negative all_up documented_limits fresh)
    as (stats & r' & Hrun & _ & Hrep & Hall).
  pose proof (Hrep "brave" {| lc_limit := 2000; lc_type := monthly;
                               cost_per_query := None |}
                (list_elem_of_here _ _)) as [e He].
  exists stats, e. rewrite Hrun. split; [reflexivity|]. split; [exact He|].
  apply (Hall "brave" e). by left.
Defined.

(** ** Further properties at concrete inputs *)


Lemma failed_route_bookings_witness :
  let r' := snd (route all_down only_jina documented_limits plain_query fresh) in
  route all_down only_jina documented_limits plain_query fresh
  = (Throw (timeout_of "jina_search"), r') /\
  storage r' = storage fresh.
Proof.
  intros r'.
  assert (H : route all_down only_jina documented_limits plain_query fresh
              = (Throw (timeout_of "jina_search"), r')) by (vm_compute; reflexivity).
  split; [exact H|].
  destruct (failed_route_bookings all_down only_jina documented_limits plain_query
              fresh _ r' H) as [Hsame|(cfg & earlier & e & _ & _ & _ & _ & Hsecond & _)].
  - exact Hsame.
  - discriminate Hsecond.
Defined.

(** The paid fallback answers and the usage store rejects the second of its
    two bookings: [route] fails, and the first booking stays. *)
Example half_booked_fallback :
  let r' := snd (route second_request_fails only_jina documented_limits plain_query
                   jina_tripped) in
  fst (route second_request_fails only_jina documented_limits plain_query jina_tripped)
  = Throw store_down /\
  storage r' = {[ "jina_search:lifetime" := 1 ]}.
Proof. split; vm_compute; reflexivity. Qed.

Lemma stale_record_restarts_count_witness :
  let state := {| failures := 3; lastFailure := feb_2026 - 400000;
                  cooldownUntil := feb_2026 - 100000 |} in
  let r' := snd ((isCircuitOpen all_up "jina_search" ;;
                  recordFailure all_up "jina_search")%js jina_cooled) in
  circuitState jina_cooled !! "jina_search" = Some state /\
  (3 <= failures state)%nat /\
  cooldownUntil state <= clock all_up (ticks jina_cooled) /\
  circuitState r' !! "jina_search"
  = Some {| failures := 1; lastFailure := feb_2026; cooldownUntil := 0 |}.
Proof.
  intros state r'.
  assert (H1 : circuitState jina_cooled !! "jina_search" = Some state)
    by (vm_compute; reflexivity).
  assert (H2 : (3 <= failures state)%nat) by (cbn; lia).
  assert (H3 : cooldownUntil state <= clock all_up (ticks jina_cooled))
    by (vm_compute; discriminate).
  split; [exact H1|]. split; [exact H2|]. split; [exact H3|].
  exact (proj1 (stale_record_restarts_count all_up "jina_search" jina_cooled state
                  H1 H2 H3)).
Defined.

Lemma failed_stack_call_is_recorded_witness :
  let r' := snd (route all_down all_six documented_limits plain_query fresh) in
  includeContent plain_query = false /\
  calls r' = calls fresh ++ [] ++ brave_first :: tail (calls r') /\
  search_outcome all_down "brave" (stack_params plain_query) 0
  = Throw (timeout_of "brave") /\
  exists state, circuitState r' !! "brave" = Some state /\ failures state = 1%nat.
Proof.
  intros r'.
  assert (H1 : calls r' = calls fresh ++ [] ++ brave_first :: tail (calls r'))
    by (vm_compute; reflexivity).
  split; [reflexivity|]. split; [exact H1|]. split; [reflexivity|].
  exact (failed_stack_call_is_recorded all_down all_six documented_limits plain_query
           fresh [] brave_first (tail (calls r')) (timeout_of "brave")
           eq_refl H1 eq_refl eq_refl).
Defined.

Lemma fallback_and_content_bypass_breaker_witness :
  let r' := snd (route all_up only_jina documented_limits plain_query jina_tripped) in
  jina_fallback ∈ drop (length (calls jina_tripped)) (calls r') /\
  inv_via jina_fallback <> ViaStack /\
  circuitState r' = circuitState jina_tripped.
Proof.
  intros r'.
  assert (H1 : jina_fallback ∈ drop (length (calls jina_tripped)) (calls r'))
    by (vm_compute; apply list_elem_of_here).
  assert (H2 : inv_via jina_fallback <> ViaStack) by discriminate.
  split; [exact H1|]. split; [exact H2|].
  exact (fallback_and_content_bypass_breaker all_up only_jina documented_limits
           plain_query jina_tripped jina_fallback H1 H2).
Defined.

Lemma first_booked_success_wins_witness :
  let r' := snd (route all_up all_six documented_limits plain_query fresh) in
  calls r' = calls fresh ++ [] ++ brave_first :: [] /\
  search_outcome all_up "brave" (stack_params plain_query) 0 = Ok [hit "brave"] /\
  forall res,
    fst (route all_up all_six documented_limits plain_query fresh) = Ok res ->
    results res = [hit "brave"] /\ provider res = "brave".
Proof.
  intros r'.
  assert (H1 : calls r' = calls fresh ++ [] ++ brave_first :: [])
    by (vm_compute; reflexivity).
  split; [exact H1|]. split; [reflexivity|].
  exact (proj2 (first_booked_success_wins all_up all_six documented_limits plain_query
                  fresh [] brave_first [] [hit "brave"] H1 eq_refl)).
Defined.

(** While the usage store rejects every booking, every provider of the stack
    that answers counts as failed, and the paid fallback is left half
    booked. *)
Example unbooked_answers_count_as_failures :
  let w := {| clock := clock all_up; search_outcome := search_outcome all_up;
              storage_error := fun n => if Nat.even n then None else Some store_down |} in
  let r' := snd (route w all_six documented_limits plain_query fresh) in
  map inv_provider (calls r')
  = [ "brave"; "tavily"; "exa"; "jina_search"; "serper"; "youcom"; "jina_search" ] /\
  map (fun p => failures <$> circuitState r' !! p) defaultStack
  = [ Some 1; Some 1; Some 1; Some 1; Some 1; Some 1 ]%nat /\
  storage r' = {[ "jina_search:lifetime" := 1 ]} /\
  fst (route w all_six documented_limits plain_query fresh) = Throw store_down.
Proof. repeat split; vm_compute; reflexivity. Qed.

Lemma usage_report_paid_side_witness :
  exists stats r',
    getUsageStats all_up with_perplexity paid_calls = (Ok stats, r') /\
    storage r' = storage paid_calls /\
    st_paidApis stats !! "perplexity"
    = Some {| pa_used := 4; pa_costPerQuery := 5 # 1000 |} /\
    st_paid stats !! "jina_search" = Some 2 /\
    st_paid stats !! "perplexity" = None.
Proof.
  eexists _, _. split; [vm_compute; reflexivity|].
  split.
  - eapply (usage_report_paid_side all_up with_perplexity paid_calls).
    vm_compute. reflexivity.
  - repeat split; vm_compute; reflexivity.
Defined.

Lemma google_in_any_case_prefers_serper_witness :
  explicit_choice google_query = None /\
  u_query google_query = "" +:+ "Google" +:+ " Scholar rocq" /\
  toLowerCase "Google" = "google" /\
  fst (unified_search all_up all_six documented_limits google_query fresh)
  = Ok [hit "serper"].
Proof.
  split; [reflexivity|]. split; [reflexivity|]. split; [reflexivity|].
  rewrite (google_in_any_case_prefers_serper all_up all_six documented_limits
             google_query fresh "" "Google" " Scholar rocq" eq_refl eq_refl eq_refl).
  vm_compute. reflexivity.
Defined.

Lemma explicit_call_skips_quota_and_breaker_witness :
  let sent := {| sp_query := "rocq prover"; sp_limit := None;
                 sp_include_content := false |} in
  let r' := snd (unified_search all_up all_six documented_limits (ask (Some "brave"))
                   brave_spent) in
  explicit_choice (ask (Some "brave")) = Some "brave" /\
  "brave" ∈ legacy_providers /\
  has_quota_at documented_limits (storage brave_spent) "brave" feb_2026 = false /\
  calls r' =
    [ {| inv_provider := "brave"; inv_params := sent; inv_via := ViaExplicit;
         inv_storage := storage brave_spent; inv_circuit := ∅; inv_ticks := 0;
         inv_requests := 0 |} ] /\
  fst (unified_search all_up all_six documented_limits (ask (Some "brave")) brave_spent)
  = Ok [hit "brave"].
Proof.
  intros sent r'.
  assert (Hlegacy : "brave" ∈ legacy_providers)
    by (unfold legacy_providers; apply list_elem_of_further, list_elem_of_here).
  split; [reflexivity|]. split; [exact Hlegacy|]. split; [vm_compute; reflexivity|].
  destruct (explicit_call_skips_quota_and_breaker all_up all_six documented_limits
              (ask (Some "brave")) "brave" brave_spent eq_refl Hlegacy)
    as (Hcalls & _ & Hout).
  split; [exact Hcalls|exact Hout].
Defined.

Lemma unbits_bits (p : positive) : unbits (bits p) = p.
Proof. induction p as [p IH|p IH|]; cbn; by rewrite ?IH. Qed.

Lemma read_counters_write_counters (data : FileStorage.document) :
  read_counters (write_counters data) = Ok data.
Proof.
  destruct data as [properties|]; [|reflexivity].
  unfold read_counters, write_counters. cbn. by rewrite unbits_bits, decode_encode.
Qed.

Lemma exa_is_no_member : "exa:lifetime" ∉ FileStorage.Object_prototype.
Proof.
  refine (@bool_decide_unpack ("exa:lifetime" ∉ FileStorage.Object_prototype) _ _).
  vm_compute. exact I.
Qed.

Lemma file_increments_count_witness :
  (forall data, read_counters (write_counters data) = Ok data) /\
  FileStorage.load read_counters torn = (Ok (FileStorage.Object ∅), torn) /\
  ("exa:lifetime" ∉ FileStorage.Object_prototype) /\
  - 2 ^ 53 <= 0 /\ 0 + Z.of_nat 3 <= 2 ^ 53 /\
  (forall i, (i < 3)%nat -> writable (FileStorage.saves torn + i) = None) /\
  exists disk',
    increment_times read_counters write_counters writable native_code 3
      "exa:lifetime" torn
    = (Ok (map (fun i => FileStorage.Own (FileStorage.JNumber (0 + Z.of_nat i)))
             (seq 1 3)), disk') /\
    FileStorage.saves disk' = (FileStorage.saves torn + 3)%nat /\
    FileStorage.get read_counters "exa:lifetime" disk'
    = (Ok (FileStorage.Own (FileStorage.JNumber (0 + Z.of_nat 3))), disk').
Proof.
  assert (Hload : FileStorage.load read_counters torn
                  = (Ok (FileStorage.Object ∅), torn)) by reflexivity.
  assert (Hwrites : forall i, (i < 3)%nat ->
                      writable (FileStorage.saves torn + i) = None) by reflexivity.
  split; [exact read_counters_write_counters|]. split; [exact Hload|].
  split; [exact exa_is_no_member|]. split; [lia|]. split; [lia|].
  split; [exact Hwrites|].
  destruct (file_increments_count read_counters write_counters writable native_code
              read_counters_write_counters 3 torn ∅ "exa:lifetime" 0 Hload
              exa_is_no_member eq_refl ltac:(lia) ltac:(lia) Hwrites)
    as (disk' & Hrun & Hsaves & Hget & _).
  exists disk'. split; [exact Hrun|]. split; [exact Hsaves|exact Hget].
Defined.

Lemma increment_on_corrupt_file_starts_over_witness :
  FileStorage.file torn = Some torn_file /\
  read_counters torn_file = Throw (SyntaxError "Unexpected token") /\
  ("exa:lifetime" ∉ FileStorage.Object_prototype) /\
  FileStorage.increment read_counters write_counters writable native_code
    "exa:lifetime" torn
  = (Ok (FileStorage.Own (FileStorage.JNumber 1)),
     {| FileStorage.file :=
          Some (write_counters
                  (FileStorage.Object {[ "exa:lifetime" := FileStorage.JNumber 1 ]}));
        FileStorage.saves := 1 |}).
Proof.
  split; [reflexivity|]. split; [reflexivity|]. split; [exact exa_is_no_member|].
  exact (proj1 (increment_on_corrupt_file_starts_over read_counters write_counters
                  writable native_code read_counters_write_counters torn torn_file _
                  "exa:lifetime" eq_refl eq_refl exa_is_no_member)).
Defined.

(** On a full disk the second [increment] fails and the counter stays at 1. *)
Example increment_on_full_disk :
  exists disk',
    increment_times read_counters write_counters full_after_one native_code 2
      "exa:lifetime" torn = (Throw disk_full, disk') /\
    FileStorage.get read_counters "exa:lifetime" disk'
    = (Ok (FileStorage.Own (FileStorage.JNumber 1)), disk').
Proof.
  eexists. split; vm_compute; reflexivity.
Qed.

(** An [increment] under the name of a member of [Object.prototype] does not
    count: it stores a text. *)
Example increment_of_inherited_name :
  fst (FileStorage.increment read_counters write_counters writable native_code
         "toString" torn)
  = Ok (FileStorage.Own
          (FileStorage.JString "function toString() { [native code] }1")).
Proof. vm_compute. reflexivity. Qed.

Lemma no_key_no_route_witness :
  getAvailableProviders (fun _ => false) = [] /\
  route all_up (registered (fun _ => false)) documented_limits plain_query brave_spent
  = (Throw no_providers_available, brave_spent).
Proof.
  split; [reflexivity|].
  exact (proj2 (proj2 (proj2 (no_key_no_route all_up documented_limits (fun _ => false))))
           eq_refl plain_query brave_spent).
Defined.

Lemma routed_only_providers_cannot_be_selected_witness :
  explicit_choice (ask (Some "serper")) = Some "serper" /\
  "serper" ∈ WebSearchProvider /\
  "serper" ∈ all_six /\
  unified_search all_up all_six documented_limits (ask (Some "serper")) fresh
  = (Throw (ProviderError INVALID_INPUT
              "Invalid provider: serper. Valid options: tavily, brave, kagi, exa"
              "web_search"), fresh).
Proof.
  assert (Hname : "serper" ∈ WebSearchProvider)
    by (unfold WebSearchProvider; do 5 apply list_elem_of_further; apply list_elem_of_here).
  split; [reflexivity|]. split; [exact Hname|]. split.
  - unfold all_six, registered. apply elem_of_list_to_set, list_elem_of_filter.
    split; [reflexivity|]. unfold defaultStack.
    do 4 apply list_elem_of_further. apply list_elem_of_here.
  - exact (routed_only_providers_cannot_be_selected all_up all_six documented_limits
             (ask (Some "serper")) "serper" fresh eq_refl Hname).
Defined.

(** Two pages that differ only in letter case and a trailing slash are one. *)
Example same_page_twice :
  deduplicateByUrl toLowerCase
    [ page "brave" "Rocq";
      {| title := "Rocq again"; url := "HTTPS://Brave.example/rocq/"; snippet := "";
         source_provider := "exa" |};
      page "exa" "Rocq" ]
  = [ page "brave" "Rocq"; page "exa" "Rocq" ].
Proof. vm_compute. reflexivity. Qed.

Lemma quality_search_fails_without_results_witness :
  let sent := {| sp_query := "rocq prover"; sp_limit := Some 15;
                 sp_include_content := false |} in
  Forall (fun answer => ~ has_results answer)
         (answers all_down quality_sources sent 0) /\
  exists s',
    quality_search all_down documented_limits quality_sources (Ok "jina-key") rethrown
      prefers_tavily toLowerCase quality_query idle = (Throw all_sources_failed, s') /\
    storage (qs_router s') = ∅ /\
    map inv_provider (calls (qs_router s')) = quality_sources.
Proof.
  intros sent.
  assert (Hnone : Forall (fun answer => ~ has_results answer)
                         (answers all_down quality_sources sent 0)).
  { repeat constructor; by intros (? & ? & ?). }
  split; [exact Hnone|].
  destruct (proj2 (quality_search_fails_without_results all_down documented_limits
                     quality_sources (Ok "jina-key") rethrown prefers_tavily toLowerCase
                     quality_query idle) "jina-key" eq_refl Hnone)
    as (s' & Hrun & Hsto & _ & _ & _ & Hcalls).
  exists s'. split; [exact Hrun|]. split; [exact Hsto|].
  rewrite Hcalls. reflexivity.
Defined.

Lemma library_serves : store_serves library (qs_router idle).
Proof. intros n _. reflexivity. Qed.

Lemma quality_search_succeeds_when_a_source_answers_witness :
  let sent := {| sp_query := "rocq prover"; sp_limit := Some 15;
                 sp_include_content := false |} in
  Exists has_results (answers library quality_sources sent 0) /\
  store_serves library (qs_router idle) /\
  exists s',
    quality_search library documented_limits quality_sources (Ok "jina-key") rethrown
      prefers_tavily toLowerCase quality_query idle
    = (Ok [ Reranked {| title := "Rocq"; url := "https://tavily.example/Rocq";
                        snippet := "About Rocq";
                        source_provider := "tavily+reranked" |} 1 (9 # 10);
            Reranked {| title := "Rocq"; url := "https://brave.example/Rocq";
                        snippet := "About Rocq";
                        source_provider := "brave+reranked" |} 2 (1 # 2) ], s') /\
    length (qs_reranks s') = 1%nat.
Proof.
  intros sent.
  assert (Hsome : Exists has_results (answers library quality_sources sent 0)).
  { apply Exists_cons_hd. by eexists _, _. }
  split; [exact Hsome|]. split; [exact library_serves|].
  destruct (quality_search_succeeds_when_a_source_answers library documented_limits
              quality_sources (Ok "jina-key") rethrown prefers_tavily toLowerCase
              quality_query idle "jina-key" eq_refl Hsome library_serves)
    as (out & s' & Hrun & _).
  exists s'. split.
  - rewrite Hrun. f_equal.
    assert (Hout : fst (quality_search library documented_limits quality_sources
                          (Ok "jina-key") rethrown prefers_tavily toLowerCase
                          quality_query idle)
                   = Ok out) by (by rewrite Hrun).
    vm_compute in Hout. by injection Hout as <-.
  - replace s' with (snd (quality_search library documented_limits quality_sources
                            (Ok "jina-key") rethrown prefers_tavily toLowerCase
                            quality_query idle))
      by (by rewrite Hrun).
    vm_compute. reflexivity.
Defined.


(** With the usage store down, the quality search fails although its
    sources have answered: the error of the store goes through
    [handle_provider_error]. *)
Example quality_search_without_store :
  fst (quality_search unreachable_store documented_limits quality_sources
         (Ok "jina-key") rethrown prefers_tavily toLowerCase quality_query idle)
  = Throw (rethrown store_down "quality_search" "search").
Proof. vm_compute. reflexivity. Qed.

(** A rounding that is exact rounds like doubles do. *)
Lemma exact_rounds_like_double : rounds_like_double exact.
Proof.
  unfold exact. split; [|split].
  - intros q. apply Qle_trans with 0%Q.
    + apply Qabs_Qle_condition. lra.
    + apply Qmult_le_0_compat; [apply Qabs_nonneg|discriminate].
  - reflexivity.
  - auto.
Qed.

Lemma getProgressBar_range_witness :
  rounds_like_double exact /\
  getProgressBar exact (Num 45) = Some "[█████░░░░░]" /\
  getProgressBar exact (Num 44) = Some "[████░░░░░░]" /\
  getProgressBar exact (Num 105) = None.
Proof.
  split; [exact exact_rounds_like_double|].
  destruct (getProgressBar_range exact exact_rounds_like_double 45) as [H45 _].
  destruct (getProgressBar_range exact exact_rounds_like_double 44) as [H44 _].
  destruct (getProgressBar_range exact exact_rounds_like_double 105) as (_ & H105 & _).
  split; [exact (proj1 (H45 ltac:(lia)))|].
  split; [exact (proj1 (H44 ltac:(lia)))|].
  exact (H105 ltac:(lia)).
Defined.

(** A spent quota is a full bar. *)
Example spent_quota_bar :
  entry_bar exact {| ue_used := 1000; ue_limit := 1000; ue_remaining := 0 |}
  = Some "[██████████]".
Proof. vm_compute. reflexivity. Qed.

Lemma entry_bar_needs_usage_below_105_percent_witness :
  rounds_like_double exact /\
  (exists filled,
     (filled <= 10)%nat /\
     entry_bar exact {| ue_used := 1000; ue_limit := 1000; ue_remaining := 0 |}
     = Some (bar filled)) /\
  entry_bar exact {| ue_used := 1050; ue_limit := 1000; ue_remaining := 0 |} = None.
Proof.
  split; [exact exact_rounds_like_double|].
  destruct (entry_bar_needs_usage_below_105_percent exact exact_rounds_like_double
              {| ue_used := 1000; ue_limit := 1000; ue_remaining := 0 |})
    as (Hin & _ & _).
  destruct (entry_bar_needs_usage_below_105_percent exact exact_rounds_like_double
              {| ue_used := 1050; ue_limit := 1000; ue_remaining := 0 |})
    as (_ & Hover & _).
  split; [exact (Hin ltac:(cbn; lia) ltac:(cbn; lia))
         |exact (Hover ltac:(cbn; lia) ltac:(cbn; lia))].
Defined.

Lemma overdrawn_provider_breaks_the_report_witness :
  let cfg := {| lc_limit := 1000; lc_type := lifetime; cost_per_query := None |} in
  rounds_like_double exact /\
  ("jina_search", cfg) ∈ documented_limits /\
  21 * lc_limit cfg
  <= 20 * default 0 (storage jina_overdrawn !! "jina_search:lifetime") /\
  exists stats data,
    fst (getUsageStats all_up documented_limits jina_overdrawn) = Ok stats /\
    st_lifetime stats !! "jina_search" = Some data /\
    ue_used data = 1050 /\ ue_limit data = 1000 /\
    entry_bar exact data = None.
Proof.
  intros cfg.
  assert (Hin : ("jina_search", cfg) ∈ documented_limits).
  { unfold documented_limits. do 3 apply list_elem_of_further. apply list_elem_of_here. }
  assert (Hone : forall cfg', ("jina_search", cfg') ∈ documented_limits -> cfg' = cfg).
  { intros cfg' H. unfold documented_limits in H.
    repeat (apply elem_of_cons in H as [H|H]; [by injection H|]).
    by apply elem_of_nil in H. }
  assert (Hover : 21 * lc_limit cfg
                  <= 20 * default 0 (storage jina_overdrawn !! "jina_search:lifetime"))
    by (vm_compute; discriminate).
  split; [exact exact_rounds_like_double|]. split; [exact Hin|]. split; [exact Hover|].
  destruct (overdrawn_provider_breaks_the_report exact exact_rounds_like_double all_up
              documented_limits jina_overdrawn "jina_search" cfg Hin Hone
              ltac:(discriminate) ltac:(cbn; lia) Hover)
    as (stats & r' & data & Hrun & [Hm|Hl] & Hused & Hlimit & _ & Hbar).
  - exfalso.
    assert (Hstats : fst (getUsageStats all_up documented_limits jina_overdrawn) = Ok stats)
      by (by rewrite Hrun).
    vm_compute in Hstats. injection Hstats as <-. vm_compute in Hm. discriminate Hm.
  - exists stats, data. rewrite Hrun. repeat split; done.
Defined.

Lemma failed_connect_is_never_retried_witness :
  let down := {| RedisStorage.connected := false;
                 RedisStorage.connectionPromise := Some (Throw refused);
                 RedisStorage.server := ∅; RedisStorage.connects := 1 |} in
  RedisStorage.connected unconnected = false /\
  RedisStorage.connectionPromise unconnected = None /\
  never_up (RedisStorage.connects unconnected) = Throw refused /\
  RedisStorage.increment never_up "brave:2026-02" unconnected = (Throw refused, down) /\
  RedisStorage.get never_up "brave:2026-02" down = (Throw refused, down) /\
  RedisStorage.close (Ok tt) down = (Ok tt, down).
Proof.
  intros down.
  destruct (failed_connect_is_never_retried never_up (Ok tt) unconnected refused
              eq_refl eq_refl eq_refl) as (Hget & Hinc & _ & Hclose).
  split; [reflexivity|]. split; [reflexivity|]. split; [reflexivity|].
  split; [exact (proj1 (Hinc "brave:2026-02"))|].
  split; [exact (proj2 (Hget "brave:2026-02"))|exact Hclose].
Defined.

Lemma shared_database_represents :
  RedisStorage.represents (RedisStorage.server shared_database) {[ "brave:2026-02" := 41 ]}.
Proof.
  intros key. destruct (decide (key = "brave:2026-02")) as [->|Hne].
  - vm_compute. reflexivity.
  - rewrite lookup_singleton_ne by done. cbn [RedisStorage.server shared_database].
    rewrite lookup_insert_ne.
    + rewrite lookup_singleton_ne; [done|]. discriminate.
    + intros Heq. apply Hne. symmetry.
      by apply (string_app_inv_head "omnisearch:").
Qed.

Lemma redis_keeps_the_storage_contract_witness :
  RedisStorage.connected shared_database = true /\
  RedisStorage.represents (RedisStorage.server shared_database)
    {[ "brave:2026-02" := 41 ]} /\
  RedisStorage.safe {[ "brave:2026-02" := 41 ]} /\
  RedisStorage.get never_up "brave:2026-02" shared_database
  = (Ok (Num 41), shared_database) /\
  RedisStorage.getAll never_up shared_database
  = (Ok {[ "brave:2026-02" := Num 41 ]}, shared_database) /\
  fst (RedisStorage.increment never_up "brave:2026-02" shared_database) = Ok 42.
Proof.
  assert (Hsafe : RedisStorage.safe {[ "brave:2026-02" := 41 ]}).
  { intros key n [_ <-]%lookup_singleton_Some. split; [lia|reflexivity]. }
  destruct (redis_keeps_the_storage_contract never_up shared_database
              {[ "brave:2026-02" := 41 ]} eq_refl shared_database_represents Hsafe)
    as (Hget & Hall & Hinc).
  split; [reflexivity|]. split; [exact shared_database_represents|].
  split; [exact Hsafe|]. split; [exact (Hget "brave:2026-02")|]. split.
  - rewrite Hall. by rewrite map_fmap_singleton.
  - destruct (Hinc "brave:2026-02") as (c' & -> & _). reflexivity.
Defined.
